(** * The GA engine of pypoptim (algorythm/ga/ga.py)

    A shallow embedding of class [GA]: construction and validation, the
    population operations and the generational loop [run].

    Python objects live in typed stores and are named by their index (their
    identity, what [is] compares): solutions, payload values and the engine's
    bounds arrays.  An operation is a function of the world that returns a
    value, raises an exception or exhausts the retry budget of the
    parent-selection loop. *)

From Stdlib Require Import ZArith QArith Lia List Permutation Sorted.
From stdpp Require Import base list strings.
Import ListNotations.

Local Open Scope Z_scope.
Local Open Scope list_scope.

(** ** Python values and exceptions *)

(** A reference: the index of an object in its store. *)
Abbreviation loc := nat.

Inductive exn :=
| TypeError
| ValueError
| AttributeError
| KeyError
| IndexError
| AssertionError
| SystemError.   (* a reference outside its store: no Python program builds one *)

(** Arguments whose type the engine inspects. [PySol l] is a reference to the
    solution object [l], an instance of the Solution subclass; [PyObj l] is a
    reference to an object [l] with the attributes of a solution ([x], [y],
    [data]) that is not an instance of it. *)
#[warnings="-register-all"]
Inductive pyval :=
| PyNone
| PyInt (z : Z)
| PyFloat (q : Q)
| PyTuple (items : list pyval)
| PyList (items : list pyval)
| PySol (l : loc)
| PyObj (l : loc).

(** What [mutate_population] can be handed: one of the values above, or an
    instance of a subclass of [int] whose class defines [__iter__].  Such an
    object is an [int] for [isinstance], and a [for] loop over it runs over
    its items.  Where an operation only computes with an integer, an instance
    of a subclass behaves as the [int] it is, and [PyInt] stands for it. *)
Inductive population_arg :=
| Value (v : pyval)
| IterableInt (value : Z) (items : list pyval).

Coercion Value : pyval >-> population_arg.

(** Modelled from the spec: class Solution (pypoptim/algorythm/solution.py is
    not under src/): a gene vector [x], a fitness [y] (unset when [None]) and
    an open key -> value payload [data].  The dict keeps insertion order and
    its values are references to payload objects. *)
Record Solution := mkSolution {
  sol_x : list Q;
  sol_y : option Q;
  sol_data : list (string * loc)
}.

(** A payload object: a mutable value (an array of numbers). *)
Definition payload := list Q.

(** A float ndarray of shape (n, 2): one (lower, upper) row per gene. *)
Definition ndarray2 := list (Q * Q).

Definition Qleb (a b : Q) : bool := Qle_bool a b.
Definition Qltb (a b : Q) : bool := negb (Qle_bool b a).

(** ** The collaborators the engine is generic over *)

(** Modelled from the spec: the caller's concrete Solution subclass (section 6,
    Solution type): the objective hook, the two flags and the comparison
    operator; none of them is under src/. *)
Class SolutionSubclass := {
  update : Solution -> Solution;
  is_updated : Solution -> bool;
  is_valid : Solution -> bool;
  sol_lt : Solution -> Solution -> bool   (* __lt__ *)
}.

(** Modelled from the spec: the random source and the numeric kernels of
    pypoptim.helpers, .crossover, .mutation and .selection, none of which is
    under src/.  Only their signatures are fixed here; the floating-point
    formulas stay abstract. *)
Class Numerics := {
  Generator : Type;
  (* rng.random(): a float of [0, 1) *)
  rng_random : Generator -> Q * Generator;
  (* the positions a tournament of the given force draws among n entries *)
  tournament_draw : nat -> Z -> Generator -> list nat * Generator;
  random_value_from_bounds : Q * Q -> Generator -> Q * Generator;
  transform_genes_bounds :
    list Q -> ndarray2 -> list Q -> list bool -> list Q * ndarray2;
  transform_genes_bounds_back :
    list Q -> ndarray2 -> ndarray2 -> list bool -> list Q;
  allclose : ndarray2 -> ndarray2 -> bool;
  (* both children are produced together *)
  sbx_crossover :
    list Q -> list Q -> ndarray2 -> Q -> Generator -> (list Q * list Q) * Generator;
  (* the Cauchy mutation of one gene vector *)
  cauchy_mutation :
    list Q -> ndarray2 -> Q -> Q -> Generator -> list Q * Generator
}.

(** What the engine leaves behind besides its results: calls of
    [logger.debug] and calls of the solutions' [update] hook. *)
Inductive event :=
| Debug (msg : string)
| DebugAt (i : nat) (msg : string)
| Updated (l : loc).

Section Engine.

Context {SC : SolutionSubclass} {NK : Numerics}.

(** ** The world and the monad of engine operations *)

Record world := mkWorld {
  sols : list Solution;      (* solution objects *)
  vals : list payload;       (* payload objects *)
  arrays : list ndarray2;    (* bounds arrays *)
  rng : Generator;           (* the engine's random source *)
  log : list event
}.

Inductive outcome (A : Type) :=
| Ok (a : A) (w : world)
| Raise (e : exn) (w : world)
| Timeout.

Arguments Ok {A} a w.
Arguments Raise {A} e w.
Arguments Timeout {A}.

Definition M (A : Type) := world -> outcome A.

Definition ret {A} (a : A) : M A := fun w => Ok a w.
Definition raise {A} (e : exn) : M A := fun w => Raise e w.
Definition timeout {A} : M A := fun _ => Timeout.

Definition bind {A B} (m : M A) (k : A -> M B) : M B :=
  fun w =>
    match m w with
    | Ok a w' => k a w'
    | Raise e w' => Raise e w'
    | Timeout => Timeout
    end.

Notation "x <- m ;; k" := (bind m (fun x => k))
  (at level 100, m at next level, right associativity).
Notation "m ;;; k" := (bind m (fun _ => k))
  (at level 100, right associativity).

Fixpoint mapM {A B} (f : A -> M B) (l : list A) : M (list B) :=
  match l with
  | [] => ret []
  | a :: l' => b <- f a ;; bs <- mapM f l' ;; ret (b :: bs)
  end.

Fixpoint forM {A} (f : A -> M unit) (l : list A) : M unit :=
  match l with
  | [] => ret tt
  | a :: l' => f a ;;; forM f l'
  end.

(** *** Store primitives *)

Definition read_sol (l : loc) : M Solution :=
  fun w => match sols w !! l with
           | Some s => Ok s w
           | None => Raise SystemError w
           end.

Definition write_sol (l : loc) (s : Solution) : M unit :=
  fun w => Ok tt (mkWorld (<[l := s]> (sols w)) (vals w) (arrays w) (rng w) (log w)).

Definition new_sol (s : Solution) : M loc :=
  fun w => Ok (length (sols w))
              (mkWorld (sols w ++ [s]) (vals w) (arrays w) (rng w) (log w)).

Definition read_val (l : loc) : M payload :=
  fun w => match vals w !! l with
           | Some v => Ok v w
           | None => Raise SystemError w
           end.

Definition new_val (v : payload) : M loc :=
  fun w => Ok (length (vals w))
              (mkWorld (sols w) (vals w ++ [v]) (arrays w) (rng w) (log w)).

Definition read_array (l : loc) : M ndarray2 :=
  fun w => match arrays w !! l with
           | Some a => Ok a w
           | None => Raise SystemError w
           end.

Definition new_array (a : ndarray2) : M loc :=
  fun w => Ok (length (arrays w))
              (mkWorld (sols w) (vals w) (arrays w ++ [a]) (rng w) (log w)).

(** [a[...] = rows]: assignment into the array object [l], as any holder of a
    reference to it can do. *)
Definition write_array (l : loc) (a : ndarray2) : M unit :=
  fun w => match arrays w !! l with
           | Some _ =>
               Ok tt (mkWorld (sols w) (vals w) (<[l := a]> (arrays w)) (rng w) (log w))
           | None => Raise SystemError w
           end.

Definition emit (e : event) : M unit :=
  fun w => Ok tt (mkWorld (sols w) (vals w) (arrays w) (rng w) (log w ++ [e])).

(** Run a draw of the random source. *)
Definition draw {A} (f : Generator -> A * Generator) : M A :=
  fun w => let '(a, g) := f (rng w) in
           Ok a (mkWorld (sols w) (vals w) (arrays w) g (log w)).

Definition seed (g : Generator) : M unit :=
  fun w => Ok tt (mkWorld (sols w) (vals w) (arrays w) g (log w)).

(** ** Solution objects *)

(** [SolutionSubclass(genes, **data)]: a fresh object, fitness unset; the
    keyword arguments land in a new dict that holds the same values. *)
Definition construct (genes : list Q) (data : list (string * loc)) : M loc :=
  new_sol (mkSolution genes None data).

(** [sol._y = y] *)
Definition set_y (sol : loc) (y : option Q) : M unit :=
  s <- read_sol sol ;;
  write_sol sol (mkSolution (sol_x s) y (sol_data s)).

Fixpoint dict_get (data : list (string * loc)) (key : string) : option loc :=
  match data with
  | [] => None
  | (k, v) :: rest => if String.eqb k key then Some v else dict_get rest key
  end.

Fixpoint dict_set (data : list (string * loc)) (key : string) (v : loc)
  : list (string * loc) :=
  match data with
  | [] => [(key, v)]
  | (k, v0) :: rest =>
      if String.eqb k key then (k, v) :: rest else (k, v0) :: dict_set rest key v
  end.

(** [sol[key]] *)
Definition getitem (sol : loc) (key : string) : M loc :=
  s <- read_sol sol ;;
  match dict_get (sol_data s) key with
  | Some v => ret v
  | None => raise KeyError
  end.

(** [sol[key] = v] *)
Definition setitem (sol : loc) (key : string) (v : loc) : M unit :=
  s <- read_sol sol ;;
  write_sol sol (mkSolution (sol_x s) (sol_y s) (dict_set (sol_data s) key v)).

(** [a < b] on solution objects *)
Definition lt_sol (a b : loc) : M bool :=
  sa <- read_sol a ;;
  sb <- read_sol b ;;
  ret (sol_lt sa sb).

(** [min(iterable)]: the first of the least items. *)
Fixpoint min_from (current : loc) (rest : list loc) : M loc :=
  match rest with
  | [] => ret current
  | item :: rest' =>
      less <- lt_sol item current ;;
      min_from (if less then item else current) rest'
  end.

Definition py_min (items : list loc) : M loc :=
  match items with
  | [] => raise ValueError
  | item :: rest => min_from item rest
  end.

(** [sorted(population)]: the stable ascending order under [<]. *)
Fixpoint insert_sorted (a : loc) (l : list loc) : M (list loc) :=
  match l with
  | [] => ret [a]
  | b :: l' =>
      less <- lt_sol b a ;;
      if less then rest <- insert_sorted a l' ;; ret (b :: rest)
      else ret (a :: b :: l')
  end.

Fixpoint sorted (l : list loc) : M (list loc) :=
  match l with
  | [] => ret []
  | a :: l' => rest <- sorted l' ;; insert_sorted a rest
  end.

(** [copy.deepcopy] of a payload object. *)
Definition deepcopy_val (v : loc) : M loc :=
  p <- read_val v ;;
  new_val p.

Fixpoint memo_get (memo : list (loc * loc)) (v : loc) : option loc :=
  match memo with
  | [] => None
  | (v0, c) :: rest => if Nat.eqb v0 v then Some c else memo_get rest v
  end.

(** The deep copy of a payload dict: a value reached twice is copied once. *)
Fixpoint deepcopy_data (data : list (string * loc)) (memo : list (loc * loc))
  : M (list (string * loc)) :=
  match data with
  | [] => ret []
  | (k, v) :: rest =>
      match memo_get memo v with
      | Some c => rest' <- deepcopy_data rest memo ;; ret ((k, c) :: rest')
      | None =>
          c <- deepcopy_val v ;;
          rest' <- deepcopy_data rest ((v, c) :: memo) ;;
          ret ((k, c) :: rest')
      end
  end.

(** [copy.deepcopy(sol)] *)
Definition deepcopy_sol (sol : loc) : M loc :=
  s <- read_sol sol ;;
  data <- deepcopy_data (sol_data s) [] ;;
  new_sol (mkSolution (sol_x s) (sol_y s) data).

(** [population[i]] *)
Definition getindex (population : list loc) (i : nat) : M loc :=
  match population !! i with
  | Some l => ret l
  | None => raise IndexError
  end.

(** ** Helpers that are not numeric kernels *)

(** Modelled from the spec: is_values_inside_bounds (pypoptim/helpers.py is not
    under src/): every gene lies within its (lower, upper) pair. *)
Definition is_values_inside_bounds (values : list Q) (bounds : ndarray2) : bool :=
  forallb (fun vb => Qleb (fst (snd vb)) (fst vb) && Qleb (fst vb) (snd (snd vb)))
          (combine values bounds).

(** Modelled from the spec: tournament_selection (pypoptim/algorythm/ga/selection.py
    is not under src/): draws the candidates of one tournament by position and
    returns the minimum of them by the solution order. *)
Definition tournament_selection (population : list loc) (force : Z) : M loc :=
  positions <- draw (tournament_draw (length population) force) ;;
  candidates <- mapM (getindex population) positions ;;
  py_min candidates.

(** Modelled from the spec: cauchy_mutation_population
    (pypoptim/algorythm/ga/mutation.py is not under src/): every individual is
    mutated gene-wise by the kernel; the result is a new population of the
    same individuals' fitness field and payload. *)
Definition cauchy_mutation_population (population : list loc) (bounds : ndarray2)
    (gamma mutation_rate : Q) : M (list loc) :=
  mapM (fun sol =>
          s <- read_sol sol ;;
          genes <- draw (cauchy_mutation (sol_x s) bounds gamma mutation_rate) ;;
          new_sol (mkSolution genes (sol_y s) (sol_data s)))
       population.

(** ** class GA *)

Record GA := mkGA {
  _bounds : loc;                 (* the (n_genes, 2) array of raw bounds *)
  _n_genes : nat;
  _mask_log10_scale : list bool;
  _gamma_default : Q;
  _gammas : list Q;
  _bounds_transformed : loc;     (* the cached array of transformed bounds *)
  _mutation_rate : Q;
  _crossover_rate : Q;
  _selection_force : Z;
  _keys_data_transmit : list string
}.

(** *** Construction *)

(** What the caller passes as [SolutionSubclass]. *)
Inductive class_arg := SubclassOfSolution | NotSubclassOfSolution.

(** What the caller passes as [keys_data_transmit]. *)
Inductive keys_arg := KeysSeq (keys : list string) | KeysOther.

(** What the caller passes as [rng]. *)
Inductive rng_arg := RngGenerator (g : Generator) | RngOther.

(** The arguments of [GA.__init__]; an optional argument left out (or given
    as [None]) is [None].  Bounds and gammas are handed over as Python lists,
    of which [np.asfarray] makes new arrays, and the numbers are floats that
    are no NaN, but for the entries of [gammas], where [None] is a NaN. *)
Record init_args := mkArgs {
  arg_SolutionSubclass : class_arg;
  arg_bounds : list (list Q);
  arg_gammas : option (list (option Q));
  arg_gamma_default : option Q;
  arg_mask_log10_scale : option (list bool);
  arg_mutation_rate : Q;
  arg_crossover_rate : Q;
  arg_selection_force : pyval;
  arg_keys_data_transmit : option keys_arg;
  arg_rng : option rng_arg
}.

(** [np.asfarray(bounds)] followed by the shape test: the rows of an array of
    shape (n, 2) with n > 0, or nothing. *)
Fixpoint as_rows (bounds : list (list Q)) : option ndarray2 :=
  match bounds with
  | [] => Some []
  | [lo; hi] :: rest =>
      match as_rows rest with
      | Some rows => Some ((lo, hi) :: rows)
      | None => None
      end
  | _ :: _ => None
  end.

Definition asfarray_2d (bounds : list (list Q)) : option ndarray2 :=
  match bounds with
  | [] => None
  | _ => as_rows bounds
  end.

(** [self._bounds[mask.astype(bool), 0]] *)
Fixpoint masked_lower (bounds : ndarray2) (mask : list bool) : list Q :=
  match bounds, mask with
  | (lo, _) :: bounds', m :: mask' =>
      if m then lo :: masked_lower bounds' mask' else masked_lower bounds' mask'
  | _, _ => []
  end.

Definition nan_to (default : Q) (g : option Q) : Q :=
  match g with Some q => q | None => default end.

(** [g <= 0] on a float that may be NaN *)
Definition nonpositive (g : option Q) : bool :=
  match g with Some q => Qleb q 0 | None => false end.

Definition __init__ (a : init_args) : M GA :=
  match arg_SolutionSubclass a with
  | NotSubclassOfSolution => raise TypeError
  | SubclassOfSolution =>
  match asfarray_2d (arg_bounds a) with
  | None => raise ValueError
  | Some bounds =>
  if existsb (fun b => Qleb (snd b) (fst b)) bounds then raise ValueError else
  self_bounds <- new_array bounds ;;
  let n_genes := length bounds in
  mask <- match arg_mask_log10_scale a with
          | None => ret (repeat false n_genes)
          | Some mask =>
              if negb (length mask =? n_genes)%nat then raise ValueError
              else if existsb (fun lo => Qleb lo 0) (masked_lower bounds mask)
                   then raise ValueError
              else ret mask
          end ;;
  gamma_default <- match arg_gamma_default a with
                   | None => ret 1%Q
                   | Some g => if Qleb g 0 then raise ValueError else ret g
                   end ;;
  gammas <- match arg_gammas a with
            | None => ret (repeat gamma_default n_genes)
            | Some gammas =>
                if negb (length gammas =? n_genes)%nat then raise ValueError
                else if existsb nonpositive gammas then raise ValueError
                else ret (map (nan_to gamma_default) gammas)
            end ;;
  self_bounds_transformed <-
    new_array (snd (transform_genes_bounds (map fst bounds) bounds gammas mask)) ;;
  if negb (Qleb 0 (arg_mutation_rate a) && Qleb (arg_mutation_rate a) 1)
  then raise ValueError else
  if negb (Qleb 0 (arg_crossover_rate a) && Qleb (arg_crossover_rate a) 1)
  then raise ValueError else
  match arg_selection_force a with
  | PyInt selection_force =>
  if selection_force <? 2 then raise ValueError else
  keys <- match arg_keys_data_transmit a with
          | Some (KeysSeq keys) => ret keys
          | Some KeysOther => raise TypeError
          | None => ret []
          end ;;
  match arg_rng a with
  | Some RngOther => raise TypeError
  | Some (RngGenerator g) => seed g
  | None => ret tt        (* default_rng(): the world's generator as it is *)
  end ;;;
  ret (mkGA self_bounds n_genes mask gamma_default gammas self_bounds_transformed
            (arg_mutation_rate a) (arg_crossover_rate a) selection_force keys)
  | _ => raise TypeError
  end
  end
  end.

(** The property [bounds] *)
Definition bounds (self : GA) : M loc :=
  a <- read_array (_bounds self) ;;
  new_array a.

(** *** Gene transforms *)

Definition _transform_genes (self : GA) (genes : list Q) : M (list Q) :=
  raw <- read_array (_bounds self) ;;
  cached <- read_array (_bounds_transformed self) ;;
  let r := transform_genes_bounds genes raw (_gammas self) (_mask_log10_scale self) in
  if allclose (snd r) cached then ret (fst r) else raise AssertionError.

Definition _transform_genes_back (self : GA) (genes_transformed : list Q)
  : M (list Q) :=
  cached <- read_array (_bounds_transformed self) ;;
  raw <- read_array (_bounds self) ;;
  ret (transform_genes_bounds_back genes_transformed cached raw
         (_mask_log10_scale self)).

Definition _transform_solution (self : GA) (sol : loc) : M loc :=
  s <- read_sol sol ;;
  genes <- _transform_genes self (sol_x s) ;;
  sol_transformed <- construct genes (sol_data s) ;;
  set_y sol_transformed (sol_y s) ;;;
  ret sol_transformed.

Definition _transform_solution_back (self : GA) (sol_transformed : loc) : M loc :=
  s <- read_sol sol_transformed ;;
  genes <- _transform_genes_back self (sol_x s) ;;
  sol <- construct genes (sol_data s) ;;
  set_y sol (sol_y s) ;;;
  ret sol.

Definition generate_solution (self : GA) : M loc :=
  cached <- read_array (_bounds_transformed self) ;;
  genes_transformed <-
    mapM (fun i => match cached !! i with
                   | Some b => draw (random_value_from_bounds b)
                   | None => raise IndexError
                   end)
         (seq 0 (_n_genes self)) ;;
  genes <- _transform_genes_back self genes_transformed ;;
  construct genes [].

Definition generate_population (self : GA) (n_solutions : nat) : M (list loc) :=
  mapM (fun _ => generate_solution self) (seq 0 n_solutions).

(** Iterating a Python value: a list, a tuple or an object whose class
    defines [__iter__]; anything else, a plain [int] included, raises
    [TypeError]. *)
Definition py_iter (v : population_arg) : M (list pyval) :=
  match v with
  | Value (PyList items) | Value (PyTuple items) | IterableInt _ items => ret items
  | _ => raise TypeError
  end.

(** Reading a solution attribute ([sol.x]) of a Python value: any object that
    has the attribute will do. *)
Definition as_solution (v : pyval) : M loc :=
  match v with
  | PySol l | PyObj l => ret l
  | _ => raise AttributeError
  end.

Definition _transform_population (self : GA) (population : population_arg)
  : M (list loc) :=
  items <- py_iter population ;;
  mapM (fun item => sol <- as_solution item ;; _transform_solution self sol) items.

Definition _transform_population_back (self : GA) (population : list loc)
  : M (list loc) :=
  mapM (_transform_solution_back self) population.

Definition _mutate_population_transformed (self : GA) (population : list loc)
  : M (list loc) :=
  cached <- read_array (_bounds_transformed self) ;;
  cauchy_mutation_population population cached (_gamma_default self)
    (_mutation_rate self).

(** [isinstance(population, (list, int))] *)
Definition isinstance_list_int (v : population_arg) : bool :=
  match v with
  | Value (PyList _) | Value (PyInt _) | IterableInt _ _ => true
  | _ => false
  end.

Definition mutate_population (self : GA) (population : population_arg)
  : M (list loc) :=
  if negb (isinstance_list_int population) then raise TypeError else
  population_new <- _transform_population self population ;;
  population_new <- _mutate_population_transformed self population_new ;;
  _transform_population_back self population_new.

Definition mutate_solution (self : GA) (sol : pyval) : M loc :=
  match sol with
  | PySol _ =>
      population_mutated <- mutate_population self (PyList [sol]) ;;
      match population_mutated with
      | [sol_mutated] => ret sol_mutated
      | _ => raise AssertionError
      end
  | _ => raise TypeError
  end.

Definition _transmit_solution_data (self : GA) (sol_parent sol_child : loc)
  : M unit :=
  forM (fun key =>
          v <- getitem sol_parent key ;;
          c <- deepcopy_val v ;;
          setitem sol_child key c)
       (_keys_data_transmit self).

Definition _selection (self : GA) (population : list loc) : M loc :=
  tournament_selection population (_selection_force self).

Definition _crossover (self : GA) (genes1 genes2 : list Q)
  : M (list Q * list Q) :=
  cached <- read_array (_bounds_transformed self) ;;
  draw (sbx_crossover genes1 genes2 cached (_crossover_rate self)).

(** *** Offspring *)

(** The retry loop of [get_mutants]:
    [while parent1 is parent2: parent1 = ...; parent2 = ...].
    [retries] bounds the number of iterations; running out of it is
    [Timeout]. *)
Fixpoint select_parents (retries : nat) (self : GA) (population : list loc)
    (parent1 parent2 : loc) : M (loc * loc) :=
  if Nat.eqb parent1 parent2 then
    match retries with
    | O => timeout
    | S retries' =>
        parent1 <- _selection self population ;;
        parent2 <- _selection self population ;;
        select_parents retries' self population parent1 parent2
    end
  else ret (parent1, parent2).

(** The crossover branch: both offspring of the transformed parents, each with
    the payload of the lesser parent. *)
Definition crossover_children (self : GA)
    (parent1_transformed parent2_transformed : loc) : M (list loc) :=
  s1 <- read_sol parent1_transformed ;;
  s2 <- read_sol parent2_transformed ;;
  offspring_genes <- _crossover self (sol_x s1) (sol_x s2) ;;
  parent_data_transmitter <- py_min [parent1_transformed; parent2_transformed] ;;
  mapM (fun genes =>
          child <- construct genes [] ;;
          _transmit_solution_data self parent_data_transmitter child ;;;
          ret child)
       [fst offspring_genes; snd offspring_genes].

(** The branch without crossover. *)
Definition clone_children (parent1_transformed parent2_transformed : loc)
  : M (list loc) :=
  child1 <- deepcopy_sol parent1_transformed ;;
  child2 <- deepcopy_sol parent2_transformed ;;
  ret [child1; child2].

(** One pass of the body of [while len(population_new) < size]: the children
    it appends. *)
Definition get_mutants_round (retries : nat) (self : GA) (population : list loc)
  : M (list loc) :=
  first <- getindex population 0 ;;
  parents <- select_parents retries self population first first ;;
  parent1_transformed <- _transform_solution self (fst parents) ;;
  parent2_transformed <- _transform_solution self (snd parents) ;;
  u <- draw rng_random ;;
  if Qleb u (_crossover_rate self)
  then crossover_children self parent1_transformed parent2_transformed
  else clone_children parent1_transformed parent2_transformed.

(** [while len(population_new) < size], unrolled at most [rounds] times. *)
Fixpoint get_mutants_loop (rounds retries : nat) (self : GA)
    (population : list loc) (size : nat) (population_new : list loc)
  : M (list loc) :=
  if (length population_new <? size)%nat then
    match rounds with
    | O => timeout
    | S rounds' =>
        children <- get_mutants_round retries self population ;;
        get_mutants_loop rounds' retries self population size
          (population_new ++ children)
    end
  else ret population_new.

(** [get_mutants]. Every round appends children, so [size] rounds are never
    used up; [retries] is the budget of each parent-selection loop. *)
Definition get_mutants (retries : nat) (self : GA) (population : list loc)
    (size : pyval) : M (list loc) :=
  if (length population <? 3)%nat then raise ValueError else
  match size with
  | PyInt size =>
      if size <? 0 then raise ValueError else
      population_new <-
        get_mutants_loop (Z.to_nat size) retries self population (Z.to_nat size) [] ;;
      let population_new := firstn (Z.to_nat size) population_new in
      population_new <- _mutate_population_transformed self population_new ;;
      _transform_population_back self population_new
  | _ => raise TypeError
  end.

(** *** Elites, evaluation and filtering *)

Definition get_elites (population : list loc) (size : pyval) : M (list loc) :=
  match size with
  | PyInt size =>
      if negb ((0 <=? size) && (size <=? Z.of_nat (length population)))
      then raise ValueError
      else
        ordered <- sorted population ;;
        ret (firstn (Z.to_nat size) ordered)
  | _ => raise TypeError
  end.

(** [sol.update()]: the caller's hook runs on the object in place. *)
Definition sol_update (sol : loc) : M unit :=
  s <- read_sol sol ;;
  write_sol sol (update s) ;;;
  emit (Updated sol).

Definition update_population (population : list loc) : M unit :=
  forM sol_update population.

Definition is_solution_inside_bounds (self : GA) (sol : loc)
    (bounds : option ndarray2) : M bool :=
  bounds <- match bounds with
            | None => read_array (_bounds self)
            | Some b => ret b
            end ;;
  s <- read_sol sol ;;
  ret (is_values_inside_bounds (sol_x s) bounds).

(** The body of the loop of [filter_population] at index [i]. *)
Definition filter_step (self : GA) (i : nat) (sol : loc)
    (population_filtered : list loc) : M (list loc) :=
  s <- read_sol sol ;;
  if negb (is_updated s) then
    emit (DebugAt i "not updated") ;;; ret population_filtered
  else if negb (is_valid s) then
    emit (DebugAt i "not valid") ;;; ret population_filtered
  else
    inside <- is_solution_inside_bounds self sol None ;;
    if negb inside then
      emit (DebugAt i "outside bounds") ;;; ret population_filtered
    else
      emit (DebugAt i "kept") ;;; ret (population_filtered ++ [sol]).

Fixpoint filter_loop (self : GA) (i : nat) (population : list loc)
    (population_filtered : list loc) : M (list loc) :=
  match population with
  | [] => ret population_filtered
  | sol :: rest =>
      population_filtered <- filter_step self i sol population_filtered ;;
      filter_loop self (S i) rest population_filtered
  end.

Definition filter_population (self : GA) (population : list loc) : M (list loc) :=
  emit (Debug "filter_population: START") ;;;
  population_filtered <- filter_loop self 0 population [] ;;
  emit (Debug "filter_population: END") ;;;
  ret population_filtered.

(** *** The generational loop *)

(** The body of [for i in range(n_epochs)]. *)
Definition epoch (retries : nat) (self : GA) (n_solutions n_elites : Z)
    (population : list loc) : M (list loc) :=
  update_population population ;;;
  population <- filter_population self population ;;
  elites <- get_elites population (PyInt n_elites) ;;
  mutants <- get_mutants retries self population (PyInt (n_solutions - n_elites)) ;;
  ret (elites ++ mutants).

Fixpoint run_epochs (n : nat) (retries : nat) (self : GA) (n_solutions n_elites : Z)
    (population : list loc) : M (list loc) :=
  match n with
  | O => ret population
  | S n' =>
      population <- epoch retries self n_solutions n_elites population ;;
      run_epochs n' retries self n_solutions n_elites population
  end.

Definition run (retries : nat) (self : GA) (n_solutions n_epochs n_elites : pyval)
  : M (list loc) :=
  match n_solutions with
  | PyInt n_solutions =>
  if n_solutions <? 0 then raise ValueError else
  match n_epochs with
  | PyInt n_epochs =>
  if n_epochs <? 0 then raise ValueError else
  match n_elites with
  | PyInt n_elites =>
  if negb ((0 <=? n_elites) && (n_elites <=? n_solutions)) then raise ValueError else
  population <- generate_population self (Z.to_nat n_solutions) ;;
  run_epochs (Z.to_nat n_epochs) retries self n_solutions n_elites population
  | _ => raise TypeError
  end
  | _ => raise TypeError
  end
  | _ => raise TypeError
  end.

(** *** The public operations of an engine, as calls *)

Inductive call :=
| CallBounds
| CallGenerateSolution
| CallGeneratePopulation (n_solutions : nat)
| CallMutatePopulation (population : population_arg)
| CallMutateSolution (sol : pyval)
| CallGetMutants (population : list loc) (size : pyval)
| CallGetElites (population : list loc) (size : pyval)
| CallUpdatePopulation (population : list loc)
| CallIsSolutionInsideBounds (sol : loc) (bounds : option ndarray2)
| CallFilterPopulation (population : list loc)
| CallRun (n_solutions n_epochs n_elites : pyval).

Definition discard {A} (m : M A) : M unit := m ;;; ret tt.

Definition perform (retries : nat) (self : GA) (c : call) : M unit :=
  match c with
  | CallBounds => discard (bounds self)
  | CallGenerateSolution => discard (generate_solution self)
  | CallGeneratePopulation n => discard (generate_population self n)
  | CallMutatePopulation population => discard (mutate_population self population)
  | CallMutateSolution sol => discard (mutate_solution self sol)
  | CallGetMutants population size =>
      discard (get_mutants retries self population size)
  | CallGetElites population size => discard (get_elites population size)
  | CallUpdatePopulation population => update_population population
  | CallIsSolutionInsideBounds sol bounds =>
      discard (is_solution_inside_bounds self sol bounds)
  | CallFilterPopulation population => discard (filter_population self population)
  | CallRun n_solutions n_epochs n_elites =>
      discard (run retries self n_solutions n_epochs n_elites)
  end.

End Engine.

Arguments Ok {NK A} a w.
Arguments Raise {NK A} e w.
Arguments Timeout {NK A}.

Notation "x <- m ;; k" := (bind m (fun x => k))
  (at level 100, m at next level, right associativity).
Notation "m ;;; k" := (bind m (fun _ => k))
  (at level 100, right associativity).

(** * Vocabulary of the properties *)

Section Vocabulary.

Context {SC : SolutionSubclass} {NK : Numerics}.

(** ** Worlds *)

(** The solution object [l] exists. *)
Definition live (w : world) (l : loc) : Prop := is_Some (sols w !! l).

(** [w] with more events in its log, and with one more solution object. *)
Definition with_log (w : world) (evs : list event) : world :=
  mkWorld (sols w) (vals w) (arrays w) (rng w) (log w ++ evs).

Definition add_sol (w : world) (s : Solution) : world :=
  mkWorld (sols w ++ [s]) (vals w) (arrays w) (rng w) (log w).

(** [preserves R T m]: whenever [m] stops, by returning or by raising, the
    world it leaves is related by [R] to the world it started from; and [T]
    holds whenever [m] runs out of retries. *)
Definition preserves (R : world -> world -> Prop) (T : Prop) {A} (m : M A) : Prop :=
  forall w,
    match m w with
    | Ok _ w' => R w w'
    | Raise _ w' => R w w'
    | Timeout => T
    end.

(** [m] never runs out of retries. *)
Definition halts {A} (m : M A) : Prop := preserves (fun _ _ => True) False m.

(** Every array object of [w] is in [w'] with the rows it had. *)
Definition arrays_kept (w w' : world) : Prop :=
  forall l a, arrays w !! l = Some a -> arrays w' !! l = Some a.

(** Nothing is logged and no solution object disappears. *)
Definition quiet (w w' : world) : Prop :=
  log w' = log w /\ (length (sols w) <= length (sols w'))%nat.

(** ** Construction *)

(** A configuration error: what [raise TypeError] and [raise ValueError]
    of [__init__] produce. *)
Definition configuration_error (e : exn) : Prop :=
  e = TypeError \/ e = ValueError.

Definition rejected (a : init_args) (w : world) : Prop :=
  exists e w', __init__ a w = Raise e w' /\ configuration_error e.

(** ** Populations and the filter *)

(** A population: a list whose items are all solutions. *)
Definition is_population (v : pyval) : bool :=
  match v with
  | PyList items =>
      forallb (fun item => match item with PySol _ => true | _ => false end) items
  | _ => false
  end.

(** The items of an argument that gets past the check of
    [mutate_population] and can be iterated: a list, or an instance of a
    subclass of [int] that can be iterated. *)
Definition accepted_items (population : population_arg) : option (list pyval) :=
  match population with
  | Value (PyList items) | IterableInt _ items => Some items
  | _ => None
  end.

(** Some gene of [values] lies outside its (lower, upper) pair. *)
Definition gene_outside (values : list Q) (bs : ndarray2) : Prop :=
  exists i v lo hi,
    values !! i = Some v /\ bs !! i = Some (lo, hi) /\ (v < lo \/ hi < v)%Q.

(** The solution passes the three tests of the filter. *)
Definition passes (raw : ndarray2) (s : Solution) : bool :=
  is_updated s && is_valid s && is_values_inside_bounds (sol_x s) raw.

Definition survives (w : world) (raw : ndarray2) (l : loc) : bool :=
  match sols w !! l with
  | Some s => passes raw s
  | None => false
  end.

Definition debug_at (e : event) : Prop :=
  match e with DebugAt _ _ => True | _ => False end.

(** ** The order of solutions *)

(** The comparison operator is a strict weak order: a total order on
    fitness in which solutions of equal fitness tie. *)
Definition strict_weak_order : Prop :=
  (forall a b, sol_lt a b = true -> sol_lt b a = false) /\
  (forall a b c, sol_lt a b = false -> sol_lt b c = false -> sol_lt a c = false).

(** [a < b] as the solution objects of [w] decide it. *)
Definition lt_at (w : world) (a b : loc) : bool :=
  match sols w !! a, sols w !! b with
  | Some sa, Some sb => sol_lt sa sb
  | _, _ => false
  end.

(** [a] is not above [b]. *)
Definition le_at (w : world) (a b : loc) : Prop := lt_at w b a = false.

(** [a] and [b] tie: neither is below the other. *)
Definition tied (w : world) (a b : loc) : bool :=
  negb (lt_at w a b) && negb (lt_at w b a).

(** The stable insertion sort under a comparison that cannot fail. *)
Fixpoint insert_by (lt : loc -> loc -> bool) (a : loc) (l : list loc) : list loc :=
  match l with
  | [] => [a]
  | b :: l' => if lt b a then b :: insert_by lt a l' else a :: b :: l'
  end.

Fixpoint sort_by (lt : loc -> loc -> bool) (l : list loc) : list loc :=
  match l with
  | [] => []
  | a :: l' => insert_by lt a (sort_by lt l')
  end.

(** ** Copies of payload *)

(** [c] is a payload object that did not exist among [before], is another
    object than [v], and holds in [vs] what [v] holds. *)
Definition fresh_copy (before vs : list payload) (v c : loc) : Prop :=
  (length before <= c)%nat /\ c <> v /\
  exists p, vs !! v = Some p /\ vs !! c = Some p.

(** The entry [key] of the child's payload is a fresh copy of the parent's. *)
Definition transmitted (before vs : list payload)
    (parent child : Solution) (key : string) : Prop :=
  exists v c,
    dict_get (sol_data parent) key = Some v /\
    dict_get (sol_data child) key = Some c /\
    fresh_copy before vs v c.

(** The entries of a payload dict and of its deep copy, pairwise. *)
Definition copied_entry (before vs : list payload)
    (e e' : string * loc) : Prop :=
  fst e' = fst e /\ fresh_copy before vs (snd e) (snd e').

(** Every value the memo of a deep copy knows is mapped to a fresh copy. *)
Definition memo_ok (before vs : list payload) (memo : list (loc * loc)) : Prop :=
  forall v c, memo_get memo v = Some c -> fresh_copy before vs v c.

(** [child] is a deep copy made of [parent] between [w] and [w']: another
    solution object with the same genes and fitness, whose payload entries
    are fresh copies of the parent's, while the parent is as it was. *)
Definition deep_copy_of (w w' : world) (parent child : loc) : Prop :=
  (length (sols w) <= child)%nat /\
  exists sp sc,
    sols w !! parent = Some sp /\
    sols w' !! parent = Some sp /\
    sols w' !! child = Some sc /\
    sol_x sc = sol_x sp /\
    sol_y sc = sol_y sp /\
    Forall2 (copied_entry (vals w) (vals w')) (sol_data sp) (sol_data sc).

(** ** Events of a run *)

Definition is_update (e : event) : bool :=
  match e with Updated _ => true | _ => false end.

Definition is_filter_start (e : event) : bool :=
  match e with
  | Debug msg => String.eqb msg "filter_population: START"
  | _ => false
  end.

(** The number of calls of the [update] hook among the events. *)
Definition count_updates (evs : list event) : nat :=
  length (List.filter is_update evs).

(** The number of times a filtering pass was started. *)
Definition count_filters (evs : list event) : nat :=
  length (List.filter is_filter_start evs).

(** ** What an operation leaves untouched *)

(** Between [w] and [w'] solution and payload objects were only added: every
    object of [w] is in [w'] as it was, and neither the arrays nor the log
    changed. *)
Definition only_allocates (w w' : world) : Prop :=
  (exists ss, sols w' = sols w ++ ss) /\
  (exists vs, vals w' = vals w ++ vs) /\
  arrays w' = arrays w /\
  log w' = log w.

(** The engine's two arrays exist and the cached one has a row per gene. *)
Definition engine_ok (self : GA) (w : world) : Prop :=
  exists raw cached,
    arrays w !! _bounds self = Some raw /\
    arrays w !! _bounds_transformed self = Some cached /\
    (_n_genes self <= length cached)%nat.

(** A freshly generated solution: fitness unset, no payload. *)
Definition blank (s : Solution) : Prop := sol_y s = None /\ sol_data s = [].

(** The members of [population] are pairwise different instances, all made
    after the first [n0] solution objects. *)
Definition own (n0 : nat) (w : world) (population : list loc) : Prop :=
  NoDup population /\
  Forall (fun l => (n0 <= l < length (sols w))%nat) population.

(** The first [n0] solution objects, the payload objects and the arrays of
    [w] are in [w'] as they were. *)
Definition kept_below (n0 : nat) (w w' : world) : Prop :=
  (forall l s, (l < n0)%nat -> sols w !! l = Some s -> sols w' !! l = Some s) /\
  (exists vs, vals w' = vals w ++ vs) /\
  arrays w' = arrays w.

(** Nothing changed but the log, which was only appended to. *)
Definition only_logs (w w' : world) : Prop :=
  sols w' = sols w /\ vals w' = vals w /\ arrays w' = arrays w /\
  rng w' = rng w /\ exists evs, log w' = log w ++ evs.

(** ** Rounds of the production loop *)

(** One round of the loop of [get_mutants], from [w] to [w']: the retry loop
    hands over the pair [(p1, p2)]; [p1] is transformed into [t1] and [p2]
    into [t2]; and [children] are bred from [t1] and [t2], by crossover or
    as copies. *)
Definition round_of (retries : nat) (self : GA) (population : list loc)
    (w : world) (p1 p2 t1 t2 : loc) (children : list loc) (w' : world) : Prop :=
  exists first w1 w2 w3 u w4,
    population !! 0%nat = Some first /\
    select_parents retries self population first first w = Ok (p1, p2) w1 /\
    _transform_solution self p1 w1 = Ok t1 w2 /\
    _transform_solution self p2 w2 = Ok t2 w3 /\
    draw rng_random w3 = Ok u w4 /\
    (if Qleb u (_crossover_rate self)
     then crossover_children self t1 t2 w4
     else clone_children t1 t2 w4) = Ok children w'.

(** Rounds in a row, from [w]: the pairs of parents they were handed, in
    order, all the children they bred, and the world they end in. *)
Inductive rounds (retries : nat) (self : GA) (population : list loc) (w : world)
  : list (loc * loc) -> list loc -> world -> Prop :=
| rounds_none : rounds retries self population w [] [] w
| rounds_more pairs bred w1 p1 p2 t1 t2 children w2 :
    rounds retries self population w pairs bred w1 ->
    round_of retries self population w1 p1 p2 t1 t2 children w2 ->
    rounds retries self population w (pairs ++ [(p1, p2)]) (bred ++ children) w2.

(** Two different members of the population. *)
Definition distinct_members (population : list loc) (pair : loc * loc) : Prop :=
  fst pair <> snd pair /\ In (fst pair) population /\ In (snd pair) population.

(** ** A population that can be bred from *)

(** The payload of a solution is in order: every entry refers to an
    existing payload object and every key that is transmitted is there. *)
Definition payload_in_order (self : GA) (w : world) (s : Solution) : Prop :=
  Forall (fun entry => is_Some (vals w !! snd entry)) (sol_data s) /\
  Forall (fun key => is_Some (dict_get (sol_data s) key))
         (_keys_data_transmit self).

(** Nothing stands in the way of breeding from [population] in [w]: the
    engine's two arrays exist and the transform reproduces the cached
    bounds; the members of the population exist, with their payload in
    order; and a tournament draws at least one position, all of them inside
    the population. *)
Definition well_formed (self : GA) (population : list loc) (w : world) : Prop :=
  (exists raw cached,
     arrays w !! _bounds self = Some raw /\
     arrays w !! _bounds_transformed self = Some cached /\
     forall genes,
       allclose (snd (transform_genes_bounds genes raw (_gammas self)
                        (_mask_log10_scale self))) cached = true) /\
  Forall (fun l => exists s, sols w !! l = Some s /\ payload_in_order self w s)
         population /\
  (forall g,
     fst (tournament_draw (length population) (_selection_force self) g) <> [] /\
     Forall (fun i => (i < length population)%nat)
            (fst (tournament_draw (length population) (_selection_force self) g))).

(** Whatever [m] returns or raises, [m'] returns or raises too: [m'] differs
    from [m] at most where [m] runs out of retries. *)
Definition carries_over {A} (m m' : M A) : Prop :=
  forall w,
    match m w with
    | Ok a w' => m' w = Ok a w'
    | Raise e w' => m' w = Raise e w'
    | Timeout => True
    end.

(** ** Generations of a run *)

(** [w1] is [w0] after the evaluation of [previous]: every member stands
    replaced, in place, by the result of its [update] hook; one call of the
    hook per member is on record, in the order of the population; nothing
    else differs. *)
Definition evaluated (previous : list loc) (w0 w1 : world) : Prop :=
  Forall (live w0) previous /\
  length (sols w1) = length (sols w0) /\
  (forall l s, In l previous -> sols w0 !! l = Some s ->
               sols w1 !! l = Some (update s)) /\
  (forall l, ~ In l previous -> sols w1 !! l = sols w0 !! l) /\
  vals w1 = vals w0 /\ arrays w1 = arrays w0 /\ rng w1 = rng w0 /\
  log w1 = log w0 ++ map Updated previous.

(** One generation, from the population [previous] in [w0] to [population]
    in [w']: the members of [previous], pairwise different instances, are
    evaluated; those that pass the three tests of the filter survive, in
    their order; the [n_elites] least of the survivors are the elites; the
    [mutants], [n_solutions - n_elites] new objects, are bred from the
    survivors; [population] is the elites followed by the mutants.  After
    the evaluation nothing is recorded but the one pass of the filter. *)
Definition generation (retries : nat) (self : GA) (n_solutions n_elites : Z)
    (previous : list loc) (w0 : world) (population : list loc) (w' : world)
    (mutants : list loc) : Prop :=
  exists w1 raw evs survivors elites,
    NoDup previous /\
    evaluated previous w0 w1 /\
    arrays w1 !! _bounds self = Some raw /\
    survivors = List.filter (survives w1 raw) previous /\
    elites = firstn (Z.to_nat n_elites) (sort_by (lt_at w1) survivors) /\
    length elites = Z.to_nat n_elites /\
    get_mutants retries self survivors (PyInt (n_solutions - n_elites))
      (with_log w1 evs) = Ok mutants w' /\
    length mutants = Z.to_nat (n_solutions - n_elites) /\
    Forall (fun m => live w' m /\ ~ live w1 m) mutants /\
    population = elites ++ mutants /\
    log w' = log w1 ++ evs /\
    count_updates evs = 0%nat /\ count_filters evs = 1%nat.

(** [n] generations in a row: each starts from the population and the world
    the one before it has left. *)
Fixpoint generations (retries : nat) (self : GA) (n_solutions n_elites : Z)
    (n : nat) (initial : list loc) (w0 : world) (population : list loc)
    (w' : world) : Prop :=
  match n with
  | O => population = initial /\ w' = w0
  | S n' =>
      exists previous w1 mutants,
        generations retries self n_solutions n_elites n' initial w0 previous w1 /\
        generation retries self n_solutions n_elites previous w1 population w'
          mutants
  end.

(** *** An accepted configuration with one argument replaced *)

Definition with_class (a : init_args) (c : class_arg) : init_args :=
  mkArgs c (arg_bounds a) (arg_gammas a) (arg_gamma_default a)
         (arg_mask_log10_scale a) (arg_mutation_rate a) (arg_crossover_rate a)
         (arg_selection_force a) (arg_keys_data_transmit a) (arg_rng a).

Definition with_mutation_rate (a : init_args) (q : Q) : init_args :=
  mkArgs (arg_SolutionSubclass a) (arg_bounds a) (arg_gammas a)
         (arg_gamma_default a) (arg_mask_log10_scale a) q (arg_crossover_rate a)
         (arg_selection_force a) (arg_keys_data_transmit a) (arg_rng a).

Definition with_selection_force (a : init_args) (v : pyval) : init_args :=
  mkArgs (arg_SolutionSubclass a) (arg_bounds a) (arg_gammas a)
         (arg_gamma_default a) (arg_mask_log10_scale a) (arg_mutation_rate a)
         (arg_crossover_rate a) v (arg_keys_data_transmit a) (arg_rng a).

Definition with_keys (a : init_args) (k : option keys_arg) : init_args :=
  mkArgs (arg_SolutionSubclass a) (arg_bounds a) (arg_gammas a)
         (arg_gamma_default a) (arg_mask_log10_scale a) (arg_mutation_rate a)
         (arg_crossover_rate a) (arg_selection_force a) k (arg_rng a).

Definition with_rng (a : init_args) (r : option rng_arg) : init_args :=
  mkArgs (arg_SolutionSubclass a) (arg_bounds a) (arg_gammas a)
         (arg_gamma_default a) (arg_mask_log10_scale a) (arg_mutation_rate a)
         (arg_crossover_rate a) (arg_selection_force a)
         (arg_keys_data_transmit a) r.

End Vocabulary.

(** * A concrete solution class, a concrete random source and worlds

    Used to run the engine on examples. *)

(** Fitness is the sum of the genes; a solution is valid when its fitness is
    not negative; an unset fitness ranks last. *)
Definition sum_genes (s : Solution) : Q := fold_right Qplus 0%Q (sol_x s).

Definition fitness_lt (a b : Solution) : bool :=
  match sol_y a, sol_y b with
  | Some p, Some q => Qltb p q
  | Some _, None => true
  | None, _ => false
  end.

#[export] Instance SumSolution : SolutionSubclass := {|
  update s := mkSolution (sol_x s) (Some (sum_genes s)) (sol_data s);
  is_updated s := match sol_y s with Some _ => true | None => false end;
  is_valid s := match sol_y s with Some y => Qleb 0 y | None => false end;
  sol_lt := fitness_lt
|}.

(** The generator is a counter: draw number [g] is derived from [g]. The
    transform is the identity, crossover swaps the parents' genes and
    mutation leaves the genes as they are. *)
Definition counter_unit (g : nat) : Q := Z.of_nat (g mod 4) # 4.

#[export] Instance CounterNumerics : Numerics := {|
  Generator := nat;
  rng_random g := (counter_unit g, S g);
  tournament_draw n force g :=
    (map (fun k => ((g + k) mod n)%nat) (seq 0 (Z.to_nat force)),
     (g + Z.to_nat force)%nat);
  random_value_from_bounds b g :=
    ((fst b + (snd b - fst b) * counter_unit g)%Q, S g);
  transform_genes_bounds genes bounds _ _ := (genes, bounds);
  transform_genes_bounds_back genes _ _ _ := genes;
  allclose a b :=
    (length a =? length b)%nat &&
    forallb (fun p => Qeq_bool (fst (fst p)) (fst (snd p)) &&
                      Qeq_bool (snd (fst p)) (snd (snd p)))
            (combine a b);
  sbx_crossover genes1 genes2 _ _ g := ((genes2, genes1), S g);
  cauchy_mutation genes _ _ _ g := (genes, S g)
|}.

(** The empty world and a valid configuration: two genes, the second on a
    log scale. *)
Definition world0 : world := mkWorld [] [] [] 0%nat [].

Definition args0 : init_args :=
  mkArgs SubclassOfSolution [[1; 10]; [1 # 10; 100]]%Q None (Some 1%Q)
         (Some [false; true]) 1%Q 1%Q (PyInt 2) None None.

(** The engine [__init__] builds from [args0] in the empty world, and the
    world it leaves. *)
Definition bounds0 : ndarray2 := [(1, 10); (1 # 10, 100)]%Q.

Definition ga0 : GA :=
  mkGA 0 2 [false; true] 1 [1; 1]%Q 1 1 1 2 [].

Definition w_init : world := mkWorld [] [] [bounds0; bounds0] 0%nat [].

(** Three evaluated solutions of fitness 5, 7 and 9. *)
Definition w_three : world :=
  mkWorld [mkSolution [2; 3]%Q (Some 5%Q) [];
           mkSolution [3; 4]%Q (Some 7%Q) [];
           mkSolution [4; 5]%Q (Some 9%Q) []]
          [] [bounds0; bounds0] 0%nat [].

(** One solution object, referred to three times. *)
Definition w_one : world :=
  mkWorld [mkSolution [2; 3]%Q (Some 5%Q) []] [] [bounds0; bounds0] 0%nat [].

(** The world after [n] more draws of the counter. *)
Definition skip_draws (n : nat) (w : world) : world :=
  mkWorld (sols w) (vals w) (arrays w) (rng w + n)%nat (log w).

(** Four solutions: a good one, one never evaluated, one of negative
    fitness and one with a gene above its bound. *)
Definition w_mixed : world :=
  mkWorld [mkSolution [2; 3]%Q (Some 5%Q) [];
           mkSolution [3; 4]%Q None [];
           mkSolution [2; 3]%Q (Some (- (1))%Q) [];
           mkSolution [20; 3]%Q (Some 23%Q) []]
          [] [bounds0; bounds0] 0%nat [].

(** An engine that transmits the key "state", and two transformed parents
    that share one payload object under that key and hold one each under
    "trace". *)
Definition ga_keys : GA :=
  mkGA 0 2 [false; true] 1 [1; 1]%Q 1 1 1 2 ["state"%string].

Definition w_payload : world :=
  mkWorld [mkSolution [2; 3]%Q (Some 5%Q) [("state"%string, 0%nat); ("trace"%string, 1%nat)];
           mkSolution [3; 4]%Q (Some 7%Q) [("state"%string, 0%nat); ("trace"%string, 2%nat)]]
          [[1]; [2]; [3]]%Q [bounds0; bounds0] 0%nat [].

(** * Properties *)

Section Facts.

Context {SC : SolutionSubclass} {NK : Numerics}.

(** ** Reasoning about sequenced operations *)

Lemma bind_Ok {A B} (m : M A) (k : A -> M B) w b w' :
  bind m k w = Ok b w' ->
  exists a w1, m w = Ok a w1 /\ k a w1 = Ok b w'.
Proof.
  unfold bind. destruct (m w) as [a w1 | e w1 |]; intros H; try discriminate.
  exists a, w1. split; [reflexivity | assumption].
Qed.

Lemma bind_Timeout {A B} (m : M A) (k : A -> M B) w :
  bind m k w = Timeout ->
  m w = Timeout \/ exists a w1, m w = Ok a w1 /\ k a w1 = Timeout.
Proof.
  unfold bind. destruct (m w) as [a w1 | e w1 |]; intros H; try discriminate.
  - right. exists a, w1. split; [reflexivity | assumption].
  - left. reflexivity.
Qed.

Lemma bind_step {A B} (m : M A) (k : A -> M B) w a w1 :
  m w = Ok a w1 -> bind m k w = k a w1.
Proof. unfold bind. intros ->. reflexivity. Qed.

Lemma bind_raise {A B} (m : M A) (k : A -> M B) w e w1 :
  m w = Raise e w1 -> bind m k w = Raise e w1.
Proof. unfold bind. intros ->. reflexivity. Qed.

Ltac inv_bind H :=
  let a := fresh "a" in
  let w1 := fresh "w" in
  let H1 := fresh H in
  apply bind_Ok in H; destruct H as (a & w1 & H1 & H).

Tactic Notation "step_in" hyp(H) "as" ident(a) ident(w1) ident(H1) :=
  apply bind_Ok in H; destruct H as (a & w1 & H1 & H).

Ltac inv_ok H := first [injection H as ??; subst | injection H as ?; subst].

(** ** Construction *)

Ltac init_cases :=
  repeat match goal with
         | |- context [match ?x with _ => _ end] =>
             lazymatch x with
             | context [match _ with _ => _ end] => fail
             | _ => destruct x eqn:?
             end
         end.

Lemma init_crossover_rate a w :
  arg_crossover_rate a = (3 # 2)%Q -> rejected a w.
Proof.
  intros Hrate. unfold rejected, configuration_error, __init__.
  rewrite Hrate.
  replace (Qleb 0 (3 # 2) && Qleb (3 # 2) 1) with false by reflexivity.
  unfold bind, ret, raise, new_array, seed. cbn [negb].
  init_cases; eauto.
Qed.

Lemma init_selection_force a w :
  arg_selection_force a = PyInt 1 -> rejected a w.
Proof.
  intros Hforce. unfold rejected, configuration_error, __init__.
  rewrite Hforce. change (1 <? 2) with true.
  unfold bind, ret, raise, new_array, seed.
  init_cases; eauto.
Qed.

Lemma as_rows_lookup bs rows i lo hi :
  as_rows bs = Some rows -> bs !! i = Some [lo; hi] -> rows !! i = Some (lo, hi).
Proof.
  revert rows i. induction bs as [| b bs IH]; intros rows i Hrows Hi;
    [destruct i; discriminate |].
  cbn [as_rows] in Hrows.
  destruct b as [| lo' [| hi' [| x b]]]; try discriminate.
  destruct (as_rows bs) as [rows' |]; [| discriminate].
  injection Hrows as <-. destruct i as [| i]; cbn in Hi |- *.
  - now injection Hi as -> ->.
  - now apply IH.
Qed.

Lemma masked_lower_In rows mask :
  forall i lo hi,
    rows !! i = Some (lo, hi) -> mask !! i = Some true ->
    In lo (masked_lower rows mask).
Proof.
  revert mask. induction rows as [| [lo' hi'] rows IH]; intros mask i lo hi Hr Hm;
    [destruct i; discriminate |].
  destruct mask as [| m mask]; [destruct i; discriminate |].
  cbn [masked_lower]. destruct i as [| i]; cbn in Hr, Hm.
  - injection Hr as -> ->. injection Hm as ->. now left.
  - destruct m; [right |]; eapply IH; eassumption.
Qed.

(** A gene under the log-scale mask with a lower bound that is not above
    zero: whatever else the configuration holds, construction stops with an
    error, which is a [ValueError] when the class is a Solution subclass. *)
Lemma init_log_mask a w mask i lo hi :
  arg_mask_log10_scale a = Some mask ->
  mask !! i = Some true ->
  arg_bounds a !! i = Some [lo; hi] ->
  (lo <= 0)%Q ->
  rejected a w /\
  (arg_SolutionSubclass a = SubclassOfSolution ->
   exists w', __init__ a w = Raise ValueError w').
Proof.
  intros Hmask Hi Hb Hlo.
  assert (Hv : arg_SolutionSubclass a = SubclassOfSolution ->
               exists w', __init__ a w = Raise ValueError w').
  { intros Hclass. unfold __init__. rewrite Hclass, Hmask.
    destruct (asfarray_2d (arg_bounds a)) as [rows |] eqn:Hrows;
      [| unfold raise; eauto].
    destruct (existsb _ rows); [unfold raise; eauto |].
    unfold bind at 1. unfold new_array at 1. cbv zeta.
    unfold bind at 1.
    destruct (negb _); [unfold raise; eauto |].
    assert (Hhit : existsb (fun lo => Qleb lo 0) (masked_lower rows mask) = true).
    { apply existsb_exists. exists lo. split.
      - apply (masked_lower_In rows mask i lo hi); [| exact Hi].
        unfold asfarray_2d in Hrows.
        destruct (arg_bounds a) as [| b bs] eqn:E; [discriminate |].
        now apply (as_rows_lookup (b :: bs)).
      - unfold Qleb. now apply Qle_bool_iff. }
    rewrite Hhit. unfold raise. eauto. }
  split; [| exact Hv].
  unfold rejected, configuration_error.
  destruct (arg_SolutionSubclass a) eqn:Hclass.
  - destruct (Hv eq_refl) as [w' Hw']. eauto.
  - unfold __init__. rewrite Hclass. eauto.
Qed.

(** C7: constructing a GA with [crossover_rate = 1.5], with
    [selection_force = 1], or with a log-scale mask that marks a gene whose
    lower bound is zero or below (as [mask_log10_scale = [True]] over
    [bounds = [(-1, 5)]]) raises a configuration error, whatever the other
    arguments are: no engine is returned and no value is clamped.  When the
    rest of the configuration is valid the error is a [ValueError]. *)
Theorem init_rejects_bad_configuration :
  (forall a w, arg_crossover_rate a = (3 # 2)%Q -> rejected a w) /\
  (forall a w, arg_selection_force a = PyInt 1 -> rejected a w) /\
  (forall a w mask i lo hi,
     arg_mask_log10_scale a = Some mask ->
     mask !! i = Some true ->
     arg_bounds a !! i = Some [lo; hi] ->
     (lo <= 0)%Q ->
     rejected a w /\
     (arg_SolutionSubclass a = SubclassOfSolution ->
      exists w', __init__ a w = Raise ValueError w')) /\
  (forall w bs rows,
     asfarray_2d bs = Some rows ->
     existsb (fun b => Qleb (snd b) (fst b)) rows = false ->
     (exists w',
        __init__ (mkArgs SubclassOfSolution bs None None None 1 (3 # 2)
                    (PyInt 2) None None) w = Raise ValueError w') /\
     (exists w',
        __init__ (mkArgs SubclassOfSolution bs None None None 1 1
                    (PyInt 1) None None) w = Raise ValueError w')) /\
  (forall w,
     __init__ (mkArgs SubclassOfSolution [[- (1); 5]]%Q None None (Some [true])
                 1 1 (PyInt 2) None None) w
     = Raise ValueError
         (mkWorld (sols w) (vals w) (arrays w ++ [[(- (1), 5)]]%Q) (rng w) (log w))).
Proof.
  split; [exact init_crossover_rate |].
  split; [exact init_selection_force |].
  split; [exact init_log_mask |].
  split.
  - intros w bs rows Hrows Hord. split.
    + unfold __init__. cbn. rewrite Hrows, Hord.
      unfold bind, ret, raise, new_array. cbn. eauto.
    + unfold __init__. cbn. rewrite Hrows, Hord.
      unfold bind, ret, raise, new_array. cbn. eauto.
  - intros w. reflexivity.
Qed.

(** ** Relations every step of an operation respects *)

Section Preservation.

Variable R : world -> world -> Prop.
Variable T : Prop.
Hypothesis T_holds : T.
Hypothesis R_refl : forall w, R w w.
Hypothesis R_trans : forall w1 w2 w3, R w1 w2 -> R w2 w3 -> R w1 w3.
(* the solution store may change while it does not shrink *)
Hypothesis R_sols :
  forall w ss, (length (sols w) <= length ss)%nat ->
               R w (mkWorld ss (vals w) (arrays w) (rng w) (log w)).
Hypothesis R_vals :
  forall w v, R w (mkWorld (sols w) (vals w ++ [v]) (arrays w) (rng w) (log w)).
Hypothesis R_arrays :
  forall w a, R w (mkWorld (sols w) (vals w) (arrays w ++ [a]) (rng w) (log w)).
Hypothesis R_rng :
  forall w g, R w (mkWorld (sols w) (vals w) (arrays w) g (log w)).
Hypothesis R_log :
  forall w e, R w (mkWorld (sols w) (vals w) (arrays w) (rng w) (log w ++ [e])).

Lemma preserves_ret {A} (a : A) : preserves R T (ret a).
Proof. intros w. apply R_refl. Qed.

Lemma preserves_raise {A} e : preserves R T (@raise NK A e).
Proof. intros w. apply R_refl. Qed.

Lemma preserves_timeout {A} : preserves R T (@timeout NK A).
Proof. intros w. exact T_holds. Qed.

Lemma preserves_bind {A B} (m : M A) (k : A -> M B) :
  preserves R T m -> (forall a, preserves R T (k a)) -> preserves R T (bind m k).
Proof.
  intros Hm Hk w. unfold bind. specialize (Hm w).
  destruct (m w) as [a w1 | e w1 |]; auto.
  specialize (Hk a w1). destruct (k a w1); eauto.
Qed.

Lemma preserves_mapM {A B} (f : A -> M B) l :
  (forall a, preserves R T (f a)) -> preserves R T (mapM f l).
Proof.
  intros Hf. induction l as [| a l IH]; cbn [mapM].
  - apply preserves_ret.
  - apply preserves_bind; [apply Hf |]. intros b.
    apply preserves_bind; [apply IH |]. intros bs. apply preserves_ret.
Qed.

Lemma preserves_forM {A} (f : A -> M unit) l :
  (forall a, preserves R T (f a)) -> preserves R T (forM f l).
Proof.
  intros Hf. induction l as [| a l IH]; cbn [forM].
  - apply preserves_ret.
  - apply preserves_bind; [apply Hf |]. intros _. apply IH.
Qed.

Lemma preserves_read_sol l : preserves R T (read_sol l).
Proof. intros w. unfold read_sol. destruct (sols w !! l); apply R_refl. Qed.

Lemma preserves_write_sol l s : preserves R T (write_sol l s).
Proof. intros w. unfold write_sol. apply R_sols. rewrite length_insert. lia. Qed.

Lemma preserves_new_sol s : preserves R T (new_sol s).
Proof. intros w. unfold new_sol. apply R_sols. rewrite length_app. lia. Qed.

Lemma preserves_read_val l : preserves R T (read_val l).
Proof. intros w. unfold read_val. destruct (vals w !! l); apply R_refl. Qed.

Lemma preserves_new_val v : preserves R T (new_val v).
Proof. intros w. apply R_vals. Qed.

Lemma preserves_read_array l : preserves R T (read_array l).
Proof. intros w. unfold read_array. destruct (arrays w !! l); apply R_refl. Qed.

Lemma preserves_new_array a : preserves R T (new_array a).
Proof. intros w. apply R_arrays. Qed.

Lemma preserves_emit e : preserves R T (emit e).
Proof. intros w. apply R_log. Qed.

Lemma preserves_draw {A} (f : Generator -> A * Generator) : preserves R T (draw f).
Proof. intros w. unfold draw. destruct (f (rng w)). apply R_rng. Qed.

Lemma preserves_seed g : preserves R T (seed g).
Proof. intros w. apply R_rng. Qed.

Ltac pres :=
  repeat first
    [ apply preserves_ret | apply preserves_raise | apply preserves_timeout
    | apply preserves_read_sol | apply preserves_write_sol
    | apply preserves_new_sol | apply preserves_read_val
    | apply preserves_new_val | apply preserves_read_array
    | apply preserves_new_array | apply preserves_emit
    | apply preserves_draw | apply preserves_seed
    | apply preserves_bind; [| intros ?]
    | apply preserves_mapM; intros ?
    | apply preserves_forM; intros ?
    | match goal with
      | |- preserves _ _ (match ?x with _ => _ end) => destruct x
      | |- preserves _ _ (let _ := _ in _) => cbv zeta
      | H : _ |- _ => apply H
      end ].

Lemma preserves_construct genes data : preserves R T (construct genes data).
Proof. unfold construct. pres. Qed.

Lemma preserves_set_y sol y : preserves R T (set_y sol y).
Proof. unfold set_y. pres. Qed.

Lemma preserves_getitem sol key : preserves R T (getitem sol key).
Proof. unfold getitem. pres. Qed.

Lemma preserves_setitem sol key v : preserves R T (setitem sol key v).
Proof. unfold setitem. pres. Qed.

Lemma preserves_lt_sol a b : preserves R T (lt_sol a b).
Proof. unfold lt_sol. pres. Qed.

Lemma preserves_min_from rest : forall current, preserves R T (min_from current rest).
Proof.
  induction rest as [| item rest IH]; intros current; cbn [min_from].
  - pres.
  - apply preserves_bind; [apply preserves_lt_sol |]. intros less. apply IH.
Qed.

Lemma preserves_py_min items : preserves R T (py_min items).
Proof. destruct items; cbn [py_min]; [pres | apply preserves_min_from]. Qed.

Lemma preserves_insert_sorted a l : preserves R T (insert_sorted a l).
Proof.
  induction l as [| b l IH]; cbn [insert_sorted].
  - pres.
  - apply preserves_bind; [apply preserves_lt_sol |]. intros [|]; pres.
Qed.

Lemma preserves_sorted l : preserves R T (sorted l).
Proof.
  induction l as [| a l IH]; cbn [sorted].
  - pres.
  - apply preserves_bind; [apply IH |]. intros rest. apply preserves_insert_sorted.
Qed.

Lemma preserves_deepcopy_val v : preserves R T (deepcopy_val v).
Proof. unfold deepcopy_val. pres. Qed.

Lemma preserves_deepcopy_data data :
  forall memo, preserves R T (deepcopy_data data memo).
Proof.
  induction data as [| [k v] data IH]; intros memo; cbn [deepcopy_data].
  - pres.
  - destruct (memo_get memo v).
    + apply preserves_bind; [apply IH |]. intros ?. pres.
    + apply preserves_bind; [apply preserves_deepcopy_val |]. intros c.
      apply preserves_bind; [apply IH |]. intros ?. pres.
Qed.

Lemma preserves_deepcopy_sol sol : preserves R T (deepcopy_sol sol).
Proof.
  unfold deepcopy_sol. apply preserves_bind; [pres |]. intros s.
  apply preserves_bind; [apply preserves_deepcopy_data |]. intros ?. pres.
Qed.

Lemma preserves_getindex population i : preserves R T (getindex population i).
Proof. unfold getindex. pres. Qed.

Lemma preserves_tournament_selection population force :
  preserves R T (tournament_selection population force).
Proof.
  unfold tournament_selection. apply preserves_bind; [pres |]. intros positions.
  apply preserves_bind; [| intros ?; apply preserves_py_min].
  apply preserves_mapM. intros i. apply preserves_getindex.
Qed.

Lemma preserves_cauchy_mutation_population population bs gamma rate :
  preserves R T (cauchy_mutation_population population bs gamma rate).
Proof. unfold cauchy_mutation_population. pres. Qed.

Lemma preserves_transform_genes self genes :
  preserves R T (_transform_genes self genes).
Proof. unfold _transform_genes. pres. Qed.

Lemma preserves_transform_genes_back self genes :
  preserves R T (_transform_genes_back self genes).
Proof. unfold _transform_genes_back. pres. Qed.

Lemma preserves_transform_solution self sol :
  preserves R T (_transform_solution self sol).
Proof.
  unfold _transform_solution. apply preserves_bind; [pres |]. intros s.
  apply preserves_bind; [apply preserves_transform_genes |]. intros genes.
  apply preserves_bind; [apply preserves_construct |]. intros c.
  apply preserves_bind; [apply preserves_set_y |]. intros _. pres.
Qed.

Lemma preserves_transform_solution_back self sol :
  preserves R T (_transform_solution_back self sol).
Proof.
  unfold _transform_solution_back. apply preserves_bind; [pres |]. intros s.
  apply preserves_bind; [apply preserves_transform_genes_back |]. intros genes.
  apply preserves_bind; [apply preserves_construct |]. intros c.
  apply preserves_bind; [apply preserves_set_y |]. intros _. pres.
Qed.

Lemma preserves_generate_solution self : preserves R T (generate_solution self).
Proof.
  unfold generate_solution. apply preserves_bind; [pres |]. intros cached.
  apply preserves_bind; [pres |]. intros gt.
  apply preserves_bind; [apply preserves_transform_genes_back |]. intros genes.
  apply preserves_construct.
Qed.

Lemma preserves_generate_population self n :
  preserves R T (generate_population self n).
Proof.
  unfold generate_population. apply preserves_mapM. intros _.
  apply preserves_generate_solution.
Qed.

Lemma preserves_transform_population self population :
  preserves R T (_transform_population self population).
Proof.
  unfold _transform_population. apply preserves_bind.
  - unfold py_iter. pres.
  - intros items. apply preserves_mapM. intros item.
    apply preserves_bind; [unfold as_solution; pres |]. intros sol.
    apply preserves_transform_solution.
Qed.

Lemma preserves_transform_population_back self population :
  preserves R T (_transform_population_back self population).
Proof.
  unfold _transform_population_back. apply preserves_mapM. intros sol.
  apply preserves_transform_solution_back.
Qed.

Lemma preserves_mutate_population_transformed self population :
  preserves R T (_mutate_population_transformed self population).
Proof.
  unfold _mutate_population_transformed. apply preserves_bind; [pres |].
  intros cached. apply preserves_cauchy_mutation_population.
Qed.

Lemma preserves_mutate_population self population :
  preserves R T (mutate_population self population).
Proof.
  unfold mutate_population. destruct (negb _); [pres |].
  apply preserves_bind; [apply preserves_transform_population |]. intros p1.
  apply preserves_bind; [apply preserves_mutate_population_transformed |].
  intros p2. apply preserves_transform_population_back.
Qed.

Lemma preserves_mutate_solution self sol : preserves R T (mutate_solution self sol).
Proof.
  unfold mutate_solution. destruct sol; try solve [pres].
  apply preserves_bind; [apply preserves_mutate_population |].
  intros [| a [| b rest]]; pres.
Qed.

Lemma preserves_transmit_solution_data self parent child :
  preserves R T (_transmit_solution_data self parent child).
Proof.
  unfold _transmit_solution_data. apply preserves_forM. intros key.
  apply preserves_bind; [apply preserves_getitem |]. intros v.
  apply preserves_bind; [apply preserves_deepcopy_val |]. intros c.
  apply preserves_setitem.
Qed.

Lemma preserves_selection self population :
  preserves R T (_selection self population).
Proof. apply preserves_tournament_selection. Qed.

Lemma preserves_crossover self genes1 genes2 :
  preserves R T (_crossover self genes1 genes2).
Proof. unfold _crossover. pres. Qed.

Lemma preserves_select_parents retries self population :
  forall parent1 parent2,
    preserves R T (select_parents retries self population parent1 parent2).
Proof.
  induction retries as [| retries IH]; intros parent1 parent2;
    cbn [select_parents]; destruct (Nat.eqb parent1 parent2); try solve [pres].
  apply preserves_bind; [apply preserves_selection |]. intros p1.
  apply preserves_bind; [apply preserves_selection |]. intros p2.
  apply IH.
Qed.

Lemma preserves_crossover_children self p1 p2 :
  preserves R T (crossover_children self p1 p2).
Proof.
  unfold crossover_children. apply preserves_bind; [pres |]. intros s1.
  apply preserves_bind; [pres |]. intros s2.
  apply preserves_bind; [apply preserves_crossover |]. intros og.
  apply preserves_bind; [apply preserves_py_min |]. intros t.
  apply preserves_mapM. intros genes.
  apply preserves_bind; [apply preserves_construct |]. intros child.
  apply preserves_bind; [apply preserves_transmit_solution_data |]. intros _.
  pres.
Qed.

Lemma preserves_clone_children p1 p2 : preserves R T (clone_children p1 p2).
Proof.
  unfold clone_children. apply preserves_bind; [apply preserves_deepcopy_sol |].
  intros c1. apply preserves_bind; [apply preserves_deepcopy_sol |].
  intros c2. pres.
Qed.

Lemma preserves_get_mutants_round retries self population :
  preserves R T (get_mutants_round retries self population).
Proof.
  unfold get_mutants_round.
  apply preserves_bind; [apply preserves_getindex |]. intros first.
  apply preserves_bind; [apply preserves_select_parents |]. intros parents.
  apply preserves_bind; [apply preserves_transform_solution |]. intros p1.
  apply preserves_bind; [apply preserves_transform_solution |]. intros p2.
  apply preserves_bind; [pres |]. intros u.
  destruct (Qleb u _);
    [apply preserves_crossover_children | apply preserves_clone_children].
Qed.

Lemma preserves_get_mutants_loop rounds retries self population size :
  forall population_new,
    preserves R T (get_mutants_loop rounds retries self population size population_new).
Proof.
  induction rounds as [| rounds IH]; intros population_new;
    cbn [get_mutants_loop]; destruct (_ <? _)%nat; try solve [pres].
  apply preserves_bind; [apply preserves_get_mutants_round |]. intros children.
  apply IH.
Qed.

Lemma preserves_get_mutants retries self population size :
  preserves R T (get_mutants retries self population size).
Proof.
  unfold get_mutants. destruct (_ <? 3)%nat; [pres |].
  destruct size; try solve [pres]. destruct (z <? 0); [pres |].
  apply preserves_bind; [apply preserves_get_mutants_loop |]. intros pn.
  cbv zeta.
  apply preserves_bind; [apply preserves_mutate_population_transformed |].
  intros pm. apply preserves_transform_population_back.
Qed.

Lemma preserves_get_elites population size :
  preserves R T (get_elites population size).
Proof.
  unfold get_elites. destruct size; try solve [pres].
  destruct (negb _); [pres |].
  apply preserves_bind; [apply preserves_sorted |]. intros ordered. pres.
Qed.

Lemma preserves_update_population population :
  preserves R T (update_population population).
Proof.
  unfold update_population. apply preserves_forM. intros sol.
  unfold sol_update. pres.
Qed.

Lemma preserves_is_solution_inside_bounds self sol bs :
  preserves R T (is_solution_inside_bounds self sol bs).
Proof. unfold is_solution_inside_bounds. pres. Qed.

Lemma preserves_filter_step self i sol acc :
  preserves R T (filter_step self i sol acc).
Proof.
  unfold filter_step. apply preserves_bind; [pres |]. intros s.
  destruct (negb (is_updated s)); [pres |].
  destruct (negb (is_valid s)); [pres |].
  apply preserves_bind; [apply preserves_is_solution_inside_bounds |].
  intros inside. destruct (negb inside); pres.
Qed.

Lemma preserves_filter_loop self population :
  forall i acc, preserves R T (filter_loop self i population acc).
Proof.
  induction population as [| sol rest IH]; intros i acc; cbn [filter_loop].
  - pres.
  - apply preserves_bind; [apply preserves_filter_step |]. intros acc'. apply IH.
Qed.

Lemma preserves_filter_population self population :
  preserves R T (filter_population self population).
Proof.
  unfold filter_population. apply preserves_bind; [pres |]. intros _.
  apply preserves_bind; [apply preserves_filter_loop |]. intros r. pres.
Qed.

Lemma preserves_epoch retries self n_solutions n_elites population :
  preserves R T (epoch retries self n_solutions n_elites population).
Proof.
  unfold epoch. apply preserves_bind; [apply preserves_update_population |].
  intros _. apply preserves_bind; [apply preserves_filter_population |].
  intros survivors. apply preserves_bind; [apply preserves_get_elites |].
  intros elites. apply preserves_bind; [apply preserves_get_mutants |].
  intros mutants. pres.
Qed.

Lemma preserves_run_epochs n retries self n_solutions n_elites :
  forall population,
    preserves R T (run_epochs n retries self n_solutions n_elites population).
Proof.
  induction n as [| n IH]; intros population; cbn [run_epochs].
  - pres.
  - apply preserves_bind; [apply preserves_epoch |]. intros p. apply IH.
Qed.

Lemma preserves_run retries self n_solutions n_epochs n_elites :
  preserves R T (run retries self n_solutions n_epochs n_elites).
Proof.
  unfold run. destruct n_solutions; try solve [pres].
  destruct (z <? 0); [pres |]. destruct n_epochs; try solve [pres].
  destruct (z0 <? 0); [pres |]. destruct n_elites; try solve [pres].
  destruct (negb _); [pres |].
  apply preserves_bind; [apply preserves_generate_population |]. intros p.
  apply preserves_run_epochs.
Qed.

Lemma preserves_bounds self : preserves R T (bounds self).
Proof. unfold bounds. pres. Qed.

End Preservation.

(** ** mutate_population: the type check *)

(** C9 (as the code has it): the check of [mutate_population] is
    [isinstance(population, (list, int))].  Every argument that is neither a
    list nor an [int] raises [TypeError] at the check, and an [int] that
    cannot be iterated raises [TypeError] when the loop over the population
    starts; in both cases nothing is changed. *)
Theorem mutate_population_type_check (self : GA) (w : world) :
  (forall population,
     isinstance_list_int population = false ->
     mutate_population self population w = Raise TypeError w) /\
  (forall z, mutate_population self (PyInt z) w = Raise TypeError w).
Proof.
  split.
  - intros population Hcheck. unfold mutate_population. now rewrite Hcheck.
  - intros z. reflexivity.
Qed.

(** The items of a list are not checked: a list that starts with anything but
    a solution passes the check and fails on the attribute access. *)
Lemma mutate_population_unchecked_item (self : GA) item items (w : world) :
  (forall l, item <> PySol l /\ item <> PyObj l) ->
  mutate_population self (PyList (item :: items)) w = Raise AttributeError w.
Proof.
  intros Hitem. unfold mutate_population, _transform_population.
  cbn. destruct item; try reflexivity; now destruct (Hitem l).
Qed.


(** ** filter_population *)

Lemma with_log_nil w : with_log w [] = w.
Proof. destruct w. unfold with_log. cbn. now rewrite app_nil_r. Qed.

Lemma with_log_app w evs evs' :
  with_log (with_log w evs) evs' = with_log w (evs ++ evs').
Proof. unfold with_log. cbn. now rewrite app_assoc. Qed.

Lemma Qleb_false a b : Qleb a b = false <-> (b < a)%Q.
Proof.
  unfold Qleb. split.
  - intros H. apply Qnot_le_lt. intros Hle. apply Qle_bool_iff in Hle. congruence.
  - intros H. destruct (Qle_bool a b) eqn:E; [| reflexivity].
    apply Qle_bool_iff in E. exfalso. revert E. now apply Qlt_not_le.
Qed.

Lemma inside_bounds_false values bs :
  is_values_inside_bounds values bs = false <-> gene_outside values bs.
Proof.
  unfold is_values_inside_bounds, gene_outside.
  revert bs. induction values as [| v values IH]; intros bs.
  - cbn. split; [discriminate |]. intros (i & v & lo & hi & H & _). discriminate.
  - destruct bs as [| [lo hi] bs].
    + cbn. split; [discriminate |].
      intros (i & v' & lo & hi & _ & H & _). discriminate.
    + cbn [combine forallb fst snd]. rewrite andb_false_iff, andb_false_iff.
      rewrite IH, !Qleb_false. split.
      * intros [[H | H] | (i & v' & lo' & hi' & Hv & Hb & H)].
        -- exists 0%nat, v, lo, hi. auto.
        -- exists 0%nat, v, lo, hi. auto.
        -- exists (S i), v', lo', hi'. auto.
      * intros ([| i] & v' & lo' & hi' & Hv & Hb & H); cbn in Hv, Hb.
        -- injection Hv as ->. injection Hb as -> ->. left. tauto.
        -- right. exists i, v', lo', hi'. auto.
Qed.

Lemma passes_false raw s :
  passes raw s = false <->
  is_updated s = false \/ is_valid s = false \/ gene_outside (sol_x s) raw.
Proof.
  unfold passes. rewrite !andb_false_iff, inside_bounds_false. tauto.
Qed.

Lemma filter_step_spec self raw i sol acc w s :
  arrays w !! _bounds self = Some raw ->
  sols w !! sol = Some s ->
  exists msg,
    filter_step self i sol acc w
    = Ok (if passes raw s then acc ++ [sol] else acc) (with_log w [DebugAt i msg]).
Proof.
  intros Hraw Hs. unfold filter_step, passes, bind, read_sol.
  rewrite Hs. destruct (is_updated s); cbn; [| eauto].
  destruct (is_valid s); cbn; [| eauto].
  unfold is_solution_inside_bounds, bind, read_array, read_sol, ret.
  rewrite Hraw, Hs.
  destruct (is_values_inside_bounds (sol_x s) raw); cbn; eauto.
Qed.

Lemma filter_loop_spec self raw population :
  forall i acc w,
    arrays w !! _bounds self = Some raw ->
    Forall (fun l => is_Some (sols w !! l)) population ->
    exists evs,
      filter_loop self i population acc w
      = Ok (acc ++ List.filter (survives w raw) population) (with_log w evs)
      /\ Forall debug_at evs.
Proof.
  induction population as [| sol rest IH]; intros i acc w Hraw Hpop.
  - exists []. cbn. rewrite app_nil_r, with_log_nil. split; [reflexivity | constructor].
  - inversion Hpop as [| ? ? [s Hs] Hrest]; subst.
    destruct (filter_step_spec self raw i sol acc w s Hraw Hs) as (msg & Hstep).
    cbn [filter_loop]. rewrite (bind_step _ _ _ _ _ Hstep).
    destruct (IH (S i) (if passes raw s then acc ++ [sol] else acc)
                 (with_log w [DebugAt i msg])) as (evs & Hloop & Hevs);
      [exact Hraw | exact Hrest |].
    exists (DebugAt i msg :: evs). split.
    + rewrite Hloop, with_log_app. cbn [List.filter app].
      unfold survives at 2. rewrite Hs. f_equal.
      change (List.filter (survives (with_log w [DebugAt i msg]) raw) rest)
        with (List.filter (survives w raw) rest).
      destruct (passes raw s); [now rewrite <- app_assoc | reflexivity].
    + constructor; [exact I | exact Hevs].
Qed.

(** C5: on a population of live solutions [filter_population] returns exactly
    the solutions that pass the three tests, in their order in the
    population, and leaves every object as it was (only debug records are
    added); a solution fails the tests if and only if it is not updated, or
    not valid, or has a gene outside the raw bounds. *)
Theorem filter_population_correct (self : GA) (population : list loc)
    (raw : ndarray2) (w : world) :
  arrays w !! _bounds self = Some raw ->
  Forall (fun l => is_Some (sols w !! l)) population ->
  (exists evs,
     filter_population self population w
     = Ok (List.filter (survives w raw) population) (with_log w evs)) /\
  (forall l s, sols w !! l = Some s ->
     (survives w raw l = false <->
      is_updated s = false \/ is_valid s = false \/ gene_outside (sol_x s) raw)).
Proof.
  intros Hraw Hpop. split.
  - destruct (filter_loop_spec self raw population 0%nat [] (with_log w [Debug "filter_population: START"]) Hraw Hpop)
      as (evs & Hloop & _).
    exists ([Debug "filter_population: START"] ++ evs ++ [Debug "filter_population: END"]).
    unfold filter_population.
    change (bind (emit (Debug "filter_population: START")) ?k w)
      with (k tt (with_log w [Debug "filter_population: START"])).
    cbv beta. rewrite (bind_step _ _ _ _ _ Hloop).
    unfold bind, emit, ret. cbn. unfold with_log. cbn.
    now rewrite <- !app_assoc.
  - intros l s Hs. unfold survives. rewrite Hs. apply passes_false.
Qed.

(** ** get_elites *)

Lemma insert_by_perm lt a l : Permutation (a :: l) (insert_by lt a l).
Proof.
  induction l as [| b l IH]; cbn [insert_by]; [reflexivity |].
  destruct (lt b a); [| reflexivity].
  rewrite perm_swap. now apply perm_skip.
Qed.

Lemma sort_by_perm lt l : Permutation l (sort_by lt l).
Proof.
  induction l as [| a l IH]; cbn [sort_by]; [reflexivity |].
  rewrite <- insert_by_perm. now apply perm_skip.
Qed.

Lemma lt_sol_live w a b :
  live w a -> live w b -> lt_sol a b w = Ok (lt_at w a b) w.
Proof.
  intros [sa Ha] [sb Hb]. unfold lt_sol, lt_at, bind, read_sol, ret.
  now rewrite Ha, Hb.
Qed.

Lemma insert_sorted_live w a l :
  live w a -> Forall (live w) l ->
  insert_sorted a l w = Ok (insert_by (lt_at w) a l) w.
Proof.
  intros Ha Hl. induction Hl as [| b l Hb Hl IH]; cbn [insert_sorted insert_by].
  - reflexivity.
  - rewrite (bind_step _ _ _ _ _ (lt_sol_live w b a Hb Ha)).
    destruct (lt_at w b a); [| reflexivity].
    now rewrite (bind_step _ _ _ _ _ IH).
Qed.

Lemma sorted_live w l :
  Forall (live w) l -> sorted l w = Ok (sort_by (lt_at w) l) w.
Proof.
  intros Hl. induction Hl as [| a l Ha Hl IH]; cbn [sorted sort_by].
  - reflexivity.
  - rewrite (bind_step _ _ _ _ _ IH). apply insert_sorted_live; [exact Ha |].
    eapply Permutation_Forall; [apply sort_by_perm | exact Hl].
Qed.

Lemma le_at_trans w a b c :
  strict_weak_order -> live w a -> live w b -> live w c ->
  le_at w a b -> le_at w b c -> le_at w a c.
Proof.
  intros [_ Hneg] [sa Ha] [sb Hb] [sc Hc]. unfold le_at, lt_at.
  rewrite Ha, Hb, Hc. intros Hab Hbc. exact (Hneg sc sb sa Hbc Hab).
Qed.

Lemma lt_at_asym w a b :
  strict_weak_order -> lt_at w a b = true -> le_at w a b.
Proof.
  intros [Hasym _]. unfold le_at, lt_at.
  destruct (sols w !! a) as [sa |], (sols w !! b) as [sb |];
    try discriminate; try reflexivity.
  apply Hasym.
Qed.

Lemma insert_by_sorted w a l :
  strict_weak_order -> live w a -> Forall (live w) l ->
  StronglySorted (le_at w) l ->
  StronglySorted (le_at w) (insert_by (lt_at w) a l).
Proof.
  intros Hord Ha Hl Hs. induction Hs as [| b l Hs IH Hb]; cbn [insert_by].
  - constructor; constructor.
  - inversion Hl as [| ? ? Hlb Hll]; subst.
    destruct (lt_at w b a) eqn:E.
    + constructor; [now apply IH |].
      eapply Permutation_Forall; [apply insert_by_perm |].
      constructor; [now apply lt_at_asym | exact Hb].
    + constructor; [constructor; assumption |].
      constructor; [exact E |].
      rewrite List.Forall_forall in Hb, Hll |- *. intros x Hx.
      apply (le_at_trans w a b x); auto.
Qed.

Lemma sort_by_sorted w l :
  strict_weak_order -> Forall (live w) l ->
  StronglySorted (le_at w) (sort_by (lt_at w) l).
Proof.
  intros Hord Hl. induction Hl as [| a l Ha Hl IH]; cbn [sort_by].
  - constructor.
  - apply insert_by_sorted; auto.
    eapply Permutation_Forall; [apply sort_by_perm | exact Hl].
Qed.

Lemma sorted_app_split {A} (le : A -> A -> Prop) l1 l2 :
  StronglySorted le (l1 ++ l2) ->
  StronglySorted le l1 /\ (forall a b, In a l1 -> In b l2 -> le a b).
Proof.
  induction l1 as [| x l1 IH]; cbn.
  - intros _. split; [constructor | intros ? ? []].
  - intros H. inversion H as [| ? ? Hs Hx]; subst.
    destruct (IH Hs) as [Hs1 Hcross]. split.
    + constructor; [exact Hs1 |]. rewrite List.Forall_forall in Hx |- *.
      intros y Hy. apply Hx. apply in_or_app. now left.
    + intros a b [-> | Ha] Hb.
      * rewrite List.Forall_forall in Hx. apply Hx. apply in_or_app. now right.
      * now apply Hcross.
Qed.

(** C4: over a strictly weakly ordered solution class and a population of
    live solutions, [get_elites(pop, m)] with [0 <= m <= len(pop)] returns,
    without changing anything, [m] members of the population in ascending
    order, none of them above any member left out; an integer outside that
    range raises [ValueError] and a size that is not an integer raises
    [TypeError]. *)
Theorem get_elites_correct :
  (forall (population : list loc) (size : Z) (w : world),
     strict_weak_order ->
     Forall (live w) population ->
     0 <= size <= Z.of_nat (length population) ->
     exists elites rest,
       get_elites population (PyInt size) w = Ok elites w /\
       length elites = Z.to_nat size /\
       Permutation population (elites ++ rest) /\
       StronglySorted (le_at w) elites /\
       (forall e r, In e elites -> In r rest -> le_at w e r)) /\
  (forall (population : list loc) (size : Z) (w : world),
     ~ (0 <= size <= Z.of_nat (length population)) ->
     get_elites population (PyInt size) w = Raise ValueError w) /\
  (forall (population : list loc) (size : pyval) (w : world),
     (forall z, size <> PyInt z) ->
     get_elites population size w = Raise TypeError w).
Proof.
  split; [| split].
  - intros population size w Hord Hlive Hsize.
    exists (firstn (Z.to_nat size) (sort_by (lt_at w) population)),
           (skipn (Z.to_nat size) (sort_by (lt_at w) population)).
    assert (Hlen : length (sort_by (lt_at w) population) = length population).
    { symmetry. apply Permutation_length, sort_by_perm. }
    pose proof (sort_by_sorted w population Hord Hlive) as Hsorted.
    rewrite <- (firstn_skipn (Z.to_nat size) (sort_by (lt_at w) population))
      in Hsorted.
    apply sorted_app_split in Hsorted. destruct Hsorted as [Hs Hcross].
    split; [| split; [| split; [| split]]].
    + unfold get_elites.
      replace ((0 <=? size) && (size <=? Z.of_nat (length population)))
        with true by (symmetry; apply andb_true_iff; split; lia).
      cbn [negb]. now rewrite (bind_step _ _ _ _ _ (sorted_live w population Hlive)).
    + rewrite length_firstn. lia.
    + rewrite firstn_skipn. apply sort_by_perm.
    + exact Hs.
    + exact Hcross.
  - intros population size w Hsize. unfold get_elites.
    replace ((0 <=? size) && (size <=? Z.of_nat (length population)))
      with false; [reflexivity |].
    symmetry. apply andb_false_iff. lia.
  - intros population size w Hsize. unfold get_elites.
    destruct size; try reflexivity. now destruct (Hsize z).
Qed.

(** ** Parent selection *)

Lemma min_from_member rest :
  forall current w r w',
    min_from current rest w = Ok r w' -> r = current \/ In r rest.
Proof.
  induction rest as [| item rest IH]; intros current w r w' H; cbn [min_from] in H.
  - inv_ok H. now left.
  - inv_bind H. apply IH in H. destruct H as [-> | H].
    + destruct a; [right; now left | now left].
    + right. now right.
Qed.

Lemma py_min_member items w r w' : py_min items w = Ok r w' -> In r items.
Proof.
  destruct items as [| item rest]; cbn [py_min]; [discriminate |].
  intros H. apply min_from_member in H. destruct H as [-> | H]; [now left | now right].
Qed.

Lemma getindex_member population i w l w' :
  getindex population i w = Ok l w' -> In l population.
Proof.
  unfold getindex. destruct (population !! i) as [x |] eqn:E; [| discriminate].
  intros H. inv_ok H. apply list_elem_of_In. eapply list_elem_of_lookup_2, E.
Qed.

Lemma mapM_getindex_members population positions :
  forall w candidates w',
    mapM (getindex population) positions w = Ok candidates w' ->
    Forall (fun c => In c population) candidates.
Proof.
  induction positions as [| i positions IH]; intros w candidates w' H;
    cbn [mapM] in H.
  - inv_ok H. constructor.
  - inv_bind H. inv_bind H. inv_ok H. constructor.
    + eapply getindex_member, H0.
    + eapply IH, H1.
Qed.

Lemma selection_member self population w l w' :
  _selection self population w = Ok l w' -> In l population.
Proof.
  unfold _selection, tournament_selection. intros H.
  inv_bind H. inv_bind H. apply py_min_member in H.
  apply mapM_getindex_members in H1. rewrite List.Forall_forall in H1. auto.
Qed.

Lemma select_parents_spec retries self population :
  forall parent1 parent2 w parents w',
    select_parents retries self population parent1 parent2 w = Ok parents w' ->
    fst parents <> snd parents /\
    (parent1 <> parent2 \/
     (In (fst parents) population /\ In (snd parents) population)).
Proof.
  induction retries as [| retries IH]; intros parent1 parent2 w parents w' H;
    cbn [select_parents] in H;
    destruct (Nat.eqb parent1 parent2) eqn:E.
  - discriminate.
  - inv_ok H. apply Nat.eqb_neq in E. cbn. auto.
  - inv_bind H. inv_bind H.
    destruct (Nat.eqb a a0) eqn:E'.
    + apply IH in H. destruct H as [Hne [Hd | Hin]]; [| auto].
      apply Nat.eqb_eq in E'. contradiction.
    + destruct retries; cbn [select_parents] in H; rewrite E' in H;
        inv_ok H; apply Nat.eqb_neq in E'; cbn;
        (split; [assumption |]); right;
        (split; eapply selection_member; eassumption).
  - inv_ok H. apply Nat.eqb_neq in E. cbn. auto.
Qed.


(** ** The bounds are never written *)

Lemma arrays_kept_refl w : arrays_kept w w.
Proof. intros l a H. exact H. Qed.

Lemma arrays_kept_trans w1 w2 w3 :
  arrays_kept w1 w2 -> arrays_kept w2 w3 -> arrays_kept w1 w3.
Proof. intros H12 H23 l a H. apply H23, H12, H. Qed.

Lemma arrays_kept_append w a ss vs g evs :
  arrays_kept w (mkWorld ss vs (arrays w ++ [a]) g evs).
Proof. intros l b H. cbn. now apply lookup_app_l_Some. Qed.

Lemma arrays_kept_same w ss vs g evs :
  arrays_kept w (mkWorld ss vs (arrays w) g evs).
Proof. intros l b H. exact H. Qed.

Lemma perform_keeps_arrays retries self c :
  preserves arrays_kept True (perform retries self c).
Proof.
  assert (Hdiscard : forall A (m : M A),
             preserves arrays_kept True m -> preserves arrays_kept True (discard m)).
  { intros A m Hm. unfold discard.
    apply preserves_bind; [exact arrays_kept_trans | exact Hm |].
    intros _. apply preserves_ret, arrays_kept_refl. }
  pose proof I as R0.
  pose proof arrays_kept_refl as R1. pose proof arrays_kept_trans as R2.
  assert (R3 : forall w ss, (length (sols w) <= length ss)%nat ->
                 arrays_kept w (mkWorld ss (vals w) (arrays w) (rng w) (log w)))
    by (intros; apply arrays_kept_same).
  assert (R4 : forall w v,
             arrays_kept w (mkWorld (sols w) (vals w ++ [v]) (arrays w) (rng w) (log w)))
    by (intros; apply arrays_kept_same).
  assert (R5 : forall w a,
             arrays_kept w (mkWorld (sols w) (vals w) (arrays w ++ [a]) (rng w) (log w)))
    by (intros; apply arrays_kept_append).
  assert (R6 : forall w g,
             arrays_kept w (mkWorld (sols w) (vals w) (arrays w) g (log w)))
    by (intros; apply arrays_kept_same).
  assert (R7 : forall w e,
             arrays_kept w (mkWorld (sols w) (vals w) (arrays w) (rng w) (log w ++ [e])))
    by (intros; apply arrays_kept_same).
  destruct c; cbn [perform]; try apply Hdiscard.
  - now apply preserves_bounds.
  - now apply preserves_generate_solution.
  - now apply preserves_generate_population.
  - now apply preserves_mutate_population.
  - now apply preserves_mutate_solution.
  - now apply preserves_get_mutants.
  - now apply preserves_get_elites.
  - now apply preserves_update_population.
  - now apply preserves_is_solution_inside_bounds.
  - now apply preserves_filter_population.
  - now apply preserves_run.
Qed.

(** C10: no public operation of the engine, whether it returns or raises,
    changes an array that existed before it ran, so the raw bounds and the
    cached transformed bounds stay as the constructor stored them; the
    [bounds] accessor returns a new array with the rows of the stored one,
    and assigning into the returned array changes neither of the engine's
    two arrays. *)
Theorem bounds_are_immutable :
  (forall (retries : nat) (self : GA) (c : call) (w : world) (raw cached : ndarray2),
     arrays w !! _bounds self = Some raw ->
     arrays w !! _bounds_transformed self = Some cached ->
     match perform retries self c w with
     | Ok _ w' | Raise _ w' =>
         arrays w' !! _bounds self = Some raw /\
         arrays w' !! _bounds_transformed self = Some cached
     | Timeout => True
     end) /\
  (forall (self : GA) (w : world) (raw : ndarray2),
     arrays w !! _bounds self = Some raw ->
     exists copy w1,
       bounds self w = Ok copy w1 /\
       copy <> _bounds self /\
       arrays w1 !! copy = Some raw /\
       arrays w1 !! _bounds self = Some raw /\
       forall rows,
       exists w2,
         write_array copy rows w1 = Ok tt w2 /\
         arrays w2 !! copy = Some rows /\
         arrays w2 !! _bounds self = Some raw /\
         forall cached,
           arrays w !! _bounds_transformed self = Some cached ->
           arrays w2 !! _bounds_transformed self = Some cached).
Proof.
  split.
  - intros retries self c w raw cached Hraw Hcached.
    pose proof (perform_keeps_arrays retries self c w) as H.
    destruct (perform retries self c w); auto.
  - intros self w raw Hraw.
    assert (Hlt : (_bounds self < length (arrays w))%nat)
      by (eapply lookup_lt_Some, Hraw).
    exists (length (arrays w)),
      (mkWorld (sols w) (vals w) (arrays w ++ [raw]) (rng w) (log w)).
    split; [| split; [| split; [| split]]].
    + unfold bounds, bind, read_array, new_array. now rewrite Hraw.
    + lia.
    + cbn. rewrite lookup_app_r by lia. now rewrite Nat.sub_diag.
    + cbn. now apply lookup_app_l_Some.
    + intros rows. unfold write_array. cbn [arrays sols vals rng log].
      assert (Hcopy : (arrays w ++ [raw]) !! length (arrays w) = Some raw).
      { rewrite lookup_app_r by lia. now rewrite Nat.sub_diag. }
      eexists. split; [rewrite Hcopy; reflexivity |].
      cbn [arrays sols vals rng log]. split; [| split].
      * apply list_lookup_insert_eq. rewrite length_app. cbn. lia.
      * rewrite list_lookup_insert_ne by lia. now apply lookup_app_l_Some.
      * intros cached Hc.
        assert ((_bounds_transformed self < length (arrays w))%nat)
          by (eapply lookup_lt_Some, Hc).
        rewrite list_lookup_insert_ne by lia. now apply lookup_app_l_Some.
Qed.

(** ** get_mutants: the number of offspring *)

Lemma halts_not_Timeout {A} (m : M A) w : halts m -> m w <> Timeout.
Proof. intros H E. specialize (H w). now rewrite E in H. Qed.

Ltac halts_by lem := unfold halts; apply lem; intros; exact I.

Lemma mapM_length {A B} (f : A -> M B) l :
  forall w r w', mapM f l w = Ok r w' -> length r = length l.
Proof.
  induction l as [| a l IH]; intros w r w' H; cbn [mapM] in H.
  - inv_ok H. reflexivity.
  - inv_bind H. inv_bind H. inv_ok H. cbn. f_equal. eapply IH, H1.
Qed.

Lemma crossover_children_length self p1 p2 w children w' :
  crossover_children self p1 p2 w = Ok children w' -> length children = 2%nat.
Proof.
  unfold crossover_children. intros H. do 4 inv_bind H.
  now apply mapM_length in H.
Qed.

Lemma clone_children_length p1 p2 w children w' :
  clone_children p1 p2 w = Ok children w' -> length children = 2%nat.
Proof.
  unfold clone_children. intros H. do 2 inv_bind H. inv_ok H. reflexivity.
Qed.

Lemma get_mutants_round_length retries self population w children w' :
  get_mutants_round retries self population w = Ok children w' ->
  length children = 2%nat.
Proof.
  unfold get_mutants_round. intros H. do 5 inv_bind H.
  destruct (Qleb _ _);
    [eapply crossover_children_length | eapply clone_children_length]; eassumption.
Qed.

(** A round runs out of retries only inside its parent-selection loop. *)
Lemma get_mutants_round_Timeout retries self population first w :
  population !! 0%nat = Some first ->
  get_mutants_round retries self population w = Timeout ->
  select_parents retries self population first first w = Timeout.
Proof.
  intros Hfirst. unfold get_mutants_round, getindex. rewrite Hfirst.
  change (bind (ret first) ?k w) with (k first w). cbv beta.
  intros H. apply bind_Timeout in H. destruct H as [H | (parents & w1 & _ & H)];
    [exact H | exfalso].
  revert H. apply halts_not_Timeout.
  unfold halts. apply preserves_bind; [auto | |].
  { halts_by preserves_transform_solution. }
  intros p1. apply preserves_bind; [auto | |].
  { halts_by preserves_transform_solution. }
  intros p2. apply preserves_bind; [auto | |].
  { halts_by preserves_draw. }
  intros u. destruct (Qleb u _).
  - halts_by preserves_crossover_children.
  - halts_by preserves_clone_children.
Qed.

Lemma get_mutants_loop_length rounds retries self population size :
  forall population_new w r w',
    get_mutants_loop rounds retries self population size population_new w
    = Ok r w' ->
    (size <= length r)%nat.
Proof.
  induction rounds as [| rounds IH]; intros acc w r w' H;
    cbn [get_mutants_loop] in H;
    destruct (length acc <? size)%nat eqn:E; try discriminate.
  - inv_ok H. apply Nat.ltb_ge in E. exact E.
  - inv_bind H. eapply IH, H.
  - inv_ok H. apply Nat.ltb_ge in E. exact E.
Qed.

(** With a round left for every child still missing, the production loop
    runs out of retries only inside a parent-selection loop. *)
Lemma get_mutants_loop_Timeout rounds retries self population size first :
  population !! 0%nat = Some first ->
  forall population_new w,
    (size <= length population_new + rounds)%nat ->
    get_mutants_loop rounds retries self population size population_new w
    = Timeout ->
    exists w1, select_parents retries self population first first w1 = Timeout.
Proof.
  intros Hfirst. induction rounds as [| rounds IH]; intros acc w Hrounds H;
    cbn [get_mutants_loop] in H;
    destruct (length acc <? size)%nat eqn:E; try discriminate.
  - apply Nat.ltb_lt in E. lia.
  - apply bind_Timeout in H. destruct H as [H | (children & w1 & Hround & H)].
    + exists w. eapply get_mutants_round_Timeout; eassumption.
    + apply (IH (acc ++ children) w1); [| exact H].
      apply get_mutants_round_length in Hround. rewrite length_app. lia.
Qed.

Lemma mutate_population_transformed_length self population w r w' :
  _mutate_population_transformed self population w = Ok r w' ->
  length r = length population.
Proof.
  unfold _mutate_population_transformed, cauchy_mutation_population.
  intros H. inv_bind H. eapply mapM_length, H.
Qed.

(** Whatever the random source and the solution class, a population whose
    entries are all one instance never yields a mutant: no pair of different
    parents can be drawn from it. *)
Lemma get_mutants_one_instance retries self population l k w mutants w' :
  Forall (eq l) population ->
  0 < k ->
  get_mutants retries self population (PyInt k) w <> Ok mutants w'.
Proof.
  intros Hall Hk H. unfold get_mutants in H.
  destruct (_ <? 3)%nat; [discriminate |].
  destruct (k <? 0); [discriminate |].
  step_in H as pn w1 Hloop.
  destruct (Z.to_nat k) as [| n] eqn:Ek; [lia |].
  cbn [get_mutants_loop length Nat.ltb Nat.leb] in Hloop.
  step_in Hloop as children w2 Hround. unfold get_mutants_round in Hround.
  step_in Hround as first w3 Hfirst. step_in Hround as parents w4 Hsel.
  apply select_parents_spec in Hsel.
  destruct Hsel as [Hne [Hd | [H1 H2]]]; [now apply Hd |].
  rewrite List.Forall_forall in Hall.
  apply Hne. rewrite <- (Hall _ H1), <- (Hall _ H2). reflexivity.
Qed.


(** ** Payload of the children *)

Lemma read_sol_Ok l w s w' :
  read_sol l w = Ok s w' -> w' = w /\ sols w !! l = Some s.
Proof.
  unfold read_sol. destruct (sols w !! l); intros H; [| discriminate].
  inv_ok H. auto.
Qed.

Lemma read_val_Ok l w v w' :
  read_val l w = Ok v w' -> w' = w /\ vals w !! l = Some v.
Proof.
  unfold read_val. destruct (vals w !! l); intros H; [| discriminate].
  inv_ok H. auto.
Qed.

Lemma read_array_Ok l w a w' :
  read_array l w = Ok a w' -> w' = w /\ arrays w !! l = Some a.
Proof.
  unfold read_array. destruct (arrays w !! l); intros H; [| discriminate].
  inv_ok H. auto.
Qed.

Lemma lt_sol_Ok a b w r w' :
  lt_sol a b w = Ok r w' ->
  w' = w /\ exists sa sb,
    sols w !! a = Some sa /\ sols w !! b = Some sb /\ r = sol_lt sa sb.
Proof.
  unfold lt_sol. intros H. inv_bind H. inv_bind H. inv_ok H.
  apply read_sol_Ok in H0. destruct H0 as [-> Ha].
  apply read_sol_Ok in H1. destruct H1 as [-> Hb].
  split; [reflexivity |]. exists a0, a1. auto.
Qed.

Lemma dict_get_set_eq data key v : dict_get (dict_set data key v) key = Some v.
Proof.
  induction data as [| [k v0] data IH]; cbn.
  - now rewrite String.eqb_refl.
  - destruct (String.eqb k key) eqn:E; cbn; rewrite E; [reflexivity | exact IH].
Qed.

Lemma dict_get_set_ne data key key' v :
  key <> key' -> dict_get (dict_set data key v) key' = dict_get data key'.
Proof.
  intros Hne. induction data as [| [k v0] data IH]; cbn.
  - destruct (String.eqb key key') eqn:E; [| reflexivity].
    apply String.eqb_eq in E. contradiction.
  - destruct (String.eqb k key) eqn:E; cbn.
    + apply String.eqb_eq in E. subst k.
      destruct (String.eqb key key') eqn:E'; [| reflexivity].
      apply String.eqb_eq in E'. contradiction.
    + now rewrite IH.
Qed.

Lemma fresh_copy_later before vs ext v c :
  fresh_copy before vs v c -> fresh_copy before (vs ++ ext) v c.
Proof.
  intros (Hc & Hne & p & Hv & Hp). split; [exact Hc |]. split; [exact Hne |].
  exists p. split; now apply lookup_app_l_Some.
Qed.

Lemma deepcopy_val_Ok v w c w' :
  deepcopy_val v w = Ok c w' ->
  exists p,
    vals w !! v = Some p /\ c = length (vals w) /\
    w' = mkWorld (sols w) (vals w ++ [p]) (arrays w) (rng w) (log w).
Proof.
  unfold deepcopy_val. intros H. inv_bind H.
  apply read_val_Ok in H0. destruct H0 as [-> Hv].
  unfold new_val in H. inv_ok H. eauto.
Qed.

Lemma deepcopy_val_fresh before v w c w' :
  (length before <= length (vals w))%nat ->
  deepcopy_val v w = Ok c w' ->
  fresh_copy before (vals w') v c /\ exists p, vals w' = vals w ++ [p].
Proof.
  intros Hlen H. apply deepcopy_val_Ok in H. destruct H as (p & Hv & -> & ->).
  pose proof (lookup_lt_Some _ _ _ Hv) as Hlt. cbn. split; [| eauto].
  split; [exact Hlen |]. split; [lia |]. exists p. split.
  - now apply lookup_app_l_Some.
  - rewrite lookup_app_r by lia. now rewrite Nat.sub_diag.
Qed.

(** What the loop of [_transmit_solution_data] does to the child. *)
Lemma transmit_keys_spec (before : list payload) parent child sp keys :
  parent <> child ->
  forall w w' sc,
    forM (fun key =>
            v <- getitem parent key ;;
            c <- deepcopy_val v ;;
            setitem child key c) keys w = Ok tt w' ->
    sols w !! parent = Some sp ->
    sols w !! child = Some sc ->
    (length before <= length (vals w))%nat ->
    exists sc' ext,
      sols w' = <[child := sc']> (sols w) /\
      vals w' = vals w ++ ext /\
      sol_x sc' = sol_x sc /\ sol_y sc' = sol_y sc /\
      (forall key, In key keys -> transmitted before (vals w') sp sc' key) /\
      (forall key, ~ In key keys ->
                   dict_get (sol_data sc') key = dict_get (sol_data sc) key).
Proof.
  intros Hne. induction keys as [| k keys IH]; intros w w' sc H Hp Hc Hlen;
    cbn [forM] in H.
  - inv_ok H. exists sc, []. rewrite app_nil_r, list_insert_id by exact Hc.
    repeat split; auto. intros key [].
  - step_in H as u w3 Hstep.
    step_in Hstep as v w1 Hget. step_in Hstep as c w2 Hcopy.
    unfold getitem in Hget. step_in Hget as sp' w0 Hread.
    apply read_sol_Ok in Hread. destruct Hread as [-> Hp'].
    rewrite Hp in Hp'. injection Hp' as <-.
    destruct (dict_get (sol_data sp) k) as [v' |] eqn:Hkey; [| discriminate].
    inv_ok Hget.
    pose proof (deepcopy_val_fresh before _ _ _ _ Hlen Hcopy) as [Hfresh [p Hvals]].
    apply deepcopy_val_Ok in Hcopy. destruct Hcopy as (p' & Hv & -> & ->).
    unfold setitem in Hstep. step_in Hstep as sc0 w4 Hread.
    apply read_sol_Ok in Hread. destruct Hread as [-> Hc']. cbn in Hc'.
    rewrite Hc in Hc'. injection Hc' as <-.
    unfold write_sol in Hstep. inv_ok Hstep.
    cbn [sols vals arrays rng log] in *. rename w1 into w.
    set (sc1 := mkSolution (sol_x sc) (sol_y sc)
                  (dict_set (sol_data sc) k (length (vals w)))) in *.
    pose proof (lookup_lt_Some _ _ _ Hc) as Hclt.
    destruct (IH _ _ sc1 H) as (sc' & ext & Hsols & Hext & Hx & Hy & Hin & Hout).
    + cbn. now rewrite list_lookup_insert_ne.
    + cbn. now apply list_lookup_insert_eq.
    + cbn. rewrite length_app. lia.
    + cbn in Hsols, Hext.
      exists sc', ([p'] ++ ext). split; [| split; [| split; [| split; [| split]]]].
      * rewrite Hsols. apply list_insert_insert_eq.
      * rewrite Hext. now rewrite <- app_assoc.
      * exact Hx.
      * exact Hy.
      * intros key Hmem. destruct (in_dec String.string_dec key keys) as [Hk | Hk];
          [now apply Hin |].
        destruct Hmem as [<- | Hmem]; [| contradiction].
        exists v, (length (vals w)). split; [exact Hkey |].
        split; [rewrite (Hout _ Hk); apply dict_get_set_eq |].
        rewrite Hext. now apply fresh_copy_later.
      * intros key Hmem. rewrite Hout by (intros Hk; apply Hmem; now right).
        apply dict_get_set_ne. intros ->. apply Hmem. now left.
Qed.

Lemma transmitted_later before vs ext parent child key :
  transmitted before vs parent child key ->
  transmitted before (vs ++ ext) parent child key.
Proof.
  intros (v & c & Hv & Hc & Hf). exists v, c.
  split; [exact Hv |]. split; [exact Hc |]. now apply fresh_copy_later.
Qed.

Lemma lookup_snoc {A} (l : list A) (x : A) : (l ++ [x]) !! length l = Some x.
Proof. rewrite lookup_app_r by lia. now rewrite Nat.sub_diag. Qed.

Lemma insert_snoc {A} (l : list A) (x y : A) :
  <[length l := y]> (l ++ [x]) = l ++ [y].
Proof. rewrite insert_app_r_alt by lia. now rewrite Nat.sub_diag. Qed.

(** One pass of the loop over the offspring genes in the crossover branch. *)
Lemma crossover_child_spec (before : list payload) self t st genes w child w' :
  (child <- construct genes [] ;;
   _transmit_solution_data self t child ;;;
   ret child) w = Ok child w' ->
  sols w !! t = Some st ->
  (length before <= length (vals w))%nat ->
  child = length (sols w) /\
  exists sc ext,
    sols w' = sols w ++ [sc] /\
    vals w' = vals w ++ ext /\
    sol_x sc = genes /\
    (forall key, In key (_keys_data_transmit self) ->
                 transmitted before (vals w') st sc key).
Proof.
  intros H Ht Hlen. step_in H as c w1 Hnew. step_in H as u w2 Hcopy.
  inv_ok H. unfold construct, new_sol in Hnew. inv_ok Hnew.
  pose proof (lookup_lt_Some _ _ _ Ht) as Htlt.
  unfold _transmit_solution_data in Hcopy.
  destruct u.
  eapply (transmit_keys_spec before t (length (sols w)) st) in Hcopy;
    [| lia | cbn; now apply lookup_app_l_Some | cbn; apply lookup_snoc
     | cbn; exact Hlen].
  destruct Hcopy as (sc & ext & Hsols & Hvals & Hx & _ & Hin & _).
  cbn in Hsols, Hvals, Hx. split; [reflexivity |].
  exists sc, ext. rewrite insert_snoc in Hsols. auto.
Qed.

Lemma min_pair_Ok a b w t w' :
  py_min [a; b] w = Ok t w' ->
  w' = w /\ exists sa sb,
    sols w !! a = Some sa /\ sols w !! b = Some sb /\
    t = if sol_lt sb sa then b else a.
Proof.
  cbn [py_min min_from]. intros H. step_in H as less w1 Hlt. inv_ok H.
  apply lt_sol_Ok in Hlt. destruct Hlt as (-> & sb & sa & Hb & Ha & ->).
  split; [reflexivity |]. exists sa, sb. auto.
Qed.

Lemma crossover_children_spec self p1 p2 w children w' :
  crossover_children self p1 p2 w = Ok children w' ->
  exists s1 s2 st c1 c2,
    sols w !! p1 = Some s1 /\ sols w !! p2 = Some s2 /\
    sols w !! (if sol_lt s2 s1 then p2 else p1) = Some st /\
    children = [c1; c2] /\
    forall child, In child children ->
      (length (sols w) <= child)%nat /\
      exists sc,
        sols w' !! child = Some sc /\
        forall key, In key (_keys_data_transmit self) ->
                    transmitted (vals w) (vals w') st sc key.
Proof.
  unfold crossover_children. intros H.
  step_in H as s1 w1 H1. apply read_sol_Ok in H1. destruct H1 as [-> H1].
  step_in H as s2 w2 H2. apply read_sol_Ok in H2. destruct H2 as [-> H2].
  step_in H as og w3 Hx. unfold _crossover in Hx.
  step_in Hx as cached w4 Hc. apply read_array_Ok in Hc. destruct Hc as [-> _].
  unfold draw in Hx. destruct (sbx_crossover _ _ _ _ _) as [og' g]. inv_ok Hx.
  step_in H as t w5 Hmin. apply min_pair_Ok in Hmin.
  destruct Hmin as (-> & sa & sb & Ha & Hb & ->). cbn [sols] in Ha, Hb.
  rewrite H1 in Ha. injection Ha as <-. rewrite H2 in Hb. injection Hb as <-.
  set (t := if sol_lt s2 s1 then p2 else p1) in *.
  assert (Ht : exists st, sols w !! t = Some st)
    by (subst t; destruct (sol_lt s2 s1); eauto).
  destruct Ht as [st Ht].
  cbn [mapM] in H. step_in H as c1 w6 Hc1. step_in H as rest w7 Hrest.
  inv_ok H. step_in Hrest as c2 w8 Hc2. inv_ok Hrest.
  apply (crossover_child_spec (vals w) self t st) in Hc1;
    [| exact Ht | cbn; lia].
  destruct Hc1 as (-> & sc1 & ext1 & Hs1 & Hv1 & _ & Hk1).
  cbn [sols vals] in Hs1, Hv1.
  apply (crossover_child_spec (vals w) self t st) in Hc2;
    [| rewrite Hs1; now apply lookup_app_l_Some
     | rewrite Hv1, length_app; lia].
  destruct Hc2 as (-> & sc2 & ext2 & Hs2 & Hv2 & _ & Hk2).
  exists s1, s2, st, (length (sols w)), (length (sols w6)).
  split; [exact H1 |]. split; [exact H2 |]. split; [exact Ht |].
  split; [reflexivity |].
  intros child [<- | [<- | []]].
  - split; [cbn; lia |]. exists sc1. split.
    + rewrite Hs2, Hs1. apply lookup_app_l_Some. apply lookup_snoc.
    + intros key Hkey. rewrite Hv2. apply transmitted_later, Hk1, Hkey.
  - split; [rewrite Hs1, length_app; cbn; lia |]. exists sc2. split.
    + rewrite Hs2. apply lookup_snoc.
    + intros key Hkey. apply Hk2, Hkey.
Qed.

Lemma copied_entries_later before vs ext data data' :
  Forall2 (copied_entry before vs) data data' ->
  Forall2 (copied_entry before (vs ++ ext)) data data'.
Proof.
  intros H. induction H as [| e e' data data' [Hk Hf] _ IH]; constructor.
  - split; [exact Hk | now apply fresh_copy_later].
  - exact IH.
Qed.

Lemma deepcopy_data_spec (before : list payload) data :
  forall memo w data' w',
    deepcopy_data data memo w = Ok data' w' ->
    (length before <= length (vals w))%nat ->
    memo_ok before (vals w) memo ->
    sols w' = sols w /\
    (exists ext, vals w' = vals w ++ ext) /\
    Forall2 (copied_entry before (vals w')) data data'.
Proof.
  induction data as [| [k v] data IH]; intros memo w data' w' H Hlen Hmemo;
    cbn [deepcopy_data] in H.
  - inv_ok H. split; [reflexivity |]. split; [exists []; now rewrite app_nil_r |].
    constructor.
  - destruct (memo_get memo v) as [c |] eqn:Hm.
    + step_in H as rest w1 Hrest. inv_ok H.
      destruct (IH _ _ _ _ Hrest Hlen Hmemo) as (Hs & [ext Hv] & Hall).
      split; [exact Hs |]. split; [eauto |]. constructor; [| exact Hall].
      split; [reflexivity |]. cbn [snd]. rewrite Hv.
      apply fresh_copy_later, Hmemo, Hm.
    + step_in H as c w1 Hcopy. step_in H as rest w2 Hrest. inv_ok H.
      pose proof (deepcopy_val_fresh before _ _ _ _ Hlen Hcopy) as [Hf [p Hp]].
      apply deepcopy_val_Ok in Hcopy. destruct Hcopy as (p' & Hv & -> & ->).
      cbn [vals] in Hf, Hp.
      destruct (IH _ _ _ _ Hrest) as (Hs & [ext Hext] & Hall).
      * cbn [vals]. rewrite length_app. lia.
      * cbn [vals]. intros v0 c0. cbn [memo_get].
        destruct (Nat.eqb v v0) eqn:E.
        -- apply Nat.eqb_eq in E. subst v0. intros [= <-]. exact Hf.
        -- intros Hm0. apply fresh_copy_later, Hmemo, Hm0.
      * cbn [sols vals] in Hs, Hext. split; [exact Hs |].
        split; [exists ([p'] ++ ext); rewrite Hext; now rewrite <- app_assoc |].
        constructor; [| exact Hall].
        split; [reflexivity |]. cbn [snd]. rewrite Hext.
        now apply fresh_copy_later.
Qed.

Lemma deepcopy_sol_spec (before : list payload) parent w child w' :
  deepcopy_sol parent w = Ok child w' ->
  (length before <= length (vals w))%nat ->
  child = length (sols w) /\
  exists sp sc ext,
    sols w !! parent = Some sp /\
    sols w' = sols w ++ [sc] /\
    vals w' = vals w ++ ext /\
    sol_x sc = sol_x sp /\
    sol_y sc = sol_y sp /\
    Forall2 (copied_entry before (vals w')) (sol_data sp) (sol_data sc).
Proof.
  unfold deepcopy_sol. intros H Hlen.
  step_in H as sp w1 Hread. apply read_sol_Ok in Hread. destruct Hread as [-> Hp].
  step_in H as data w2 Hdata.
  apply (deepcopy_data_spec before) in Hdata; [| exact Hlen | intros ? ? [=]].
  destruct Hdata as (Hs & [ext Hv] & Hall).
  unfold new_sol in H. inv_ok H. cbn [sols vals]. rewrite Hs, Hv.
  split; [reflexivity |].
  exists sp, (mkSolution (sol_x sp) (sol_y sp) data), ext.
  rewrite Hv in Hall. repeat (split; [first [reflexivity | assumption] |]).
  exact Hall.
Qed.

Lemma clone_children_spec p1 p2 w children w' :
  clone_children p1 p2 w = Ok children w' ->
  is_Some (sols w !! p2) ->
  exists c1 c2,
    children = [c1; c2] /\ c1 <> c2 /\
    deep_copy_of w w' p1 c1 /\ deep_copy_of w w' p2 c2.
Proof.
  unfold clone_children. intros H [sp2' Hlive2].
  step_in H as c1 w1 H1. step_in H as c2 w2 H2. inv_ok H.
  apply (deepcopy_sol_spec (vals w)) in H1; [| lia].
  destruct H1 as (-> & sp1 & sc1 & ext1 & Hp1 & Hs1 & Hv1 & Hx1 & Hy1 & Hd1).
  apply (deepcopy_sol_spec (vals w)) in H2; [| rewrite Hv1, length_app; lia].
  destruct H2 as (-> & sp2 & sc2 & ext2 & Hp2 & Hs2 & Hv2 & Hx2 & Hy2 & Hd2).
  exists (length (sols w)), (length (sols w1)).
  split; [reflexivity |]. split; [rewrite Hs1, length_app; cbn; lia |].
  pose proof (lookup_lt_Some _ _ _ Hp1) as Hlt1.
  split.
  - split; [lia |]. exists sp1, sc1.
    split; [exact Hp1 |].
    split; [rewrite Hs2, Hs1; now do 2 apply lookup_app_l_Some |].
    split; [rewrite Hs2, Hs1; apply lookup_app_l_Some, lookup_snoc |].
    split; [exact Hx1 |]. split; [exact Hy1 |].
    rewrite Hv2. now apply copied_entries_later.
  - split; [rewrite Hs1, length_app; cbn; lia |].
    assert (Hp2' : sols w !! p2 = Some sp2).
    { rewrite Hs1 in Hp2. erewrite lookup_app_l_Some in Hp2 by exact Hlive2.
      congruence. }
    exists sp2, sc2. split; [exact Hp2' |].
    split; [rewrite Hs2; now apply lookup_app_l_Some |].
    split; [rewrite Hs2; apply lookup_snoc |]. auto.
Qed.

Lemma construct_set_y_Ok genes data y w u w' :
  (sol <- construct genes data ;; set_y sol y ;;; ret sol) w = Ok u w' ->
  u = length (sols w) /\ w' = add_sol w (mkSolution genes y data).
Proof.
  intros H. step_in H as c w1 Hnew. unfold construct, new_sol in Hnew.
  inv_ok Hnew. step_in H as t w2 Hset. inv_ok H.
  unfold set_y in Hset. step_in Hset as s0 w3 Hread.
  apply read_sol_Ok in Hread. destruct Hread as [-> Hs0].
  cbn [sols] in Hs0. rewrite lookup_snoc in Hs0. injection Hs0 as <-.
  unfold write_sol in Hset. inv_ok Hset. cbn [sols vals arrays rng log sol_x sol_data].
  split; [reflexivity |]. unfold add_sol. now rewrite insert_snoc.
Qed.

Lemma transform_genes_Ok self genes w r w' :
  _transform_genes self genes w = Ok r w' -> w' = w.
Proof.
  unfold _transform_genes. intros H.
  step_in H as raw w1 H1. apply read_array_Ok in H1. destruct H1 as [-> _].
  step_in H as cached w2 H2. apply read_array_Ok in H2. destruct H2 as [-> _].
  destruct (allclose _ _); [| discriminate]. now inv_ok H.
Qed.

Lemma transform_genes_back_Ok self genes w r w' :
  _transform_genes_back self genes w = Ok r w' -> w' = w.
Proof.
  unfold _transform_genes_back. intros H.
  step_in H as cached w1 H1. apply read_array_Ok in H1. destruct H1 as [-> _].
  step_in H as raw w2 H2. apply read_array_Ok in H2. destruct H2 as [-> _].
  now inv_ok H.
Qed.

Lemma transform_solution_Ok self sol w t w' :
  _transform_solution self sol w = Ok t w' ->
  t = length (sols w) /\
  exists s genes,
    sols w !! sol = Some s /\
    w' = add_sol w (mkSolution genes (sol_y s) (sol_data s)).
Proof.
  unfold _transform_solution. intros H.
  step_in H as s w1 Hread. apply read_sol_Ok in Hread. destruct Hread as [-> Hs].
  step_in H as genes w2 Hg. apply transform_genes_Ok in Hg. subst w2.
  apply construct_set_y_Ok in H. destruct H as [-> ->]. eauto.
Qed.

Lemma transform_solution_back_Ok self sol w t w' :
  _transform_solution_back self sol w = Ok t w' ->
  t = length (sols w) /\
  exists s genes,
    sols w !! sol = Some s /\
    w' = add_sol w (mkSolution genes (sol_y s) (sol_data s)).
Proof.
  unfold _transform_solution_back. intros H.
  step_in H as s w1 Hread. apply read_sol_Ok in Hread. destruct Hread as [-> Hs].
  step_in H as genes w2 Hg. apply transform_genes_back_Ok in Hg. subst w2.
  apply construct_set_y_Ok in H. destruct H as [-> ->]. eauto.
Qed.

(** A round hands two live, different transformed parents to one of the two
    branches. *)
Lemma get_mutants_round_branches retries self population w children w' :
  get_mutants_round retries self population w = Ok children w' ->
  exists p1 p2 u w1,
    is_Some (sols w1 !! p1) /\ is_Some (sols w1 !! p2) /\ p1 <> p2 /\
    (if Qleb u (_crossover_rate self)
     then crossover_children self p1 p2 w1
     else clone_children p1 p2 w1) = Ok children w'.
Proof.
  unfold get_mutants_round. intros H.
  step_in H as first w1 Hfirst. step_in H as parents w2 Hsel.
  step_in H as p1 w3 Hp1. step_in H as p2 w4 Hp2. step_in H as u w5 Hu.
  apply transform_solution_Ok in Hp1. destruct Hp1 as (-> & s1 & g1 & _ & ->).
  apply transform_solution_Ok in Hp2. destruct Hp2 as (-> & s2 & g2 & _ & ->).
  unfold draw in Hu. destruct (rng_random _) as [u' g]. inv_ok Hu.
  eexists _, _, u, _.
  split; [| split; [| split; [| destruct (Qleb u _); exact H]]]; cbn.
  - eexists. apply lookup_app_l_Some, lookup_snoc.
  - eexists. rewrite length_app. cbn.
    replace (length (sols w2) + 1)%nat with (length (sols w2 ++ [mkSolution g1 (sol_y s1) (sol_data s1)]))
      by (rewrite length_app; reflexivity).
    apply lookup_snoc.
  - rewrite length_app. cbn. lia.
Qed.

(** C8: in a round of [get_mutants], two live and different transformed
    parents go to one of two branches.  In the crossover branch each of the
    two children holds, under every key of [keys_data_transmit], a payload
    object made during the call, with the content the lesser transformed
    parent ([parent2] when it is below [parent1], else [parent1]) has under
    that key.  In the branch without crossover the two children are new
    solution objects, different from each other and from the parents, with the
    parents' genes and fitness and with fresh copies of the parents' payload
    entries. *)
Theorem children_carry_copies :
  (forall retries self population w children w',
     get_mutants_round retries self population w = Ok children w' ->
     exists p1 p2 u w1,
       is_Some (sols w1 !! p1) /\ is_Some (sols w1 !! p2) /\ p1 <> p2 /\
       (if Qleb u (_crossover_rate self)
        then crossover_children self p1 p2 w1
        else clone_children p1 p2 w1) = Ok children w') /\
  (forall self p1 p2 w children w',
     crossover_children self p1 p2 w = Ok children w' ->
     exists s1 s2 st c1 c2,
       sols w !! p1 = Some s1 /\ sols w !! p2 = Some s2 /\
       sols w !! (if sol_lt s2 s1 then p2 else p1) = Some st /\
       children = [c1; c2] /\
       forall child, In child children ->
         (length (sols w) <= child)%nat /\
         exists sc,
           sols w' !! child = Some sc /\
           forall key, In key (_keys_data_transmit self) ->
                       transmitted (vals w) (vals w') st sc key) /\
  (forall p1 p2 w children w',
     clone_children p1 p2 w = Ok children w' ->
     is_Some (sols w !! p2) ->
     exists c1 c2,
       children = [c1; c2] /\ c1 <> c2 /\
       deep_copy_of w w' p1 c1 /\ deep_copy_of w w' p2 c2).
Proof.
  split; [| split].
  - intros. eapply get_mutants_round_branches; eassumption.
  - intros. eapply crossover_children_spec; eassumption.
  - intros. eapply clone_children_spec; eassumption.
Qed.

(** ** The generational loop *)

Lemma count_updates_app evs evs' :
  count_updates (evs ++ evs') = (count_updates evs + count_updates evs')%nat.
Proof. unfold count_updates. now rewrite List.filter_app, length_app. Qed.

Lemma count_filters_app evs evs' :
  count_filters (evs ++ evs') = (count_filters evs + count_filters evs')%nat.
Proof. unfold count_filters. now rewrite List.filter_app, length_app. Qed.

Lemma count_updates_map population :
  count_updates (map Updated population) = length population.
Proof.
  unfold count_updates. induction population as [| l population IH];
    cbn; [reflexivity | now rewrite IH].
Qed.

Lemma count_filters_map population :
  count_filters (map Updated population) = 0%nat.
Proof.
  unfold count_filters. induction population as [| l population IH];
    cbn; [reflexivity | exact IH].
Qed.

Lemma count_debug_at evs :
  Forall debug_at evs -> count_updates evs = 0%nat /\ count_filters evs = 0%nat.
Proof.
  unfold count_updates, count_filters.
  induction 1 as [| e evs He _ [IH1 IH2]]; cbn; [auto |].
  destruct e; try contradiction. cbn. auto.
Qed.

Lemma update_population_Ok population :
  forall w u w',
    update_population population w = Ok u w' ->
    log w' = log w ++ map Updated population /\
    length (sols w') = length (sols w) /\
    Forall (fun l => (l < length (sols w))%nat) population.
Proof.
  unfold update_population.
  induction population as [| l population IH]; intros w u w' H; cbn [forM] in H.
  - inv_ok H. cbn. now rewrite app_nil_r.
  - step_in H as t w1 Hl. unfold sol_update in Hl.
    step_in Hl as s w2 Hread. apply read_sol_Ok in Hread.
    destruct Hread as [-> Hs]. step_in Hl as t' w3 Hw.
    unfold write_sol in Hw. inv_ok Hw. unfold emit in Hl. inv_ok Hl.
    apply IH in H. cbn [log sols] in H. destruct H as (Hlog & Hlen & Hall).
    rewrite length_insert in Hlen, Hall.
    split; [rewrite Hlog; cbn; now rewrite <- app_assoc |].
    split; [exact Hlen |]. constructor; [| exact Hall].
    eapply lookup_lt_Some, Hs.
Qed.

Lemma filter_step_Ok self i sol acc w r w' :
  filter_step self i sol acc w = Ok r w' ->
  exists msg,
    w' = with_log w [DebugAt i msg] /\ live w sol /\ (r = acc \/ r = acc ++ [sol]).
Proof.
  unfold filter_step. intros H.
  step_in H as s w1 Hread. apply read_sol_Ok in Hread. destruct Hread as [-> Hs].
  assert (Hlive : live w sol) by (eexists; exact Hs).
  destruct (negb (is_updated s)).
  { step_in H as t w1 He. unfold emit in He. inv_ok He. inv_ok H.
    eexists. split; [reflexivity | auto]. }
  destruct (negb (is_valid s)).
  { step_in H as t w1 He. unfold emit in He. inv_ok He. inv_ok H.
    eexists. split; [reflexivity | auto]. }
  step_in H as inside w1 Hin. unfold is_solution_inside_bounds in Hin.
  step_in Hin as raw w2 Hraw. apply read_array_Ok in Hraw. destruct Hraw as [-> _].
  step_in Hin as s' w3 Hread. apply read_sol_Ok in Hread. destruct Hread as [-> _].
  inv_ok Hin.
  destruct (negb _); step_in H as t w4 He; unfold emit in He; inv_ok He; inv_ok H;
    eexists; (split; [reflexivity | auto]).
Qed.

Lemma filter_loop_Ok self population :
  forall i acc w r w',
    filter_loop self i population acc w = Ok r w' ->
    exists evs kept,
      w' = with_log w evs /\ Forall debug_at evs /\
      r = acc ++ kept /\ Forall (live w) kept.
Proof.
  induction population as [| sol rest IH]; intros i acc w r w' H;
    cbn [filter_loop] in H.
  - inv_ok H. exists [], []. rewrite with_log_nil, app_nil_r.
    repeat split; constructor.
  - step_in H as acc' w1 Hstep. apply filter_step_Ok in Hstep.
    destruct Hstep as (msg & -> & Hlive & Hacc).
    apply IH in H. destruct H as (evs & kept & -> & Hevs & -> & Hkept).
    rewrite with_log_app.
    exists ([DebugAt i msg] ++ evs), (if decide (acc' = acc) then kept else sol :: kept).
    split; [reflexivity |]. split; [constructor; [exact I | exact Hevs] |].
    destruct Hacc as [-> | ->].
    + rewrite decide_True by reflexivity. auto.
    + destruct (decide (acc ++ [sol] = acc)) as [E | _].
      * apply (f_equal length) in E. rewrite length_app in E. cbn in E. lia.
      * rewrite <- app_assoc. split; [reflexivity |]. constructor; assumption.
Qed.

Lemma filter_population_Ok self population w survivors w' :
  filter_population self population w = Ok survivors w' ->
  exists evs,
    w' = with_log w evs /\
    count_updates evs = 0%nat /\ count_filters evs = 1%nat /\
    Forall (live w') survivors.
Proof.
  unfold filter_population. intros H.
  step_in H as t w1 He. unfold emit in He. inv_ok He.
  step_in H as r w2 Hloop. apply filter_loop_Ok in Hloop.
  destruct Hloop as (evs & kept & -> & Hevs & -> & Hkept).
  step_in H as t' w3 He. unfold emit in He. inv_ok He. inv_ok H.
  exists ([Debug "filter_population: START"] ++ evs ++ [Debug "filter_population: END"]).
  destruct (count_debug_at evs Hevs) as [Hu Hf].
  split; [| split; [| split]].
  - unfold with_log. cbn. now rewrite <- !app_assoc.
  - rewrite !count_updates_app, Hu. reflexivity.
  - rewrite !count_filters_app, Hf. reflexivity.
  - exact Hkept.
Qed.

Lemma insert_sorted_Ok a l :
  forall w r w', insert_sorted a l w = Ok r w' -> w' = w.
Proof.
  induction l as [| b l IH]; intros w r w' H; cbn [insert_sorted] in H.
  - now inv_ok H.
  - step_in H as less w1 Hlt. apply lt_sol_Ok in Hlt. destruct Hlt as [-> _].
    destruct less; [| now inv_ok H].
    step_in H as rest w2 Hrest. apply IH in Hrest. subst. now inv_ok H.
Qed.

Lemma sorted_Ok l : forall w r w', sorted l w = Ok r w' -> w' = w.
Proof.
  induction l as [| a l IH]; intros w r w' H; cbn [sorted] in H.
  - now inv_ok H.
  - step_in H as rest w1 Hrest. apply IH in Hrest. subst.
    eapply insert_sorted_Ok, H.
Qed.

Lemma get_elites_Ok population size w elites w' :
  Forall (live w) population ->
  get_elites population (PyInt size) w = Ok elites w' ->
  w' = w /\
  0 <= size <= Z.of_nat (length population) /\
  elites = firstn (Z.to_nat size) (sort_by (lt_at w) population).
Proof.
  intros Hlive. unfold get_elites.
  destruct ((0 <=? size) && (size <=? Z.of_nat (length population))) eqn:E;
    cbn [negb]; [| discriminate].
  apply andb_true_iff in E. intros H.
  rewrite (bind_step _ _ _ _ _ (sorted_live w population Hlive)) in H.
  inv_ok H. split; [reflexivity |]. split; [lia | reflexivity].
Qed.

Lemma quiet_refl w : quiet w w.
Proof. split; [reflexivity | lia]. Qed.

Lemma quiet_trans w1 w2 w3 : quiet w1 w2 -> quiet w2 w3 -> quiet w1 w3.
Proof. intros [L1 S1] [L2 S2]. split; [congruence | lia]. Qed.

Ltac quiet_by lem :=
  apply lem;
  first [ exact I | exact quiet_refl | exact quiet_trans
        | intros; split; cbn; [reflexivity | lia] ].

Lemma get_mutants_quiet retries self population size :
  preserves quiet True (get_mutants retries self population size).
Proof. quiet_by preserves_get_mutants. Qed.

Lemma get_mutants_loop_quiet rounds retries self population size acc :
  preserves quiet True (get_mutants_loop rounds retries self population size acc).
Proof. quiet_by preserves_get_mutants_loop. Qed.

Lemma mutate_population_transformed_quiet self population :
  preserves quiet True (_mutate_population_transformed self population).
Proof. quiet_by preserves_mutate_population_transformed. Qed.

Lemma generate_population_quiet self n :
  preserves quiet True (generate_population self n).
Proof. quiet_by preserves_generate_population. Qed.

Lemma transform_population_back_fresh self population :
  forall w r w',
    _transform_population_back self population w = Ok r w' ->
    Forall (fun m => (length (sols w) <= m)%nat) r.
Proof.
  unfold _transform_population_back.
  induction population as [| sol population IH]; intros w r w' H; cbn [mapM] in H.
  - inv_ok H. constructor.
  - step_in H as t w1 Ht. step_in H as rest w2 Hrest. inv_ok H.
    apply transform_solution_back_Ok in Ht. destruct Ht as (-> & s & g & _ & ->).
    apply IH in Hrest. constructor; [lia |].
    eapply Forall_impl; [exact Hrest |]. cbn. intros m. rewrite length_app. lia.
Qed.

Lemma get_mutants_Ok retries self population k w mutants w' :
  get_mutants retries self population (PyInt k) w = Ok mutants w' ->
  0 <= k /\
  length mutants = Z.to_nat k /\
  log w' = log w /\
  Forall (fun m => (length (sols w) <= m)%nat) mutants.
Proof.
  intros H. pose proof (get_mutants_quiet retries self population (PyInt k) w) as Hq.
  rewrite H in Hq. destruct Hq as [Hlog _].
  unfold get_mutants in H. destruct (_ <? 3)%nat; [discriminate |].
  destruct (k <? 0) eqn:Hk; [discriminate |]. apply Z.ltb_ge in Hk.
  step_in H as pn w1 Hloop. cbv zeta in H. step_in H as pm w2 Hmut.
  pose proof (get_mutants_loop_quiet (Z.to_nat k) retries self population
                (Z.to_nat k) [] w) as Hl.
  rewrite Hloop in Hl. destruct Hl as [_ Hs1].
  pose proof (mutate_population_transformed_quiet self
                (firstn (Z.to_nat k) pn) w1) as Hm.
  rewrite Hmut in Hm. destruct Hm as [_ Hs2].
  pose proof (transform_population_back_fresh _ _ _ _ _ H) as Hfresh.
  apply mapM_length in H. apply mutate_population_transformed_length in Hmut.
  apply get_mutants_loop_length in Hloop.
  split; [exact Hk |]. split; [rewrite H, Hmut, length_firstn; lia |].
  split; [exact Hlog |].
  eapply Forall_impl; [exact Hfresh |]. cbn. intros m. lia.
Qed.




(** * Further properties of the operations *)

(** ** What construction establishes *)

Lemma existsb_false_Forall {A} (f : A -> bool) (P : A -> Prop) l :
  (forall a, f a = false -> P a) -> existsb f l = false -> Forall P l.
Proof.
  intros HP. induction l as [| a l IH]; cbn; [constructor |].
  intros H. apply orb_false_iff in H. destruct H as [Ha Hl].
  constructor; auto.
Qed.

Lemma masked_lower_unmasked rows n : masked_lower rows (repeat false n) = [].
Proof.
  revert n. induction rows as [| [lo hi] rows IH]; intros [| n]; cbn; auto.
Qed.

Lemma Forall_repeat {A} (P : A -> Prop) a n : P a -> Forall P (repeat a n).
Proof. intros Ha. induction n; cbn; constructor; auto. Qed.

Lemma asfarray_2d_nonempty bs rows : asfarray_2d bs = Some rows -> rows <> [].
Proof.
  destruct bs as [| [| lo [| hi [| x r]]] bs]; cbn; try discriminate.
  destruct (as_rows bs); intros [= <-]; discriminate.
Qed.

(** What [__init__] has established when it returns, for bounds handed over
    as a nested list of numbers. *)
Lemma init_Ok (a : init_args) (w : world) (ga : GA) (w' : world) :
  __init__ a w = Ok ga w' ->
  exists rows,
    asfarray_2d (arg_bounds a) = Some rows /\ rows <> [] /\
    Forall (fun b => (fst b < snd b)%Q) rows /\
    _bounds ga = length (arrays w) /\
    _bounds_transformed ga = S (length (arrays w)) /\
    arrays w' =
      arrays w ++
      [rows;
       snd (transform_genes_bounds (map fst rows) rows (_gammas ga)
              (_mask_log10_scale ga))] /\
    sols w' = sols w /\ vals w' = vals w /\ log w' = log w /\
    _n_genes ga = length rows /\
    length (_mask_log10_scale ga) = length rows /\
    length (_gammas ga) = length rows /\
    Forall (fun lo => (0 < lo)%Q) (masked_lower rows (_mask_log10_scale ga)) /\
    (0 < _gamma_default ga)%Q /\
    Forall (fun g => (0 < g)%Q) (_gammas ga) /\
    (0 <= _mutation_rate ga <= 1)%Q /\
    (0 <= _crossover_rate ga <= 1)%Q /\
    2 <= _selection_force ga.
Proof.
  unfold __init__. intros H.
  destruct (arg_SolutionSubclass a); [| discriminate].
  destruct (asfarray_2d (arg_bounds a)) as [rows |] eqn:Hrows; [| discriminate].
  destruct (existsb _ rows) eqn:Hord; [discriminate |].
  step_in H as b0 w1 Hb0. unfold new_array in Hb0. inv_ok Hb0.
  cbv zeta in H.
  step_in H as mask w2 Hmask. step_in H as gd w3 Hgd. step_in H as gs w4 Hgs.
  step_in H as b1 w5 Hb1. unfold new_array in Hb1. inv_ok Hb1.
  destruct (negb (Qleb 0 (arg_mutation_rate a) && _)) eqn:Hmr; [discriminate |].
  destruct (negb (Qleb 0 (arg_crossover_rate a) && _)) eqn:Hcr; [discriminate |].
  destruct (arg_selection_force a) as [| force | | | | |]; try discriminate.
  destruct (force <? 2) eqn:Hforce; [discriminate |].
  step_in H as keys w6 Hkeys. step_in H as u w7 Hrng.
  (* the mask *)
  assert (Hm : w2 = mkWorld (sols w) (vals w) (arrays w ++ [rows]) (rng w) (log w) /\
               length mask = length rows /\
               Forall (fun lo => (0 < lo)%Q) (masked_lower rows mask)).
  { destruct (arg_mask_log10_scale a) as [m |].
    - destruct (negb _) eqn:Hl; [discriminate |].
      destruct (existsb _ (masked_lower rows m)) eqn:Hpos; [discriminate |].
      inv_ok Hmask. apply negb_false_iff, Nat.eqb_eq in Hl.
      split; [reflexivity |]. split; [exact Hl |].
      eapply existsb_false_Forall; [| exact Hpos].
      intros lo Hlo. now apply Qleb_false.
    - inv_ok Hmask. split; [reflexivity |]. split; [apply repeat_length |].
      rewrite masked_lower_unmasked. constructor. }
  destruct Hm as (-> & Hmlen & Hmpos).
  (* the default gamma *)
  assert (Hg : w3 = mkWorld (sols w) (vals w) (arrays w ++ [rows]) (rng w) (log w) /\
               (0 < gd)%Q).
  { destruct (arg_gamma_default a) as [g |].
    - destruct (Qleb g 0) eqn:Hpos; [discriminate |]. inv_ok Hgd.
      split; [reflexivity | now apply Qleb_false].
    - inv_ok Hgd. split; [reflexivity | reflexivity]. }
  destruct Hg as (-> & Hgdpos).
  (* the gammas *)
  assert (Hgg : w4 = mkWorld (sols w) (vals w) (arrays w ++ [rows]) (rng w) (log w) /\
                length gs = length rows /\ Forall (fun g => (0 < g)%Q) gs).
  { destruct (arg_gammas a) as [l |].
    - destruct (negb _) eqn:Hl; [discriminate |].
      destruct (existsb nonpositive l) eqn:Hpos; [discriminate |].
      inv_ok Hgs. apply negb_false_iff, Nat.eqb_eq in Hl.
      split; [reflexivity |]. split; [now rewrite length_map |].
      apply Forall_map.
      eapply existsb_false_Forall; [| exact Hpos].
      intros [q |] Hq; cbn in *; [now apply Qleb_false | exact Hgdpos].
    - inv_ok Hgs. split; [reflexivity |]. split; [apply repeat_length |].
      now apply Forall_repeat. }
  destruct Hgg as (-> & Hgslen & Hgspos).
  assert (Hw : sols w7 = sols w /\ vals w7 = vals w /\ log w7 = log w /\
               arrays w7 = arrays w ++
                 [rows; snd (transform_genes_bounds (map fst rows) rows gs mask)]).
  { assert (Hk : w6 = mkWorld (sols w) (vals w)
                        ((arrays w ++ [rows]) ++
                         [snd (transform_genes_bounds (map fst rows) rows gs mask)])
                        (rng w) (log w)).
    { destruct (arg_keys_data_transmit a) as [[ks |] |];
        try discriminate; now inv_ok Hkeys. }
    subst w6.
    destruct (arg_rng a) as [[g |] |]; try discriminate;
      [unfold seed in Hrng |]; inv_ok Hrng; cbn;
      rewrite <- app_assoc; auto. }
  destruct Hw as (Hs & Hv & Hl & Ha).
  unfold ret in H. injection H as <- <-.
  cbn [_bounds _bounds_transformed _n_genes _mask_log10_scale _gammas
       _gamma_default _mutation_rate _crossover_rate _selection_force].
  apply negb_false_iff, andb_true_iff in Hmr, Hcr.
  unfold Qleb in Hmr, Hcr. rewrite !Qle_bool_iff in Hmr, Hcr.
  exists rows. cbn [arrays] . rewrite length_app. cbn [length].
  repeat (split; [first [ assumption | reflexivity | lia ] |]).
  split.
  - eapply asfarray_2d_nonempty, Hrows.
  - split.
    + eapply existsb_false_Forall; [| exact Hord].
      intros b Hb. now apply Qleb_false.
    + repeat (split; [first [ assumption | reflexivity | lia ] |]).
      apply Z.ltb_ge in Hforce. lia.
Qed.

(** X1: an engine that [__init__] returns has the shape its checks are
    there for, whatever the arguments were: at least one gene; one mask
    entry and one gamma per gene; the rates it was given, both in [0, 1]; the
    selection force it was given, an integer of at least 2.  Construction
    leaves every solution object, every payload object and the log as they
    were. *)
Theorem init_establishes_invariants (a : init_args) (w : world) (ga : GA)
    (w' : world) :
  __init__ a w = Ok ga w' ->
  (0 < _n_genes ga)%nat /\
  length (_mask_log10_scale ga) = _n_genes ga /\
  length (_gammas ga) = _n_genes ga /\
  _mutation_rate ga = arg_mutation_rate a /\
  (0 <= _mutation_rate ga <= 1)%Q /\
  _crossover_rate ga = arg_crossover_rate a /\
  (0 <= _crossover_rate ga <= 1)%Q /\
  arg_selection_force a = PyInt (_selection_force ga) /\
  2 <= _selection_force ga /\
  sols w' = sols w /\ vals w' = vals w /\ log w' = log w.
Proof.
  intros H.
  destruct (init_Ok a w ga w' H)
    as (rows & _ & Hne & _ & _ & _ & _ & Hs & Hv & Hl & Hn & Hm & Hg & _ & _ & _
        & Hmr & Hcr & Hf).
  assert (Hsame : _mutation_rate ga = arg_mutation_rate a /\
                  _crossover_rate ga = arg_crossover_rate a /\
                  arg_selection_force a = PyInt (_selection_force ga)).
  { clear - H. unfold __init__ in H.
    unfold bind, ret, raise, new_array, seed in H.
    repeat match type of H with
           | context [match ?x with _ => _ end] =>
               lazymatch x with
               | context [match _ with _ => _ end] => fail
               | _ => destruct x eqn:?; try discriminate H
               end
           end;
      injection H as <- _; cbn; auto. }
  destruct Hsame as (Emr & Ecr & Ef).
  rewrite Hn, Hm, Hg.
  split; [destruct rows; [now destruct Hne | cbn [length]; lia] |].
  repeat (split; [first [assumption | reflexivity] |]). assumption.
Qed.

(** X16: for bounds handed over as a nested list of numbers, none of them a
    NaN, and a default gamma that is a number, an engine that [__init__]
    returns holds what the checks on the values are there for: the rows of
    the bounds, each with lower < upper, are stored in a new array, with the
    cached transformed bounds in a second new array next to it; every lower
    bound under the log-scale mask is positive; the default gamma and every
    gamma (a NaN among the gammas replaced by the default) are positive. *)
Theorem init_checks_values (a : init_args) (w : world) (ga : GA) (w' : world) :
  __init__ a w = Ok ga w' ->
  exists rows,
    asfarray_2d (arg_bounds a) = Some rows /\
    _n_genes ga = length rows /\
    Forall (fun b => (fst b < snd b)%Q) rows /\
    _bounds ga = length (arrays w) /\
    _bounds_transformed ga = S (length (arrays w)) /\
    arrays w' =
      arrays w ++
      [rows;
       snd (transform_genes_bounds (map fst rows) rows (_gammas ga)
              (_mask_log10_scale ga))] /\
    Forall (fun lo => (0 < lo)%Q) (masked_lower rows (_mask_log10_scale ga)) /\
    (0 < _gamma_default ga)%Q /\
    Forall (fun g => (0 < g)%Q) (_gammas ga).
Proof.
  intros H.
  destruct (init_Ok a w ga w' H)
    as (rows & Hrows & _ & Hord & Hb & Hbt & Ha & _ & _ & _ & Hn & _ & _ & Hlo
        & Hgd & Hgs & _).
  exists rows. repeat (split; [assumption |]). assumption.
Qed.

Ltac walk_init H :=
  unfold __init__ in H |- *;
  cbn [with_class with_mutation_rate with_selection_force with_keys with_rng
       arg_SolutionSubclass arg_bounds arg_gammas arg_gamma_default
       arg_mask_log10_scale arg_mutation_rate arg_crossover_rate
       arg_selection_force arg_keys_data_transmit arg_rng] in H |- *;
  unfold bind, ret, raise, new_array, seed in H |- *;
  repeat match type of H with
         | context [match ?x with _ => _ end] =>
             lazymatch x with
             | context [match _ with _ => _ end] => fail
             | _ => destruct x eqn:?; try discriminate H
             end
         end.

(** X2: every check of [__init__] is fatal on its own.  Take any
    configuration an engine was built from and replace one argument: a class
    that is no Solution subclass raises [TypeError] before anything is
    allocated; a mutation rate outside [0, 1] raises [ValueError]; a
    selection force that is not an integer raises [TypeError] and an integer
    below 2 [ValueError]; a payload-key argument that is neither list nor
    tuple, and a random source that is no generator, raise [TypeError]. *)
Theorem init_rejects_one_bad_argument (a : init_args) (w : world) (ga : GA)
    (w' : world) :
  __init__ a w = Ok ga w' ->
  __init__ (with_class a NotSubclassOfSolution) w = Raise TypeError w /\
  (forall q, ~ (0 <= q <= 1)%Q ->
     exists w1, __init__ (with_mutation_rate a q) w = Raise ValueError w1) /\
  (forall v, (forall z, v <> PyInt z) ->
     exists w1, __init__ (with_selection_force a v) w = Raise TypeError w1) /\
  (forall z, z < 2 ->
     exists w1,
       __init__ (with_selection_force a (PyInt z)) w = Raise ValueError w1) /\
  (exists w1, __init__ (with_keys a (Some KeysOther)) w = Raise TypeError w1) /\
  (exists w1, __init__ (with_rng a (Some RngOther)) w = Raise TypeError w1).
Proof.
  intros H. split; [reflexivity |]. split; [| split; [| split; [| split]]].
  - intros q Hq.
    assert (Hb : Qleb 0 q && Qleb q 1 = false).
    { apply not_true_is_false. intros Hb. apply andb_true_iff in Hb.
      unfold Qleb in Hb. rewrite !Qle_bool_iff in Hb. contradiction. }
    walk_init H; rewrite Hb; cbn; eauto.
  - intros v Hv. walk_init H; destruct v; try (eexists; reflexivity);
      now destruct (Hv z0).
  - intros z Hz. apply Z.ltb_lt in Hz. walk_init H; rewrite Hz; eauto.
  - walk_init H; eauto.
  - walk_init H; eauto.
Qed.

(** ** generate_population *)

Lemma read_sol_live l w s : sols w !! l = Some s -> read_sol l w = Ok s w.
Proof. unfold read_sol. now intros ->. Qed.

Lemma draw_genes_Ok (cached : ndarray2) l :
  forall w,
    Forall (fun i => (i < length cached)%nat) l ->
    exists genes g,
      mapM (fun i => match cached !! i with
                     | Some b => draw (random_value_from_bounds b)
                     | None => raise IndexError
                     end) l w
      = Ok genes (mkWorld (sols w) (vals w) (arrays w) g (log w)).
Proof.
  induction l as [| i l IH]; intros w Hl; cbn [mapM].
  - exists [], (rng w). destruct w; reflexivity.
  - inversion Hl as [| ? ? Hi Hl']; subst.
    destruct (lookup_lt_is_Some_2 cached i Hi) as [b Hb]. unfold ndarray2 in *. rewrite Hb.
    unfold bind at 1. unfold draw at 1.
    destruct (random_value_from_bounds b (rng w)) as [v g1].
    destruct (IH (mkWorld (sols w) (vals w) (arrays w) g1 (log w)) Hl')
      as (genes & g & Hrest).
    unfold bind at 1. rewrite Hrest. cbn [sols vals arrays rng log].
    exists (v :: genes), g. reflexivity.
Qed.

Lemma read_array_live l w a : arrays w !! l = Some a -> read_array l w = Ok a w.
Proof. unfold read_array. now intros ->. Qed.

Lemma transform_genes_back_live self genes w raw cached :
  arrays w !! _bounds self = Some raw ->
  arrays w !! _bounds_transformed self = Some cached ->
  _transform_genes_back self genes w
  = Ok (transform_genes_bounds_back genes cached raw (_mask_log10_scale self)) w.
Proof.
  intros Hraw Hcached. unfold _transform_genes_back.
  rewrite (bind_step _ _ _ _ _ (read_array_live _ _ _ Hcached)).
  now rewrite (bind_step _ _ _ _ _ (read_array_live _ _ _ Hraw)).
Qed.

Lemma generate_solution_Ok self w :
  engine_ok self w ->
  exists genes g,
    generate_solution self w
    = Ok (length (sols w))
         (mkWorld (sols w ++ [mkSolution genes None []]) (vals w) (arrays w) g
                  (log w)).
Proof.
  intros (raw & cached & Hraw & Hcached & Hlen).
  unfold generate_solution.
  rewrite (bind_step _ _ _ _ _ (read_array_live _ _ _ Hcached)).
  destruct (draw_genes_Ok cached (seq 0 (_n_genes self)) w) as (gt & g & Hgt).
  { apply List.Forall_forall. intros i Hi. apply in_seq in Hi. lia. }
  rewrite (bind_step _ _ _ _ _ Hgt).
  set (w1 := mkWorld _ _ _ g _).
  assert (Hc1 : arrays w1 !! _bounds_transformed self = Some cached) by exact Hcached.
  assert (Hr1 : arrays w1 !! _bounds self = Some raw) by exact Hraw.
  rewrite (bind_step _ _ _ _ _ (transform_genes_back_live _ _ _ _ _ Hr1 Hc1)).
  unfold ret, construct, new_sol. eauto.
Qed.

Lemma generate_solutions_Ok self {A} (l : list A) :
  forall w,
    engine_ok self w ->
    exists ss g,
      mapM (fun _ => generate_solution self) l w
      = Ok (seq (length (sols w)) (length l))
           (mkWorld (sols w ++ ss) (vals w) (arrays w) g (log w)) /\
      length ss = length l /\ Forall blank ss.
Proof.
  induction l as [| a l IH]; intros w Hok; cbn [mapM length seq].
  - exists [], (rng w). rewrite app_nil_r. destruct w. repeat split. constructor.
  - destruct (generate_solution_Ok self w Hok) as (genes & g1 & Hone).
    rewrite (bind_step _ _ _ _ _ Hone).
    match goal with
    | |- context [bind (mapM _ l) _ ?w1] =>
        destruct (IH w1) as (ss & g & Hrest & Hlen & Hblank); [exact Hok |]
    end.
    rewrite (bind_step _ _ _ _ _ Hrest). cbn [sols vals arrays rng log ret].
    exists (mkSolution genes None [] :: ss), g.
    rewrite length_app, <- app_assoc. cbn [length app].
    replace (length (sols w) + 1)%nat with (S (length (sols w))) by lia.
    split; [reflexivity |]. split; [now rewrite Hlen |].
    constructor; [split; reflexivity | exact Hblank].
Qed.

(** X3: an engine whose two arrays exist, the cached one with a row per
    gene, generates any number of solutions without error.  The [n]
    solutions of [generate_population] are [n] new objects, in the order
    they were made; each has no fitness and no payload; nothing else of the
    world changes but the random source. *)
Theorem generate_population_fresh (self : GA) (n : nat) (w : world) :
  engine_ok self w ->
  exists ss g,
    generate_population self n w
    = Ok (seq (length (sols w)) n)
         (mkWorld (sols w ++ ss) (vals w) (arrays w) g (log w)) /\
    length ss = n /\ Forall blank ss.
Proof.
  intros Hok. unfold generate_population.
  destruct (generate_solutions_Ok self (seq 0 n) w Hok) as (ss & g & H & Hlen & Hb).
  rewrite length_seq in H, Hlen. eauto.
Qed.

(** ** Operations that only allocate *)

Lemma only_allocates_refl w : only_allocates w w.
Proof.
  repeat split; try (exists []; now rewrite app_nil_r).
Qed.

Lemma only_allocates_trans w1 w2 w3 :
  only_allocates w1 w2 -> only_allocates w2 w3 -> only_allocates w1 w3.
Proof.
  intros ([ss1 S1] & [vs1 V1] & A1 & L1) ([ss2 S2] & [vs2 V2] & A2 & L2).
  split; [exists (ss1 ++ ss2); rewrite S2, S1; now rewrite app_assoc |].
  split; [exists (vs1 ++ vs2); rewrite V2, V1; now rewrite app_assoc |].
  split; congruence.
Qed.

Lemma only_allocates_rng w g :
  only_allocates w (mkWorld (sols w) (vals w) (arrays w) g (log w)).
Proof. repeat split; try (exists []; cbn; now rewrite app_nil_r). Qed.

Lemma only_allocates_vals w v :
  only_allocates w (mkWorld (sols w) (vals w ++ [v]) (arrays w) (rng w) (log w)).
Proof.
  split; [exists []; cbn; now rewrite app_nil_r |].
  split; [now exists [v] |]. split; reflexivity.
Qed.

Lemma only_allocates_sol w s :
  only_allocates w (mkWorld (sols w ++ [s]) (vals w) (arrays w) (rng w) (log w)).
Proof.
  split; [now exists [s] |].
  split; [exists []; cbn; now rewrite app_nil_r |]. split; reflexivity.
Qed.

Ltac allocates_by lem :=
  apply lem;
  first [ exact I | exact only_allocates_refl | exact only_allocates_trans
        | exact only_allocates_rng | exact only_allocates_vals ].

Ltac allocates_bind :=
  apply preserves_bind; [exact only_allocates_trans | | intros ?].

Lemma allocates_ret T {A} (a : A) : preserves only_allocates T (ret a).
Proof. intros w. apply only_allocates_refl. Qed.

Lemma allocates_read_sol T l : preserves only_allocates T (read_sol l).
Proof. allocates_by preserves_read_sol. Qed.

Lemma allocates_new_sol T s : preserves only_allocates T (new_sol s).
Proof. intros w. apply only_allocates_sol. Qed.

(** A new object and the assignment of its fitness. *)
Lemma allocates_construct_set_y T genes data y :
  preserves only_allocates T
    (sol <- construct genes data ;; set_y sol y ;;; ret sol).
Proof.
  intros w. unfold construct, new_sol, set_y. unfold bind, read_sol, write_sol, ret.
  cbn [sols vals arrays rng log]. rewrite lookup_snoc.
  cbn [sols vals arrays rng log]. rewrite insert_snoc.
  apply only_allocates_sol.
Qed.

Lemma allocates_transform_solution T self sol :
  preserves only_allocates T (_transform_solution self sol).
Proof.
  unfold _transform_solution. allocates_bind; [apply allocates_read_sol |].
  allocates_bind; [allocates_by preserves_transform_genes |].
  apply allocates_construct_set_y.
Qed.

Lemma allocates_transform_solution_back T self sol :
  preserves only_allocates T (_transform_solution_back self sol).
Proof.
  unfold _transform_solution_back. allocates_bind; [apply allocates_read_sol |].
  allocates_bind; [allocates_by preserves_transform_genes_back |].
  apply allocates_construct_set_y.
Qed.

Lemma allocates_mapM T {A B} (f : A -> M B) l :
  (forall a, preserves only_allocates T (f a)) ->
  preserves only_allocates T (mapM f l).
Proof.
  apply preserves_mapM; [exact only_allocates_refl | exact only_allocates_trans].
Qed.

(** Writing the payload entries of the object [child], which exists: whatever
    the outcome, no other solution object changes. *)
Lemma transmit_writes_child parent child keys :
  forall w,
    (child < length (sols w))%nat ->
    match forM (fun key =>
                  v <- getitem parent key ;;
                  c <- deepcopy_val v ;;
                  setitem child key c) keys w with
    | Ok _ w' | Raise _ w' =>
        (exists sc, sols w' = <[child := sc]> (sols w)) /\
        (exists vs, vals w' = vals w ++ vs) /\
        arrays w' = arrays w /\ log w' = log w
    | Timeout => False
    end.
Proof.
  assert (Hsame : forall w : world, (child < length (sols w))%nat ->
            (exists sc, sols w = <[child := sc]> (sols w)) /\
            (exists vs, vals w = vals w ++ vs) /\
            arrays w = arrays w /\ log w = log w).
  { intros w Hlt. destruct (lookup_lt_is_Some_2 _ _ Hlt) as [sc Hsc].
    split; [exists sc; now rewrite list_insert_id |].
    split; [exists []; now rewrite app_nil_r |]. split; reflexivity. }
  induction keys as [| key keys IH]; intros w Hlt; cbn [forM].
  - now apply Hsame.
  - unfold bind at 1. unfold bind at 1. unfold getitem at 1. unfold bind at 1.
    unfold read_sol at 1.
    destruct (sols w !! parent) as [sp |]; [| now apply Hsame].
    destruct (dict_get (sol_data sp) key) as [v |]; [| now apply Hsame].
    cbn [ret]. unfold bind at 1. unfold deepcopy_val at 1. unfold bind at 1.
    unfold read_val at 1.
    destruct (vals w !! v) as [p |]; [| now apply Hsame].
    unfold new_val at 1. unfold setitem at 1. unfold bind at 1.
    unfold read_sol at 1. cbn [sols vals arrays rng log].
    destruct (lookup_lt_is_Some_2 _ _ Hlt) as [sc Hsc]. rewrite Hsc.
    unfold write_sol at 1. cbn [sols vals arrays rng log].
    match goal with
    | |- context [forM _ keys ?w1] =>
        pose proof (IH w1) as IH'; cbn [sols vals arrays rng log] in IH';
        rewrite length_insert in IH'; specialize (IH' Hlt);
        destruct (forM _ keys w1) as [u w' | e w' |]; [| | exact IH']
    end;
      destruct IH' as ([sc' Hs] & [vs Hv] & Ha & Hl);
      (split; [exists sc'; rewrite Hs; apply list_insert_insert_eq |]);
      (split; [exists ([p] ++ vs); rewrite Hv; now rewrite <- app_assoc |]);
      split; assumption.
Qed.

(** A child of the crossover branch: a new object that receives payload. *)
Lemma allocates_child T self t genes :
  preserves only_allocates T
    (child <- construct genes [] ;;
     _transmit_solution_data self t child ;;;
     ret child).
Proof.
  intros w. unfold bind at 1. unfold construct, new_sol.
  unfold bind at 1. unfold _transmit_solution_data.
  match goal with
  | |- context [forM ?f ?keys ?w1] =>
      pose proof (transmit_writes_child t (length (sols w)) keys w1) as H;
      cbn [sols vals arrays rng log] in H;
      rewrite length_app in H; cbn [length] in H;
      specialize (H ltac:(lia));
      destruct (forM f keys w1) as [u w' | e w' |]; [| | destruct H]
  end;
    destruct H as ([sc Hs] & Hv & Ha & Hl);
    cbn [ret]; rewrite insert_snoc in Hs;
    (split; [exists [sc]; exact Hs |]); (split; [exact Hv |]); split; assumption.
Qed.

Lemma allocates_crossover_children T self p1 p2 :
  preserves only_allocates T (crossover_children self p1 p2).
Proof.
  unfold crossover_children.
  allocates_bind; [apply allocates_read_sol |].
  allocates_bind; [apply allocates_read_sol |].
  allocates_bind; [allocates_by preserves_crossover |].
  allocates_bind; [allocates_by preserves_py_min |].
  apply allocates_mapM. intros genes. apply allocates_child.
Qed.

Lemma allocates_deepcopy_sol T sol : preserves only_allocates T (deepcopy_sol sol).
Proof.
  unfold deepcopy_sol. allocates_bind; [apply allocates_read_sol |].
  allocates_bind; [allocates_by preserves_deepcopy_data |].
  apply allocates_new_sol.
Qed.

Lemma allocates_clone_children T p1 p2 :
  preserves only_allocates T (clone_children p1 p2).
Proof.
  unfold clone_children. allocates_bind; [apply allocates_deepcopy_sol |].
  allocates_bind; [apply allocates_deepcopy_sol |]. apply allocates_ret.
Qed.

Lemma allocates_get_mutants_round retries self population :
  preserves only_allocates True (get_mutants_round retries self population).
Proof.
  unfold get_mutants_round.
  allocates_bind; [allocates_by preserves_getindex |].
  allocates_bind; [allocates_by preserves_select_parents |].
  allocates_bind; [apply allocates_transform_solution |].
  allocates_bind; [apply allocates_transform_solution |].
  allocates_bind; [allocates_by preserves_draw |].
  destruct (Qleb _ _);
    [apply allocates_crossover_children | apply allocates_clone_children].
Qed.

Lemma allocates_get_mutants_loop rounds retries self population size :
  forall population_new,
    preserves only_allocates True
      (get_mutants_loop rounds retries self population size population_new).
Proof.
  induction rounds as [| rounds IH]; intros acc; cbn [get_mutants_loop];
    destruct (_ <? _)%nat; try apply allocates_ret.
  - intros w. exact I.
  - allocates_bind; [apply allocates_get_mutants_round | apply IH].
Qed.

Lemma allocates_mutate_population_transformed T self population :
  preserves only_allocates T (_mutate_population_transformed self population).
Proof.
  unfold _mutate_population_transformed, cauchy_mutation_population.
  allocates_bind; [allocates_by preserves_read_array |].
  apply allocates_mapM. intros sol.
  allocates_bind; [apply allocates_read_sol |].
  allocates_bind; [allocates_by preserves_draw | apply allocates_new_sol].
Qed.

Lemma allocates_transform_population_back T self population :
  preserves only_allocates T (_transform_population_back self population).
Proof.
  apply allocates_mapM. intros sol. apply allocates_transform_solution_back.
Qed.

Lemma allocates_get_mutants retries self population size :
  preserves only_allocates True (get_mutants retries self population size).
Proof.
  unfold get_mutants.
  destruct (_ <? 3)%nat; [intros w; apply only_allocates_refl |].
  destruct size; try (intros w; apply only_allocates_refl).
  destruct (_ <? 0); [intros w; apply only_allocates_refl |].
  allocates_bind; [apply allocates_get_mutants_loop |]. cbv zeta.
  allocates_bind; [apply allocates_mutate_population_transformed |].
  apply allocates_transform_population_back.
Qed.

Lemma allocates_mutate_population self population :
  preserves only_allocates False (mutate_population self population).
Proof.
  unfold mutate_population.
  destruct (negb _); [intros w; apply only_allocates_refl |].
  allocates_bind.
  - unfold _transform_population. allocates_bind.
    + destruct population as [[] |]; intros w; apply only_allocates_refl.
    + apply allocates_mapM. intros item. allocates_bind.
      * destruct item; intros w; apply only_allocates_refl.
      * apply allocates_transform_solution.
  - allocates_bind; [apply allocates_mutate_population_transformed |].
    apply allocates_transform_population_back.
Qed.

Lemma allocates_generate_population self n :
  preserves only_allocates False (generate_population self n).
Proof.
  unfold generate_population. apply allocates_mapM. intros _.
  unfold generate_solution.
  allocates_bind; [allocates_by preserves_read_array |].
  allocates_bind.
  - apply allocates_mapM. intros i. destruct (_ !! i).
    + allocates_by preserves_draw.
    + intros w. apply only_allocates_refl.
  - allocates_bind; [allocates_by preserves_transform_genes_back |].
    apply allocates_new_sol.
Qed.

Lemma only_allocates_length w w' :
  only_allocates w w' -> (length (sols w) <= length (sols w'))%nat.
Proof. intros ([ss ->] & _). rewrite length_app. lia. Qed.

Lemma transform_population_back_seq self population :
  forall w r w',
    _transform_population_back self population w = Ok r w' ->
    r = seq (length (sols w)) (length population) /\
    length (sols w') = (length (sols w) + length population)%nat.
Proof.
  unfold _transform_population_back.
  induction population as [| sol population IH]; intros w r w' H; cbn [mapM] in H.
  - inv_ok H. cbn. split; [reflexivity | lia].
  - step_in H as t w1 Ht. step_in H as rest w2 Hrest. inv_ok H.
    apply transform_solution_back_Ok in Ht. destruct Ht as (-> & s & g & _ & ->).
    apply IH in Hrest. destruct Hrest as [-> Hlen].
    cbn [add_sol sols] in *. rewrite length_app in *. cbn [length seq] in *.
    replace (length (sols w) + 1)%nat with (S (length (sols w))) by lia.
    split; [reflexivity | lia].
Qed.

Lemma seq_fresh w w' n k :
  (length (sols w) <= n)%nat -> (n + k = length (sols w'))%nat ->
  NoDup (seq n k) /\ Forall (fun m => live w' m /\ ~ live w m) (seq n k).
Proof.
  intros Hn Hk. split; [apply NoDup_ListNoDup, seq_NoDup |].
  apply List.Forall_forall. intros m Hin. apply in_seq in Hin.
  unfold live. split.
  - apply lookup_lt_is_Some_2. lia.
  - intros Hlive. apply lookup_lt_is_Some_1 in Hlive. lia.
Qed.

Lemma get_mutants_seq retries self population size w mutants w' :
  get_mutants retries self population size w = Ok mutants w' ->
  exists n0,
    mutants = seq n0 (length mutants) /\
    (length (sols w) <= n0)%nat /\
    (n0 + length mutants = length (sols w'))%nat.
Proof.
  intros H. unfold get_mutants in H. destruct (_ <? 3)%nat; [discriminate |].
  destruct size as [| k | | | | |]; try discriminate.
  destruct (k <? 0); [discriminate |].
  step_in H as pn w1 Hloop. cbv zeta in H. step_in H as pm w2 Hmut.
  pose proof (allocates_get_mutants_loop (Z.to_nat k) retries self population
                (Z.to_nat k) [] w) as H1.
  rewrite Hloop in H1. apply only_allocates_length in H1.
  pose proof (allocates_mutate_population_transformed True self
                (firstn (Z.to_nat k) pn) w1) as H2.
  rewrite Hmut in H2. apply only_allocates_length in H2.
  apply transform_population_back_seq in H. destruct H as [Hseq Hlen].
  exists (length (sols w2)).
  assert (Hm : length mutants = length pm) by (rewrite Hseq; apply length_seq).
  rewrite Hm. split; [exact Hseq |]. split; lia.
Qed.

(** X10: [get_mutants] works on new objects only.  Whether it returns or
    raises, every solution and payload object that existed before the call
    is as it was, and neither the bounds arrays nor the log changed.  The
    mutants it returns are the last objects made during the call, one per
    position, so they are pairwise different instances and none of them is
    a member of the population they were bred from. *)
Theorem get_mutants_allocates (retries : nat) (self : GA)
    (population : list loc) (size : pyval) (w : world) :
  match get_mutants retries self population size w with
  | Ok mutants w' =>
      only_allocates w w' /\
      mutants = seq (length (sols w') - length mutants) (length mutants) /\
      (length (sols w) + length mutants <= length (sols w'))%nat /\
      NoDup mutants /\
      Forall (fun m => live w' m /\ ~ live w m) mutants
  | Raise _ w' => only_allocates w w'
  | Timeout => True
  end.
Proof.
  pose proof (allocates_get_mutants retries self population size w) as Hall.
  destruct (get_mutants retries self population size w) as [mutants w' | |] eqn:H;
    [| exact Hall | exact I].
  split; [exact Hall |].
  apply get_mutants_seq in H. destruct H as (n0 & Hseq & Hn0 & Hlen).
  replace (length (sols w') - length mutants)%nat with n0 by lia.
  split; [exact Hseq |]. split; [lia |].
  rewrite Hseq. now apply seq_fresh.
Qed.

(** ** mutate_population and mutate_solution *)

Lemma mutate_population_Ok self population w mutated w' :
  mutate_population self population w = Ok mutated w' ->
  exists items n0,
    accepted_items population = Some items /\
    length mutated = length items /\
    mutated = seq n0 (length items) /\
    (length (sols w) <= n0)%nat /\
    (n0 + length items = length (sols w'))%nat.
Proof.
  unfold mutate_population. intros H.
  destruct (negb _) eqn:Hchk; [discriminate |].
  step_in H as pt w1 Ht. step_in H as pm w2 Hm.
  pose proof (allocates_mutate_population_transformed True self pt w1) as H2.
  rewrite Hm in H2. apply only_allocates_length in H2.
  apply mutate_population_transformed_length in Hm.
  apply transform_population_back_seq in H. destruct H as [-> Hlen].
  unfold _transform_population in Ht. step_in Ht as items w0 Hit.
  assert (H1 : (length (sols w0) <= length (sols w1))%nat).
  { pose proof (allocates_mapM True
                  (fun item => sol <- as_solution item ;; _transform_solution self sol)
                  items) as Hall.
    specialize (Hall ltac:(intros item; apply preserves_bind;
                             [exact only_allocates_trans
                             | destruct item; intros ?; apply only_allocates_refl
                             | intros ?; apply allocates_transform_solution]) w0).
    rewrite Ht in Hall. now apply only_allocates_length. }
  apply mapM_length in Ht.
  destruct population as [[] |]; try discriminate; cbn [py_iter] in Hit;
    inv_ok Hit; exists items, (length (sols w2)); rewrite length_seq;
    repeat split; try congruence; try lia.
Qed.

(** X4: [mutate_population] leaves its argument alone.  Whether it returns
    or raises, every solution and payload object that existed is as it was
    and neither the arrays nor the log changed; it never exhausts a retry
    budget.  When it returns, the argument was a list or an instance of a
    subclass of [int] that can be iterated, and the result has one new
    object per item, in order: the last objects made by the call. *)
Theorem mutate_population_allocates (self : GA) (population : population_arg)
    (w : world) :
  match mutate_population self population w with
  | Ok mutated w' =>
      only_allocates w w' /\
      (exists items, accepted_items population = Some items /\
                     length mutated = length items) /\
      mutated = seq (length (sols w') - length mutated) (length mutated) /\
      NoDup mutated /\
      Forall (fun m => live w' m /\ ~ live w m) mutated
  | Raise _ w' => only_allocates w w'
  | Timeout => False
  end.
Proof.
  pose proof (allocates_mutate_population self population w) as Hall.
  destruct (mutate_population self population w) as [mutated w' | |] eqn:H;
    [| exact Hall | exact Hall].
  split; [exact Hall |].
  apply mutate_population_Ok in H.
  destruct H as (items & n0 & Hitems & Hlen & Hseq & Hn0 & Hend).
  split; [eauto |].
  replace (length (sols w') - length mutated)%nat with n0 by lia.
  rewrite Hlen. split; [exact Hseq |].
  rewrite Hseq. now apply seq_fresh.
Qed.

(** X5: [mutate_solution] checks the class of its argument, which
    [mutate_population] does not do for its items: everything that is not
    an instance of the solution class raises [TypeError] and leaves the
    world as it was.  On a solution it is [mutate_population] on the
    one-item list: the same error when that raises, else the one member of
    the list that returns, so the assertion on the length never fails. *)
Theorem mutate_solution_is_singleton_mutation (self : GA) (w : world) :
  (forall sol, (forall l, sol <> PySol l) ->
     mutate_solution self sol w = Raise TypeError w) /\
  (forall l,
     match mutate_population self (PyList [PySol l]) w with
     | Ok mutated w' =>
         exists m, mutated = [m] /\
                   mutate_solution self (PySol l) w = Ok m w'
     | Raise e w' => mutate_solution self (PySol l) w = Raise e w'
     | Timeout => False
     end).
Proof.
  split.
  - intros sol Hsol. destruct sol; try reflexivity. now destruct (Hsol l).
  - intros l. cbn [mutate_solution].
    pose proof (allocates_mutate_population self (PyList [PySol l]) w) as Hall.
    destruct (mutate_population self (PyList [PySol l]) w)
      as [mutated w' | e w' |] eqn:H; [| | exact Hall].
    + rewrite (bind_step _ _ _ _ _ H). apply mutate_population_Ok in H.
      destruct H as (items & n0 & [= <-] & Hlen & _).
      destruct mutated as [| m [| m' rest]]; try discriminate. eauto.
    + apply bind_raise, H.
Qed.

(** ** update_population *)

Lemma sol_update_live l s w :
  sols w !! l = Some s ->
  sol_update l w
  = Ok tt (mkWorld (<[l := update s]> (sols w)) (vals w) (arrays w) (rng w)
                   (log w ++ [Updated l])).
Proof.
  intros Hs. unfold sol_update.
  rewrite (bind_step _ _ _ _ _ (read_sol_live _ _ _ Hs)). reflexivity.
Qed.

Lemma update_population_live population :
  forall w,
    Forall (live w) population ->
    exists ss,
      update_population population w
      = Ok tt (mkWorld ss (vals w) (arrays w) (rng w)
                       (log w ++ map Updated population)) /\
      length ss = length (sols w) /\
      (forall l, ~ In l population -> ss !! l = sols w !! l) /\
      (NoDup population ->
       forall l s, In l population -> sols w !! l = Some s ->
                   ss !! l = Some (update s)).
Proof.
  unfold update_population.
  induction population as [| a population IH]; intros w Hlive; cbn [forM map].
  - exists (sols w). rewrite app_nil_r. destruct w.
    repeat split; try reflexivity. intros _ l s [].
  - inversion Hlive as [| ? ? [s Hs] Hlive']; subst.
    rewrite (bind_step _ _ _ _ _ (sol_update_live _ _ _ Hs)).
    match goal with |- context [forM _ population ?w1] => destruct (IH w1) as (ss & Hrun & Hlen & Hout & Hin) end.
    { eapply Forall_impl; [exact Hlive' |]. unfold live. cbn [sols].
      intros l Hl. apply lookup_lt_is_Some. rewrite length_insert.
      now apply lookup_lt_is_Some. }
    cbn [sols vals arrays rng log] in *. rewrite length_insert in Hlen.
    exists ss. rewrite Hrun, <- app_assoc. split; [reflexivity |].
    split; [exact Hlen |]. split.
    + intros l Hl. rewrite Hout by (intros Hl'; apply Hl; now right).
      apply list_lookup_insert_ne. intros ->. apply Hl. now left.
    + intros Hnd l s0 Hl Hs0. apply NoDup_cons in Hnd. destruct Hnd as [Ha Hnd].
      destruct Hl as [<- | Hl].
      * rewrite Hout by (intros Hl; apply Ha; now apply list_elem_of_In).
        rewrite Hs0 in Hs. injection Hs as ->.
        apply list_lookup_insert_eq. now apply lookup_lt_Some in Hs0.
      * apply (Hin Hnd l s0 Hl). rewrite list_lookup_insert_ne; [exact Hs0 |].
        intros ->. apply Ha. now apply list_elem_of_In.
Qed.

(** X6: [update_population] on a population of existing, pairwise different
    solutions returns, and what it leaves is known exactly: every member is
    replaced in place by the result of its own [update] hook, every other
    solution object is untouched, one call of the hook is recorded per member
    in the order of the population, and nothing else of the world changes. *)
Theorem update_population_evaluates (population : list loc) (w : world) :
  NoDup population ->
  Forall (live w) population ->
  exists ss,
    update_population population w
    = Ok tt (mkWorld ss (vals w) (arrays w) (rng w)
                     (log w ++ map Updated population)) /\
    length ss = length (sols w) /\
    (forall l s, In l population -> sols w !! l = Some s ->
                 ss !! l = Some (update s)) /\
    (forall l, ~ In l population -> ss !! l = sols w !! l).
Proof.
  intros Hnd Hlive.
  destruct (update_population_live population w Hlive)
    as (ss & Hrun & Hlen & Hout & Hin).
  exists ss. repeat split; auto.
Qed.

(** ** filter_population, once more *)

Lemma filter_population_live self population raw w :
  arrays w !! _bounds self = Some raw ->
  Forall (live w) population ->
  exists evs,
    filter_population self population w
    = Ok (List.filter (survives w raw) population) (with_log w evs).
Proof.
  intros Hraw Hpop.
  destruct (filter_loop_spec self raw population 0%nat []
              (with_log w [Debug "filter_population: START"]) Hraw Hpop)
    as (evs & Hloop & _).
  exists ([Debug "filter_population: START"] ++ evs
          ++ [Debug "filter_population: END"]).
  unfold filter_population.
  change (bind (emit (Debug "filter_population: START")) ?k w)
    with (k tt (with_log w [Debug "filter_population: START"])).
  cbv beta. rewrite (bind_step _ _ _ _ _ Hloop).
  unfold bind, emit, ret, with_log. cbn. now rewrite <- !app_assoc.
Qed.

Lemma filter_sublist {A} (f : A -> bool) l : sublist (List.filter f l) l.
Proof.
  induction l as [| a l IH]; cbn [List.filter]; [constructor |].
  destruct (f a); now constructor.
Qed.

Lemma filter_filter {A} (f : A -> bool) l :
  List.filter f (List.filter f l) = List.filter f l.
Proof.
  induction l as [| a l IH]; cbn [List.filter]; [reflexivity |].
  destruct (f a) eqn:E; [| exact IH]. cbn [List.filter]. now rewrite E, IH.
Qed.

(** X7: filtering is idempotent.  On a population of existing solutions
    [filter_population] returns a sub-list of the population, every member
    of which passes the three tests; filtering the result again returns it
    unchanged; and both passes leave every object, array and the random
    source as they were. *)
Theorem filter_population_idempotent (self : GA) (population : list loc)
    (raw : ndarray2) (w : world) :
  arrays w !! _bounds self = Some raw ->
  Forall (live w) population ->
  exists survivors evs evs',
    filter_population self population w = Ok survivors (with_log w evs) /\
    filter_population self survivors (with_log w evs)
    = Ok survivors (with_log (with_log w evs) evs') /\
    sublist survivors population /\
    Forall (fun l => survives w raw l = true) survivors.
Proof.
  intros Hraw Hpop.
  destruct (filter_population_live self population raw w Hraw Hpop) as (evs & H1).
  assert (Hsub : Forall (live (with_log w evs))
                   (List.filter (survives w raw) population)).
  { apply List.Forall_forall. intros l Hl. apply filter_In in Hl.
    rewrite List.Forall_forall in Hpop. now apply Hpop. }
  destruct (filter_population_live self (List.filter (survives w raw) population)
              raw (with_log w evs) Hraw Hsub) as (evs' & H2).
  change (survives (with_log w evs) raw) with (survives w raw) in H2.
  rewrite filter_filter in H2.
  exists (List.filter (survives w raw) population), evs, evs'.
  split; [exact H1 |]. split; [exact H2 |]. split; [apply filter_sublist |].
  apply List.Forall_forall. intros l Hl. now apply filter_In in Hl.
Qed.

Lemma filter_loop_sublist self population :
  forall i acc w r w',
    filter_loop self i population acc w = Ok r w' ->
    exists kept, r = acc ++ kept /\ sublist kept population.
Proof.
  induction population as [| sol rest IH]; intros i acc w r w' H;
    cbn [filter_loop] in H.
  - inv_ok H. exists []. rewrite app_nil_r. split; [reflexivity | constructor].
  - step_in H as acc1 w1 Hstep.
    apply filter_step_Ok in Hstep. destruct Hstep as (msg & _ & _ & Hacc).
    apply IH in H. destruct H as (kept & -> & Hsub).
    destruct Hacc as [-> | ->].
    + exists kept. split; [reflexivity | now constructor].
    + exists (sol :: kept). rewrite <- app_assoc. split; [reflexivity |].
      now constructor.
Qed.

Lemma filter_population_sublist self population w survivors w' :
  filter_population self population w = Ok survivors w' ->
  sublist survivors population.
Proof.
  unfold filter_population. intros H.
  step_in H as t w1 H1. step_in H as r w2 Hloop. step_in H as t' w3 H3.
  inv_ok H. apply filter_loop_sublist in Hloop.
  now destruct Hloop as (kept & -> & Hsub).
Qed.

(** ** get_elites, once more *)

Lemma get_elites_sorted population size w elites w' :
  get_elites population (PyInt size) w = Ok elites w' ->
  exists ordered,
    sorted population w = Ok ordered w /\ w' = w /\
    0 <= size <= Z.of_nat (length population) /\
    elites = firstn (Z.to_nat size) ordered.
Proof.
  unfold get_elites. intros H.
  destruct ((0 <=? size) && (size <=? Z.of_nat (length population))) eqn:E;
    [| discriminate].
  cbn [negb] in H. apply andb_true_iff in E.
  step_in H as ordered w1 Hs. inv_ok H.
  pose proof (sorted_Ok _ _ _ _ Hs) as ->.
  exists ordered. repeat split; try lia. exact Hs.
Qed.

(** X8: the elites are nested.  If [get_elites(population, n)] returns, then
    for every [m] between 0 and [n] [get_elites(population, m)] returns the
    first [m] of them, whatever the comparison of the solution class is;
    neither call changes anything. *)
Theorem get_elites_nested (population : list loc) (m n : Z) (w : world)
    (elites : list loc) (w' : world) :
  0 <= m <= n ->
  get_elites population (PyInt n) w = Ok elites w' ->
  w' = w /\
  get_elites population (PyInt m) w = Ok (firstn (Z.to_nat m) elites) w.
Proof.
  intros Hm H. apply get_elites_sorted in H.
  destruct H as (ordered & Hs & -> & Hn & ->). split; [reflexivity |].
  unfold get_elites.
  replace ((0 <=? m) && (m <=? Z.of_nat (length population))) with true
    by (symmetry; apply andb_true_iff; split; lia).
  cbn [negb]. rewrite (bind_step _ _ _ _ _ Hs). unfold ret.
  rewrite firstn_firstn. do 2 f_equal. lia.
Qed.

Lemma tied_trans w x a b :
  strict_weak_order -> live w x -> live w a -> live w b ->
  tied w x a = true -> tied w x b = true -> lt_at w b a = false.
Proof.
  intros [_ Hneg] [sx Hx] [sa Ha] [sb Hb]. unfold tied, lt_at.
  rewrite Hx, Ha, Hb. intros H1 H2.
  apply andb_true_iff in H1, H2. destruct H1 as [H1 H1'], H2 as [H2 H2'].
  apply negb_true_iff in H1, H1', H2, H2'. exact (Hneg sb sx sa H2' H1).
Qed.

Lemma insert_by_tied w x a l :
  strict_weak_order -> live w x -> live w a -> Forall (live w) l ->
  List.filter (tied w x) (insert_by (lt_at w) a l)
  = List.filter (tied w x) (a :: l).
Proof.
  intros Hord Hx Ha Hl. induction Hl as [| b l Hb Hl IH]; cbn [insert_by];
    [reflexivity |].
  destruct (lt_at w b a) eqn:E; [| reflexivity].
  cbn [List.filter] in *. rewrite IH.
  destruct (tied w x a) eqn:Ta, (tied w x b) eqn:Tb; try reflexivity.
  rewrite (tied_trans w x a b Hord Hx Ha Hb Ta Tb) in E. discriminate.
Qed.

Lemma sort_by_tied w x l :
  strict_weak_order -> live w x -> Forall (live w) l ->
  List.filter (tied w x) (sort_by (lt_at w) l) = List.filter (tied w x) l.
Proof.
  intros Hord Hx Hl. induction Hl as [| a l Ha Hl IH]; cbn [sort_by];
    [reflexivity |].
  rewrite insert_by_tied; auto.
  - cbn [List.filter]. now rewrite IH.
  - eapply Permutation_Forall; [apply sort_by_perm | exact Hl].
Qed.

Lemma sort_by_sorted_id w l :
  StronglySorted (le_at w) l -> sort_by (lt_at w) l = l.
Proof.
  induction 1 as [| a l Hs IH Ha]; cbn [sort_by]; [reflexivity |].
  rewrite IH. destruct Ha as [| b l Hab _]; cbn [insert_by]; [reflexivity |].
  unfold le_at in Hab. now rewrite Hab.
Qed.

(** X9: [get_elites] sorts stably.  Over a strictly weakly ordered solution
    class, taking as many elites as the population has members returns the
    population in ascending order, and solutions that tie with one another
    keep the order they had in the population; what is returned is a fixed
    point: taking all elites of it returns it again. *)
Theorem get_elites_is_stable (population : list loc) (w : world) :
  strict_weak_order ->
  Forall (live w) population ->
  exists ordered,
    get_elites population (PyInt (Z.of_nat (length population))) w
    = Ok ordered w /\
    Permutation population ordered /\
    StronglySorted (le_at w) ordered /\
    (forall x, live w x ->
       List.filter (tied w x) ordered = List.filter (tied w x) population) /\
    get_elites ordered (PyInt (Z.of_nat (length ordered))) w = Ok ordered w.
Proof.
  intros Hord Hlive.
  pose proof (sort_by_perm (lt_at w) population) as Hperm.
  pose proof (sort_by_sorted w population Hord Hlive) as Hsorted.
  assert (Hall : forall l, Forall (live w) l ->
            get_elites l (PyInt (Z.of_nat (length l))) w
            = Ok (sort_by (lt_at w) l) w).
  { intros l Hl. unfold get_elites.
    replace ((0 <=? Z.of_nat (length l)) && (Z.of_nat (length l) <=? Z.of_nat (length l)))
      with true.
    2: { symmetry; apply andb_true_iff; split; apply Z.leb_le; lia. }
    cbn [negb]. rewrite (bind_step _ _ _ _ _ (sorted_live w l Hl)). unfold ret.
    rewrite Nat2Z.id, firstn_all2; [reflexivity |].
    rewrite <- (Permutation_length (sort_by_perm (lt_at w) l)). lia. }
  exists (sort_by (lt_at w) population).
  split; [now apply Hall |]. split; [exact Hperm |]. split; [exact Hsorted |].
  split; [intros x Hx; now apply sort_by_tied |].
  rewrite Hall by (eapply Permutation_Forall; [exact Hperm | exact Hlive]).
  now rewrite sort_by_sorted_id.
Qed.

(** ** The generational loop, once more *)

Lemma update_population_frame population w w1 :
  update_population population w = Ok tt w1 ->
  Forall (live w) population /\
  length (sols w1) = length (sols w) /\
  vals w1 = vals w /\ arrays w1 = arrays w /\
  (forall l, ~ In l population -> sols w1 !! l = sols w !! l).
Proof.
  intros H. pose proof (update_population_Ok _ _ _ _ H) as (_ & _ & Hlt).
  assert (Hlive : Forall (live w) population).
  { eapply Forall_impl; [exact Hlt |]. intros l Hl. now apply lookup_lt_is_Some. }
  destruct (update_population_live population w Hlive)
    as (ss & Hrun & Hlen & Hout & _).
  rewrite Hrun in H. inv_ok H. cbn [sols vals arrays]. auto.
Qed.

Lemma get_elites_total population size w :
  Forall (live w) population ->
  get_elites population (PyInt size) w = Raise ValueError w \/
  exists elites, get_elites population (PyInt size) w = Ok elites w.
Proof.
  intros Hlive. unfold get_elites. destruct (negb _); [now left | right].
  rewrite (bind_step _ _ _ _ _ (sorted_live w population Hlive)).
  eexists. reflexivity.
Qed.

Lemma epoch_few_survivors retries self n_solutions n_elites population raw w w1 :
  arrays w !! _bounds self = Some raw ->
  update_population population w = Ok tt w1 ->
  (length (List.filter (survives w1 raw) population) < 3)%nat ->
  exists w',
    epoch retries self n_solutions n_elites population w = Raise ValueError w'.
Proof.
  intros Hraw Hupd Hfew. unfold epoch.
  rewrite (bind_step _ _ _ _ _ Hupd).
  apply update_population_frame in Hupd.
  destruct Hupd as (Hlive & Hlen & _ & Harr & _).
  assert (Hlive1 : Forall (live w1) population).
  { eapply Forall_impl; [exact Hlive |]. intros l Hl.
    apply lookup_lt_is_Some. rewrite Hlen. now apply lookup_lt_is_Some. }
  rewrite <- Harr in Hraw.
  destruct (filter_population_live self population raw w1 Hraw Hlive1)
    as (evs & Hfil).
  rewrite (bind_step _ _ _ _ _ Hfil).
  set (survivors := List.filter (survives w1 raw) population) in *.
  assert (Hlive2 : Forall (live (with_log w1 evs)) survivors).
  { apply List.Forall_forall. intros l Hl. apply filter_In in Hl.
    rewrite List.Forall_forall in Hlive1. now apply Hlive1. }
  destruct (get_elites_total survivors n_elites _ Hlive2) as [He | [elites He]].
  - rewrite (bind_raise _ _ _ _ _ He). eauto.
  - rewrite (bind_step _ _ _ _ _ He). unfold get_mutants.
    apply Nat.ltb_lt in Hfew. rewrite Hfew. eexists. reflexivity.
Qed.

(** X11: breeding needs three survivors.  An epoch in which fewer than
    three solutions of the evaluated population pass the filter raises
    [ValueError]; so on a well-formed engine [run] with fewer than three
    solutions and at least one epoch always raises [ValueError], while with
    no epoch at all it is [generate_population]: the population is returned
    as generated, unevaluated, whatever its size. *)
Theorem run_needs_three_survivors (retries : nat) (self : GA) :
  (forall n_solutions n_elites population raw w w1,
     arrays w !! _bounds self = Some raw ->
     update_population population w = Ok tt w1 ->
     (length (List.filter (survives w1 raw) population) < 3)%nat ->
     exists w',
       epoch retries self n_solutions n_elites population w
       = Raise ValueError w') /\
  (forall n_solutions n_epochs n_elites w,
     engine_ok self w ->
     0 <= n_solutions < 3 -> 0 < n_epochs -> 0 <= n_elites <= n_solutions ->
     exists w',
       run retries self (PyInt n_solutions) (PyInt n_epochs) (PyInt n_elites) w
       = Raise ValueError w') /\
  (forall n_solutions n_elites w,
     0 <= n_elites <= n_solutions ->
     run retries self (PyInt n_solutions) (PyInt 0) (PyInt n_elites) w
     = generate_population self (Z.to_nat n_solutions) w).
Proof.
  split; [intros; eapply epoch_few_survivors; eassumption |]. split.
  - intros n_solutions n_epochs n_elites w Hok Hn Hep Hel. unfold run.
    replace (n_solutions <? 0) with false by (symmetry; apply Z.ltb_ge; lia).
    replace (n_epochs <? 0) with false by (symmetry; apply Z.ltb_ge; lia).
    replace ((0 <=? n_elites) && (n_elites <=? n_solutions)) with true
      by (symmetry; apply andb_true_iff; split; apply Z.leb_le; lia).
    cbn [negb].
    destruct (generate_solutions_Ok self (seq 0 (Z.to_nat n_solutions)) w Hok)
      as (ss & g & Hgen & Hlen & _).
    rewrite length_seq in Hgen, Hlen. unfold generate_population.
    rewrite (bind_step _ _ _ _ _ Hgen).
    destruct (Z.to_nat n_epochs) as [| n] eqn:En; [lia |]. cbn [run_epochs].
    set (w1 := mkWorld (sols w ++ ss) (vals w) (arrays w) g (log w)).
    set (population := seq (length (sols w)) (Z.to_nat n_solutions)).
    assert (Hlive : Forall (live w1) population).
    { apply List.Forall_forall. intros l Hl. apply in_seq in Hl.
      apply lookup_lt_is_Some. unfold w1. cbn [sols]. rewrite length_app. lia. }
    destruct (update_population_live population w1 Hlive) as (ss1 & Hupd & _).
    destruct Hok as (raw & _ & Hraw & _).
    destruct (epoch_few_survivors retries self n_solutions n_elites population
                raw w1 _ Hraw Hupd) as (w' & Hraise).
    { eapply Nat.le_lt_trans; [apply List.filter_length_le |].
      unfold population. rewrite length_seq. lia. }
    exists w'. now apply bind_raise.
  - intros n_solutions n_elites w Hel. unfold run.
    replace (n_solutions <? 0) with false by (symmetry; apply Z.ltb_ge; lia).
    replace ((0 <=? n_elites) && (n_elites <=? n_solutions)) with true
      by (symmetry; apply andb_true_iff; split; apply Z.leb_le; lia).
    cbn. unfold bind. destruct (generate_population _ _ w); reflexivity.
Qed.

Lemma draw_genes_sols (cached : ndarray2) l w genes w' :
  mapM (fun i => match cached !! i with
                 | Some b => draw (random_value_from_bounds b)
                 | None => raise IndexError
                 end) l w = Ok genes w' ->
  sols w' = sols w.
Proof.
  intros H.
  match type of H with
  | mapM ?f l w = _ =>
      assert (Hp : preserves (fun w w' => sols w' = sols w) True (mapM f l))
  end.
  { apply preserves_mapM; [reflexivity | intros; congruence |].
    intros i. destruct (cached !! i).
    - apply preserves_draw. reflexivity.
    - intros ?. reflexivity. }
  specialize (Hp w). now rewrite H in Hp.
Qed.

Lemma generate_solution_alloc self w l w' :
  generate_solution self w = Ok l w' ->
  l = length (sols w) /\ length (sols w') = S (length (sols w)).
Proof.
  unfold generate_solution. intros H.
  step_in H as cached w1 Hc. apply read_array_Ok in Hc. destruct Hc as [-> _].
  step_in H as gt w2 Hgt. step_in H as genes w3 Hg.
  apply transform_genes_back_Ok in Hg. subst w3.
  apply draw_genes_sols in Hgt. rename Hgt into Hsame.
  unfold construct, new_sol in H. inv_ok H. cbn [sols].
  rewrite length_app, Hsame. cbn. split; [reflexivity | lia].
Qed.

Lemma generate_population_seq self n w population w' :
  generate_population self n w = Ok population w' ->
  population = seq (length (sols w)) n /\
  length (sols w') = (length (sols w) + n)%nat.
Proof.
  unfold generate_population.
  assert (Hgen : forall (l : list nat) w r w',
            mapM (fun _ => generate_solution self) l w = Ok r w' ->
            r = seq (length (sols w)) (length l) /\
            length (sols w') = (length (sols w) + length l)%nat).
  { clear. induction l as [| a l IH]; intros w r w' H; cbn [mapM] in H.
    - inv_ok H. cbn. split; [reflexivity | lia].
    - step_in H as t w1 Ht. step_in H as rest w2 Hrest. inv_ok H.
      apply generate_solution_alloc in Ht. destruct Ht as [-> Hlen].
      apply IH in Hrest. destruct Hrest as [-> Hlen'].
      cbn [length seq]. rewrite Hlen. split; [reflexivity | lia]. }
  intros H. apply Hgen in H. now rewrite length_seq in H.
Qed.

Lemma kept_below_refl n0 w : kept_below n0 w w.
Proof.
  split; [auto |]. split; [exists []; now rewrite app_nil_r | reflexivity].
Qed.

Lemma kept_below_trans n0 w1 w2 w3 :
  kept_below n0 w1 w2 -> kept_below n0 w2 w3 -> kept_below n0 w1 w3.
Proof.
  intros (S1 & [vs1 V1] & A1) (S2 & [vs2 V2] & A2).
  split; [auto |].
  split; [exists (vs1 ++ vs2); rewrite V2, V1; now rewrite app_assoc |].
  congruence.
Qed.

Lemma only_allocates_kept_below n0 w w' :
  only_allocates w w' -> kept_below n0 w w'.
Proof.
  intros ([ss Hs] & Hv & Ha & _). split; [| split; assumption].
  intros l s _ Hl. rewrite Hs. now apply lookup_app_l_Some.
Qed.

Lemma sublist_In {A} (l1 l2 : list A) x : sublist l1 l2 -> In x l1 -> In x l2.
Proof.
  induction 1 as [| a l1 l2 Hs IH | a l1 l2 Hs IH]; cbn; intuition.
Qed.

(** One generation keeps the population among the objects made since [n0]. *)
Lemma epoch_own retries self n_solutions n_elites n0 previous w0 population w' :
  epoch retries self n_solutions n_elites previous w0 = Ok population w' ->
  own n0 w0 previous ->
  own n0 w' population /\ kept_below n0 w0 w'.
Proof.
  unfold epoch. intros H [Hnd Hrange].
  step_in H as t w1 Hupd. destruct t.
  step_in H as survivors w2 Hfil. step_in H as elites w3 Heli.
  step_in H as mutants w4 Hmut. inv_ok H.
  apply update_population_frame in Hupd.
  destruct Hupd as (_ & Hlen1 & Hv1 & Ha1 & Hout).
  pose proof (filter_population_sublist _ _ _ _ _ Hfil) as Hsub.
  pose proof (filter_population_Ok _ _ _ _ _ Hfil) as (evs & -> & _ & _ & Hlive).
  pose proof (get_elites_Ok _ _ _ _ _ Hlive Heli) as (-> & _ & Helites).
  pose proof (allocates_get_mutants retries self survivors
                (PyInt (n_solutions - n_elites)) (with_log w1 evs)) as Hall.
  rewrite Hmut in Hall.
  assert (H3 : (3 <= length survivors)%nat).
  { unfold get_mutants in Hmut.
    destruct (length survivors <? 3)%nat eqn:E; [discriminate |].
    now apply Nat.ltb_ge in E. }
  apply get_mutants_seq in Hmut. destruct Hmut as (n1 & Hseq & Hn1 & Hend).
  cbn [with_log sols] in *.
  assert (Hnd2 : NoDup elites).
  { rewrite Helites. eapply sublist_NoDup; [| apply sublist_take].
    rewrite <- (sort_by_perm _ survivors). eapply sublist_NoDup; eassumption. }
  assert (Hold : forall e, In e elites -> (n0 <= e < length (sols w1))%nat).
  { intros e He. rewrite Helites in He. apply (sublist_In _ _ _ (sublist_take _ _)) in He.
    apply (Permutation_in _ (Permutation_sym (sort_by_perm _ survivors))) in He.
    apply (sublist_In _ _ _ Hsub) in He.
    rewrite List.Forall_forall in Hrange. apply Hrange in He. lia. }
  pose proof (only_allocates_length _ _ Hall) as Hgrow. cbn [sols] in Hgrow.
  split; [split |].
  - apply NoDup_app. split; [exact Hnd2 |]. split.
    + intros x Hx Hx'. apply list_elem_of_In in Hx, Hx'. apply Hold in Hx.
      rewrite Hseq in Hx'. apply in_seq in Hx'. lia.
    + rewrite Hseq. apply NoDup_ListNoDup, seq_NoDup.
  - apply Forall_app. split.
    + apply List.Forall_forall. intros e He. apply Hold in He. lia.
    + rewrite Hseq. apply List.Forall_forall. intros m Hm. apply in_seq in Hm.
      destruct survivors as [| p survivors]; [cbn in H3; lia |].
      apply (sublist_In _ _ p) in Hsub; [| now left].
      rewrite List.Forall_forall in Hrange. apply Hrange in Hsub. lia.
  - apply (kept_below_trans n0 w0 w1).
    + split; [| split; [exists []; rewrite app_nil_r; exact Hv1 | exact Ha1]].
      intros l s Hl Hs. rewrite Hout; [exact Hs |].
      intros Hin. rewrite List.Forall_forall in Hrange. apply Hrange in Hin. lia.
    + now apply (only_allocates_kept_below n0) in Hall.
Qed.

Lemma run_epochs_own retries self n_solutions n_elites n0 n :
  forall population w population' w',
    run_epochs n retries self n_solutions n_elites population w
    = Ok population' w' ->
    own n0 w population ->
    own n0 w' population' /\ kept_below n0 w w'.
Proof.
  induction n as [| n IH]; intros population w population' w' H Hown;
    cbn [run_epochs] in H.
  - inv_ok H. split; [exact Hown | apply kept_below_refl].
  - step_in H as p1 w1 Hep.
    destruct (epoch_own _ _ _ _ _ _ _ _ _ Hep Hown) as [Hown1 Hkept1].
    destruct (IH _ _ _ _ H Hown1) as [Hown' Hkept'].
    split; [exact Hown' |]. now apply (kept_below_trans n0 w w1).
Qed.

(** X12: [run] works on solutions of its own making.  The population it
    returns consists of pairwise different instances, every one of them
    made during the call; every solution object that existed before the
    call is as it was, payload objects were only added, and the arrays are
    as they were. *)
Theorem run_returns_its_own_solutions (retries : nat) (self : GA)
    (solutions epochs elites : pyval) (w : world)
    (population : list loc) (w' : world) :
  run retries self solutions epochs elites w = Ok population w' ->
  NoDup population /\
  Forall (fun l => live w' l /\ ~ live w l) population /\
  (forall l s, sols w !! l = Some s -> sols w' !! l = Some s) /\
  (exists vs, vals w' = vals w ++ vs) /\
  arrays w' = arrays w.
Proof.
  unfold run. intros H.
  destruct solutions as [| n_solutions | | | | |]; try discriminate.
  destruct (n_solutions <? 0); [discriminate |].
  destruct epochs as [| n_epochs | | | | |]; try discriminate.
  destruct (n_epochs <? 0); [discriminate |].
  destruct elites as [| n_elites | | | | |]; try discriminate.
  destruct (negb _); [discriminate |].
  step_in H as initial w1 Hgen.
  pose proof (allocates_generate_population self (Z.to_nat n_solutions) w) as Hall.
  rewrite Hgen in Hall.
  apply generate_population_seq in Hgen. destruct Hgen as [-> Hlen].
  destruct (run_epochs_own _ _ _ _ (length (sols w)) _ _ _ _ _ H)
    as ([Hnd Hrange] & Hkept).
  { split; [apply NoDup_ListNoDup, seq_NoDup |].
    apply List.Forall_forall. intros l Hl. apply in_seq in Hl. lia. }
  apply (only_allocates_kept_below (length (sols w))) in Hall.
  destruct (kept_below_trans _ _ _ _ Hall Hkept) as (Hs & Hv & Ha).
  split; [exact Hnd |]. split; [| split; [| split; assumption]].
  - eapply Forall_impl; [exact Hrange |]. intros l Hl. cbv beta in Hl.
    unfold live. split.
    + apply lookup_lt_is_Some. lia.
    + intros Hlive. apply lookup_lt_is_Some in Hlive. lia.
  - intros l s Hl. apply Hs; [| exact Hl]. now apply lookup_lt_Some in Hl.
Qed.

(** ** The production loop makes children in pairs *)

Lemma get_mutants_loop_even rounds retries self population size :
  forall population_new w r w',
    get_mutants_loop rounds retries self population size population_new w
    = Ok r w' ->
    Nat.even (length population_new) = true ->
    (length population_new <= if Nat.even size then size else S size)%nat ->
    length r = if Nat.even size then size else S size.
Proof.
  induction rounds as [| rounds IH]; intros acc w r w' H Heven Hle;
    cbn [get_mutants_loop] in H;
    destruct (length acc <? size)%nat eqn:E; try discriminate.
  - inv_ok H. apply Nat.ltb_ge in E.
    destruct (Nat.even size) eqn:Es; [lia |].
    assert (length r <> size) by (intros Heq; rewrite Heq in Heven; congruence).
    lia.
  - step_in H as children w1 Hround.
    apply get_mutants_round_length in Hround.
    apply (IH _ _ _ _ H).
    + rewrite length_app, Hround.
      replace (length acc + 2)%nat with (S (S (length acc))) by lia.
      exact Heven.
    + rewrite length_app, Hround. apply Nat.ltb_lt in E.
      destruct (Nat.even size) eqn:Es.
      * assert (S (length acc) <> size).
        { intros Heq. rewrite <- Heq, Nat.even_succ, <- Nat.negb_even, Heven in Es.
          discriminate. }
        lia.
      * lia.
  - inv_ok H. apply Nat.ltb_ge in E.
    destruct (Nat.even size) eqn:Es; [lia |].
    assert (length r <> size) by (intros Heq; rewrite Heq in Heven; congruence).
    lia.
Qed.

(** X13: the production loop of [get_mutants] makes children two at a time.
    When the loop started on the empty list ends, it holds [size] children
    if [size] is even and [size + 1] if it is odd, so the truncation to
    [size] drops one child when [size] is odd and nothing otherwise. *)
Theorem get_mutants_loop_pairs (rounds retries : nat) (self : GA)
    (population : list loc) (size : nat) (w : world)
    (children : list loc) (w' : world) :
  get_mutants_loop rounds retries self population size [] w = Ok children w' ->
  length children = (if Nat.even size then size else S size) /\
  length (firstn size children) = size /\
  length (skipn size children) = (if Nat.even size then 0 else 1)%nat.
Proof.
  intros H. apply get_mutants_loop_even in H; [| reflexivity |].
  - rewrite length_firstn, length_skipn, H. destruct (Nat.even size); lia.
  - cbn. destruct (Nat.even size); lia.
Qed.

(** ** The transforms of a solution *)

Lemma transform_genes_checked self genes w r w' :
  _transform_genes self genes w = Ok r w' ->
  exists raw cached,
    arrays w !! _bounds self = Some raw /\
    arrays w !! _bounds_transformed self = Some cached /\
    allclose (snd (transform_genes_bounds genes raw (_gammas self)
                     (_mask_log10_scale self))) cached = true /\
    r = fst (transform_genes_bounds genes raw (_gammas self)
               (_mask_log10_scale self)).
Proof.
  unfold _transform_genes. intros H.
  step_in H as raw w1 H1. apply read_array_Ok in H1. destruct H1 as [-> Hraw].
  step_in H as cached w2 H2. apply read_array_Ok in H2. destruct H2 as [-> Hc].
  cbv zeta in H. destruct (allclose _ _) eqn:E; [| discriminate]. inv_ok H.
  exists raw, cached. auto.
Qed.

(** X14: transforming a solution and transforming it back gives two new
    objects and copies no payload.  Both carry the fitness of the solution
    they were made from, computed for other genes, and their payload dicts
    hold the very payload objects of the original, which are shared, not
    copied; the original is as it was.  The forward transform returns only
    if the bounds it recomputes agree with the cached ones. *)
Theorem transform_round_trip_shares_payload (self : GA) (sol : loc) (w : world)
    (t : loc) (w1 : world) (u : loc) (w2 : world) :
  _transform_solution self sol w = Ok t w1 ->
  _transform_solution_back self t w1 = Ok u w2 ->
  exists s raw cached,
    sols w !! sol = Some s /\
    arrays w !! _bounds self = Some raw /\
    arrays w !! _bounds_transformed self = Some cached /\
    allclose (snd (transform_genes_bounds (sol_x s) raw (_gammas self)
                     (_mask_log10_scale self))) cached = true /\
    t = length (sols w) /\ u = S (length (sols w)) /\
    let genes_t := fst (transform_genes_bounds (sol_x s) raw (_gammas self)
                          (_mask_log10_scale self)) in
    w2 = mkWorld
           (sols w ++
            [mkSolution genes_t (sol_y s) (sol_data s);
             mkSolution (transform_genes_bounds_back genes_t cached raw
                           (_mask_log10_scale self))
                        (sol_y s) (sol_data s)])
           (vals w) (arrays w) (rng w) (log w).
Proof.
  unfold _transform_solution, _transform_solution_back. intros H1 H2.
  step_in H1 as s w0 Hread. apply read_sol_Ok in Hread. destruct Hread as [-> Hs].
  step_in H1 as genes w0 Hg.
  pose proof (transform_genes_Ok _ _ _ _ _ Hg) as ->.
  apply transform_genes_checked in Hg.
  destruct Hg as (raw & cached & Hraw & Hc & Hclose & ->).
  apply construct_set_y_Ok in H1. destruct H1 as [-> ->].
  step_in H2 as st w0 Hread. apply read_sol_Ok in Hread. destruct Hread as [-> Hst].
  cbn [add_sol sols] in Hst. rewrite lookup_snoc in Hst. injection Hst as <-.
  step_in H2 as genes w0 Hg.
  pose proof (transform_genes_back_Ok _ _ _ _ _ Hg) as ->.
  rewrite (transform_genes_back_live self _ (add_sol w _) raw cached Hraw Hc) in Hg.
  inv_ok Hg.
  apply construct_set_y_Ok in H2. destruct H2 as [-> ->].
  exists s, raw, cached. cbn [add_sol sols vals arrays rng log sol_x sol_y sol_data].
  repeat (split; [first [assumption | reflexivity] |]).
  split; [rewrite length_app; cbn; lia |].
  cbv zeta. unfold add_sol. cbn [sols vals arrays rng log].
  now rewrite <- app_assoc.
Qed.

(** ** Operations that only read *)

(** X15: selecting elites and testing bounds only read.  Whether they return
    or raise, [get_elites] and [is_solution_inside_bounds] leave the world
    exactly as it was, and [filter_population] changes nothing but the log,
    to which it only appends; none of them can exhaust a retry budget. *)
Theorem reading_operations_change_nothing (self : GA) :
  (forall population size,
     preserves (fun w w' => w' = w) False (get_elites population size)) /\
  (forall sol bs,
     preserves (fun w w' => w' = w) False
       (is_solution_inside_bounds self sol bs)) /\
  (forall population,
     preserves only_logs False (filter_population self population)).
Proof.
  split; [| split].
  - intros population size.
    apply preserves_get_elites; [reflexivity | intros; congruence].
  - intros sol bs.
    apply preserves_is_solution_inside_bounds; [reflexivity | intros; congruence].
  - intros population. apply preserves_filter_population.
    + intros w. repeat split. exists []. now rewrite app_nil_r.
    + intros w1 w2 w3 (S1 & V1 & A1 & G1 & evs1 & L1) (S2 & V2 & A2 & G2 & evs2 & L2).
      repeat split; try congruence.
      exists (evs1 ++ evs2). rewrite L2, L1. now rewrite app_assoc.
    + intros w e. repeat split. now exists [e].
Qed.

(** * The claims on breeding and on the generational loop *)

(** ** The parents of a round *)

Lemma select_parents_same_objects retries self population :
  forall p1 p2 w pr w',
    select_parents retries self population p1 p2 w = Ok pr w' ->
    sols w' = sols w /\ vals w' = vals w /\ arrays w' = arrays w /\ log w' = log w.
Proof.
  intros p1 p2 w pr w' H.
  pose proof (preserves_select_parents
                (fun w w' => sols w' = sols w /\ vals w' = vals w /\
                             arrays w' = arrays w /\ log w' = log w) True I
                ltac:(intros; repeat split)
                ltac:(intros ? ? ? (? & ? & ? & ?) (? & ? & ? & ?);
                      repeat split; congruence)
                ltac:(intros; repeat split)
                retries self population p1 p2 w) as Hp.
  now rewrite H in Hp.
Qed.

Lemma get_mutants_round_spec retries self population w children w' :
  get_mutants_round retries self population w = Ok children w' ->
  exists p1 p2 t1 t2,
    round_of retries self population w p1 p2 t1 t2 children w' /\
    distinct_members population (p1, p2) /\
    t1 = length (sols w) /\ t2 = S (length (sols w)).
Proof.
  unfold get_mutants_round. intros H.
  step_in H as first w0 Hfirst. unfold getindex in Hfirst.
  destruct (population !! 0%nat) as [first' |] eqn:E; [| discriminate].
  inv_ok Hfirst.
  step_in H as parents w1 Hsel. destruct parents as [p1 p2].
  step_in H as t1 w2 Ht1. step_in H as t2 w3 Ht2. step_in H as u w4 Hu.
  cbn [fst snd] in *.
  pose proof (select_parents_spec _ _ _ _ _ _ _ _ Hsel) as [Hne Hin].
  destruct Hin as [Hin | Hin]; [now destruct Hin |].
  pose proof (select_parents_same_objects _ _ _ _ _ _ _ _ Hsel) as (Hs & _).
  pose proof (transform_solution_Ok _ _ _ _ _ Ht1) as (E1 & s1 & g1 & _ & Hw2).
  pose proof (transform_solution_Ok _ _ _ _ _ Ht2) as (E2 & s2 & g2 & _ & Hw3).
  exists p1, p2, t1, t2. split; [| split; [| split]].
  - exists first, w1, w2, w3, u, w4.
    repeat (split; [first [assumption | reflexivity] |]).
    destruct (Qleb u _); exact H.
  - split; [exact Hne | exact Hin].
  - now rewrite E1, Hs.
  - rewrite E2, Hw2. cbn [add_sol sols]. rewrite length_app, Hs. cbn. lia.
Qed.

Lemma get_mutants_loop_rounds fuel retries self population size :
  forall population_new w0 pairs w r w',
    rounds retries self population w0 pairs population_new w ->
    Forall (distinct_members population) pairs ->
    get_mutants_loop fuel retries self population size population_new w
    = Ok r w' ->
    exists pairs',
      rounds retries self population w0 pairs' r w' /\
      Forall (distinct_members population) pairs'.
Proof.
  induction fuel as [| fuel IH]; intros acc w0 pairs w r w' Hrounds Hpairs H;
    cbn [get_mutants_loop] in H; destruct (_ <? _)%nat; try discriminate.
  - inv_ok H. eauto.
  - step_in H as children w1 Hround.
    apply get_mutants_round_spec in Hround.
    destruct Hround as (p1 & p2 & t1 & t2 & Hround & Hdist & _).
    apply (IH _ w0 (pairs ++ [(p1, p2)]) _ _ _) in H; [exact H | |].
    + econstructor; eassumption.
    + apply Forall_app. split; [exact Hpairs |]. now constructor.
  - inv_ok H. eauto.
Qed.

(** C6: [get_mutants] never breeds from one instance as both parents.  In
    every round it completes, the pair the retry loop hands over consists of
    two different members of the population; it is this pair that is
    transformed, into two different new objects, and it is from these two
    that the children of the round are bred, by crossover or as copies.
    Every call of [get_mutants] that returns is made of such rounds, followed
    by the mutation and the back-transform of the children. *)
Theorem parents_are_distinct (retries : nat) (self : GA) (population : list loc) :
  (forall w children w',
     get_mutants_round retries self population w = Ok children w' ->
     exists p1 p2 t1 t2,
       round_of retries self population w p1 p2 t1 t2 children w' /\
       distinct_members population (p1, p2) /\
       t1 = length (sols w) /\ t2 = S (length (sols w))) /\
  (forall size w mutants w',
     get_mutants retries self population size w = Ok mutants w' ->
     exists k pairs bred w1 mutated w2,
       size = PyInt k /\
       rounds retries self population w pairs bred w1 /\
       Forall (distinct_members population) pairs /\
       _mutate_population_transformed self (firstn (Z.to_nat k) bred) w1
       = Ok mutated w2 /\
       _transform_population_back self mutated w2 = Ok mutants w').
Proof.
  split; [intros w children w'; apply get_mutants_round_spec |].
  intros size w mutants w' H. unfold get_mutants in H.
  destruct (_ <? 3)%nat; [discriminate |].
  destruct size as [| k | | | | |]; try discriminate.
  destruct (k <? 0); [discriminate |].
  step_in H as bred w1 Hloop. cbv zeta in H. step_in H as mutated w2 Hmut.
  apply (get_mutants_loop_rounds _ _ _ _ _ _ w [] _ _ _) in Hloop;
    [| constructor | constructor].
  destruct Hloop as (pairs & Hrounds & Hpairs).
  exists k, pairs, bred, w1, mutated, w2. auto.
Qed.

(** ** Breeding from a well-formed population *)

Lemma payload_in_order_later self w w' s :
  (exists vs, vals w' = vals w ++ vs) ->
  payload_in_order self w s -> payload_in_order self w' s.
Proof.
  intros [vs Hv] [Hvals Hkeys]. split; [| exact Hkeys].
  eapply Forall_impl; [exact Hvals |]. intros entry [p Hp].
  exists p. rewrite Hv. now apply lookup_app_l_Some.
Qed.

Lemma well_formed_later self population w w' :
  only_allocates w w' ->
  well_formed self population w -> well_formed self population w'.
Proof.
  intros ([ss Hs] & Hv & Ha & _) (Harr & Hpop & Hdraw).
  split; [| split; [| exact Hdraw]].
  - now rewrite Ha.
  - eapply Forall_impl; [exact Hpop |]. intros l (s & Hl & Hp).
    exists s. split; [rewrite Hs; now apply lookup_app_l_Some |].
    now apply (payload_in_order_later self w).
Qed.

Lemma well_formed_live self population w :
  well_formed self population w -> Forall (live w) population.
Proof.
  intros (_ & Hpop & _). eapply Forall_impl; [exact Hpop |].
  intros l (s & Hl & _). now exists s.
Qed.

Lemma min_from_live w rest :
  forall current,
    live w current -> Forall (live w) rest ->
    exists r, min_from current rest w = Ok r w /\ (r = current \/ In r rest).
Proof.
  induction rest as [| item rest IH]; intros current Hc Hrest; cbn [min_from].
  - exists current. split; [reflexivity | now left].
  - inversion Hrest as [| ? ? Hitem Hrest']; subst.
    rewrite (bind_step _ _ _ _ _ (lt_sol_live w item current Hitem Hc)).
    destruct (IH (if lt_at w item current then item else current))
      as (r & Hr & Hin); [now destruct (lt_at w item current) | exact Hrest' |].
    exists r. split; [exact Hr |].
    destruct Hin as [-> | Hin]; [| right; now right].
    destruct (lt_at w item current); [right; now left | now left].
Qed.

Lemma getindex_all population positions w :
  Forall (fun i => (i < length population)%nat) positions ->
  exists candidates,
    mapM (getindex population) positions w = Ok candidates w /\
    length candidates = length positions /\
    Forall (fun c => In c population) candidates.
Proof.
  induction 1 as [| i positions Hi _ IH]; cbn [mapM].
  - exists []. repeat split. constructor.
  - destruct IH as (candidates & Hrest & Hlen & Hin).
    destruct (lookup_lt_is_Some_2 population i Hi) as [c Hc].
    unfold getindex at 1. rewrite Hc.
    unfold bind at 1. unfold ret at 1. rewrite (bind_step _ _ _ _ _ Hrest).
    exists (c :: candidates). split; [reflexivity |].
    split; [cbn; now rewrite Hlen |].
    constructor; [| exact Hin]. apply list_elem_of_In.
    eapply list_elem_of_lookup_2, Hc.
Qed.

(** A tournament on a well-formed population returns a member and changes
    nothing but the random source. *)
Lemma selection_progress self population w :
  well_formed self population w ->
  exists l g,
    _selection self population w
    = Ok l (mkWorld (sols w) (vals w) (arrays w) g (log w)) /\
    In l population.
Proof.
  intros Hwf. pose proof (well_formed_live _ _ _ Hwf) as Hlive.
  destruct Hwf as (_ & _ & Hdraw).
  unfold _selection, tournament_selection.
  unfold bind at 1. unfold draw at 1.
  specialize (Hdraw (rng w)).
  destruct (tournament_draw (length population) (_selection_force self) (rng w))
    as [positions g]. cbn [fst] in Hdraw. destruct Hdraw as [Hne Hin].
  set (w1 := mkWorld (sols w) (vals w) (arrays w) g (log w)).
  destruct (getindex_all population positions w1 Hin)
    as (candidates & Hcand & Hlen & Hmem).
  rewrite (bind_step _ _ _ _ _ Hcand).
  destruct candidates as [| c candidates];
    [destruct positions; [now destruct Hne | discriminate] |].
  cbn [py_min].
  assert (Hl : Forall (live w1) (c :: candidates)).
  { eapply Forall_impl; [exact Hmem |]. intros l Hl.
    rewrite List.Forall_forall in Hlive. now apply Hlive. }
  inversion Hl as [| ? ? Hc Hl']; subst.
  destruct (min_from_live w1 candidates c Hc Hl') as (r & Hr & Hor).
  exists r, g. split; [exact Hr |].
  rewrite List.Forall_forall in Hmem. apply Hmem.
  destruct Hor as [-> | Hor]; [now left | now right].
Qed.

(** The retry loop on a well-formed population returns a pair or exhausts
    its budget; it raises nothing. *)
Lemma select_parents_progress self population retries :
  forall p1 p2 w,
    well_formed self population w ->
    match select_parents retries self population p1 p2 w with
    | Ok _ w' => only_allocates w w'
    | Raise _ _ => False
    | Timeout => True
    end.
Proof.
  induction retries as [| retries IH]; intros p1 p2 w Hwf;
    cbn [select_parents]; destruct (Nat.eqb p1 p2);
    try exact I; try apply only_allocates_refl.
  destruct (selection_progress self population w Hwf) as (l1 & g1 & H1 & _).
  rewrite (bind_step _ _ _ _ _ H1).
  set (w1 := mkWorld (sols w) (vals w) (arrays w) g1 (log w)) in *.
  assert (Hwf1 : well_formed self population w1)
    by (apply (well_formed_later self population w); [apply only_allocates_rng | exact Hwf]).
  destruct (selection_progress self population w1 Hwf1) as (l2 & g2 & H2 & _).
  rewrite (bind_step _ _ _ _ _ H2).
  set (w2 := mkWorld (sols w1) (vals w1) (arrays w1) g2 (log w1)) in *.
  assert (Hwf2 : well_formed self population w2)
    by (apply (well_formed_later self population w1); [apply only_allocates_rng | exact Hwf1]).
  specialize (IH l1 l2 w2 Hwf2).
  destruct (select_parents retries self population l1 l2 w2); exact IH.
Qed.

Lemma live_later w w' l : only_allocates w w' -> live w l -> live w' l.
Proof.
  intros ([ss Hs] & _) [s Hl]. exists s. rewrite Hs. now apply lookup_app_l_Some.
Qed.

Lemma construct_set_y_run genes data y w :
  (sol <- construct genes data ;; set_y sol y ;;; ret sol) w
  = Ok (length (sols w)) (add_sol w (mkSolution genes y data)).
Proof.
  unfold construct, new_sol, set_y. unfold bind, read_sol, write_sol, ret.
  cbn [sols vals arrays rng log]. rewrite lookup_snoc.
  cbn [sols vals arrays rng log sol_x sol_data]. now rewrite insert_snoc.
Qed.

Lemma transform_solution_progress self population w p s :
  well_formed self population w ->
  sols w !! p = Some s ->
  exists genes,
    _transform_solution self p w
    = Ok (length (sols w)) (add_sol w (mkSolution genes (sol_y s) (sol_data s))).
Proof.
  intros ((raw & cached & Hraw & Hc & Hclose) & _) Hs.
  unfold _transform_solution.
  rewrite (bind_step _ _ _ _ _ (read_sol_live _ _ _ Hs)).
  assert (Hg : _transform_genes self (sol_x s) w
               = Ok (fst (transform_genes_bounds (sol_x s) raw (_gammas self)
                            (_mask_log10_scale self))) w).
  { unfold _transform_genes.
    rewrite (bind_step _ _ _ _ _ (read_array_live _ _ _ Hraw)).
    rewrite (bind_step _ _ _ _ _ (read_array_live _ _ _ Hc)).
    cbv zeta. now rewrite Hclose. }
  rewrite (bind_step _ _ _ _ _ Hg). eexists. apply construct_set_y_run.
Qed.

Lemma transform_solution_back_progress self w p s :
  is_Some (arrays w !! _bounds self) ->
  is_Some (arrays w !! _bounds_transformed self) ->
  sols w !! p = Some s ->
  exists genes,
    _transform_solution_back self p w
    = Ok (length (sols w)) (add_sol w (mkSolution genes (sol_y s) (sol_data s))).
Proof.
  intros [raw Hraw] [cached Hc] Hs. unfold _transform_solution_back.
  rewrite (bind_step _ _ _ _ _ (read_sol_live _ _ _ Hs)).
  rewrite (bind_step _ _ _ _ _ (transform_genes_back_live _ _ _ _ _ Hraw Hc)).
  eexists. apply construct_set_y_run.
Qed.

Lemma dict_get_In data key v :
  dict_get data key = Some v -> In (key, v) data.
Proof.
  induction data as [| [k v0] data IH]; cbn [dict_get]; [discriminate |].
  destruct (String.eqb k key) eqn:E.
  - intros [= ->]. apply String.eqb_eq in E. subst. now left.
  - intros H. right. now apply IH.
Qed.

(** Handing the payload of [t] over to the existing, other object [child]. *)
Lemma transmit_progress t st child keys :
  forall w,
    sols w !! t = Some st ->
    Forall (fun entry => is_Some (vals w !! snd entry)) (sol_data st) ->
    Forall (fun key => is_Some (dict_get (sol_data st) key)) keys ->
    (child < length (sols w))%nat -> child <> t ->
    exists w',
      forM (fun key =>
              v <- getitem t key ;;
              c <- deepcopy_val v ;;
              setitem child key c) keys w = Ok tt w'.
Proof.
  induction keys as [| key keys IH]; intros w Ht Hvals Hkeys Hlt Hne; cbn [forM].
  - eexists. reflexivity.
  - inversion Hkeys as [| ? ? [v Hv] Hkeys']; subst.
    assert (Hget : getitem t key w = Ok v w).
    { unfold getitem. rewrite (bind_step _ _ _ _ _ (read_sol_live _ _ _ Ht)).
      now rewrite Hv. }
    assert (Hlive : is_Some (vals w !! v)).
    { rewrite List.Forall_forall in Hvals.
      apply (Hvals (key, v)). now apply dict_get_In. }
    destruct Hlive as [p Hp].
    assert (Hcopy : deepcopy_val v w
                    = Ok (length (vals w))
                         (mkWorld (sols w) (vals w ++ [p]) (arrays w) (rng w) (log w))).
    { unfold deepcopy_val. unfold bind, read_val. rewrite Hp. reflexivity. }
    destruct (lookup_lt_is_Some_2 _ _ Hlt) as [sc Hsc].
    set (w1 := mkWorld (sols w) (vals w ++ [p]) (arrays w) (rng w) (log w)) in *.
    assert (Hset : setitem child key (length (vals w)) w1
                   = Ok tt (mkWorld (<[child := mkSolution (sol_x sc) (sol_y sc)
                                         (dict_set (sol_data sc) key (length (vals w)))]>
                                      (sols w))
                                    (vals w ++ [p]) (arrays w) (rng w) (log w))).
    { unfold setitem. unfold bind, read_sol. cbn [sols w1]. rewrite Hsc. reflexivity. }
    unfold bind at 1.
    rewrite (bind_step _ _ _ _ _ Hget), (bind_step _ _ _ _ _ Hcopy), Hset.
    apply IH; cbn [sols vals].
    + rewrite list_lookup_insert_ne by exact Hne. exact Ht.
    + eapply Forall_impl; [exact Hvals |]. intros entry [q Hq].
      exists q. now apply lookup_app_l_Some.
    + exact Hkeys'.
    + now rewrite length_insert.
    + exact Hne.
Qed.

Lemma child_progress self t st genes w :
  sols w !! t = Some st ->
  payload_in_order self w st ->
  exists w',
    (child <- construct genes [] ;;
     _transmit_solution_data self t child ;;;
     ret child) w = Ok (length (sols w)) w'.
Proof.
  intros Ht [Hvals Hkeys].
  set (w1 := mkWorld (sols w ++ [mkSolution genes None []]) (vals w) (arrays w)
                     (rng w) (log w)).
  assert (Hnew : construct genes [] w = Ok (length (sols w)) w1) by reflexivity.
  rewrite (bind_step _ _ _ _ _ Hnew).
  destruct (transmit_progress t st (length (sols w)) (_keys_data_transmit self) w1)
    as [w' Hw']; cbn [sols vals w1].
  - now apply lookup_app_l_Some.
  - exact Hvals.
  - exact Hkeys.
  - rewrite length_app. cbn. lia.
  - apply lookup_lt_Some in Ht. lia.
  - unfold _transmit_solution_data. rewrite (bind_step _ _ _ _ _ Hw').
    eexists. reflexivity.
Qed.

Lemma crossover_children_progress self t1 t2 st1 st2 w :
  is_Some (arrays w !! _bounds_transformed self) ->
  sols w !! t1 = Some st1 -> sols w !! t2 = Some st2 ->
  payload_in_order self w st1 -> payload_in_order self w st2 ->
  exists children w', crossover_children self t1 t2 w = Ok children w'.
Proof.
  intros [cached Hc] H1 H2 Hp1 Hp2. unfold crossover_children.
  rewrite (bind_step _ _ _ _ _ (read_sol_live _ _ _ H1)).
  rewrite (bind_step _ _ _ _ _ (read_sol_live _ _ _ H2)).
  unfold bind at 1. unfold _crossover at 1.
  rewrite (bind_step _ _ _ _ _ (read_array_live _ _ _ Hc)).
  unfold draw at 1.
  destruct (sbx_crossover (sol_x st1) (sol_x st2) cached (_crossover_rate self) (rng w))
    as [offspring g].
  set (w1 := mkWorld (sols w) (vals w) (arrays w) g (log w)).
  assert (Hmin : exists t st, py_min [t1; t2] w1 = Ok t w1 /\
                   sols w1 !! t = Some st /\ payload_in_order self w1 st).
  { cbn [py_min min_from].
    rewrite (bind_step _ _ _ _ _ (lt_sol_live w1 t2 t1 (ex_intro _ st2 H2) (ex_intro _ st1 H1))).
    destruct (lt_at w1 t2 t1); eauto. }
  destruct Hmin as (t & st & Hmin & Ht & Hp).
  rewrite (bind_step _ _ _ _ _ Hmin). cbn [mapM].
  destruct (child_progress self t st (fst offspring) w1 Ht Hp) as [w2 Hchild1].
  rewrite (bind_step _ _ _ _ _ Hchild1).
  pose proof (allocates_child True self t (fst offspring) w1) as Hall.
  rewrite Hchild1 in Hall.
  assert (Ht2 : sols w2 !! t = Some st).
  { destruct Hall as ([ss Hs] & _). rewrite Hs. now apply lookup_app_l_Some. }
  assert (Hp' : payload_in_order self w2 st).
  { destruct Hall as (_ & Hv & _). now apply (payload_in_order_later self w1). }
  destruct (child_progress self t st (snd offspring) w2 Ht2 Hp') as [w3 Hchild2].
  unfold bind at 1. rewrite (bind_step _ _ _ _ _ Hchild2).
  unfold bind, ret. eauto.
Qed.

Lemma deepcopy_data_progress data :
  forall memo w,
    Forall (fun entry => is_Some (vals w !! snd entry)) data ->
    exists data' w',
      deepcopy_data data memo w = Ok data' w' /\
      sols w' = sols w /\ exists vs, vals w' = vals w ++ vs.
Proof.
  induction data as [| [k v] data IH]; intros memo w Hdata; cbn [deepcopy_data].
  - exists [], w. repeat split. exists []. now rewrite app_nil_r.
  - inversion Hdata as [| ? ? [p Hp] Hdata']; subst. cbn [snd] in Hp.
    destruct (memo_get memo v) as [c |].
    + destruct (IH memo w Hdata') as (data' & w' & Hrun & Hs & Hv).
      rewrite (bind_step _ _ _ _ _ Hrun). unfold ret. eauto.
    + assert (Hcopy : deepcopy_val v w
                      = Ok (length (vals w))
                           (mkWorld (sols w) (vals w ++ [p]) (arrays w) (rng w) (log w))).
      { unfold deepcopy_val. unfold bind, read_val. rewrite Hp. reflexivity. }
      rewrite (bind_step _ _ _ _ _ Hcopy).
      match goal with
      | |- context [bind (deepcopy_data data ?m) _ ?w1] =>
          destruct (IH m w1) as (data' & w' & Hrun & Hs & [vs Hv])
      end.
      { cbn [vals]. eapply Forall_impl; [exact Hdata' |]. intros entry [q Hq].
        exists q. now apply lookup_app_l_Some. }
      rewrite (bind_step _ _ _ _ _ Hrun). unfold ret.
      eexists _, _. split; [reflexivity |]. split; [exact Hs |].
      exists ([p] ++ vs). rewrite Hv. cbn [vals]. now rewrite <- app_assoc.
Qed.

Lemma deepcopy_sol_progress self t st w :
  sols w !! t = Some st ->
  payload_in_order self w st ->
  exists c w', deepcopy_sol t w = Ok c w'.
Proof.
  intros Ht [Hvals _]. unfold deepcopy_sol.
  rewrite (bind_step _ _ _ _ _ (read_sol_live _ _ _ Ht)).
  destruct (deepcopy_data_progress (sol_data st) [] w Hvals)
    as (data' & w' & Hrun & _).
  rewrite (bind_step _ _ _ _ _ Hrun). unfold new_sol. eauto.
Qed.

Lemma clone_children_progress self t1 t2 st1 st2 w :
  sols w !! t1 = Some st1 -> sols w !! t2 = Some st2 ->
  payload_in_order self w st1 -> payload_in_order self w st2 ->
  exists children w', clone_children t1 t2 w = Ok children w'.
Proof.
  intros H1 H2 Hp1 Hp2. unfold clone_children.
  destruct (deepcopy_sol_progress self t1 st1 w H1 Hp1) as (c1 & w1 & Hc1).
  rewrite (bind_step _ _ _ _ _ Hc1).
  pose proof (allocates_deepcopy_sol True t1 w) as Hall. rewrite Hc1 in Hall.
  assert (H2' : sols w1 !! t2 = Some st2).
  { destruct Hall as ([ss Hs] & _). rewrite Hs. now apply lookup_app_l_Some. }
  assert (Hp2' : payload_in_order self w1 st2).
  { destruct Hall as (_ & Hv & _). now apply (payload_in_order_later self w). }
  destruct (deepcopy_sol_progress self t2 st2 w1 H2' Hp2') as (c2 & w2 & Hc2).
  rewrite (bind_step _ _ _ _ _ Hc2). unfold ret. eauto.
Qed.

Lemma well_formed_member self population w l :
  well_formed self population w -> In l population ->
  exists s, sols w !! l = Some s /\ payload_in_order self w s.
Proof.
  intros (_ & Hpop & _) Hl. rewrite List.Forall_forall in Hpop. now apply Hpop.
Qed.

(** A round on a well-formed population: children, or a retry loop out of
    budget, never an error. *)
Lemma get_mutants_round_progress retries self population first w :
  well_formed self population w ->
  population !! 0%nat = Some first ->
  match get_mutants_round retries self population w with
  | Ok children w' => only_allocates w w' /\ Forall (live w') children
  | Raise _ _ => False
  | Timeout => select_parents retries self population first first w = Timeout
  end.
Proof.
  intros Hwf Hfirst.
  pose proof (allocates_get_mutants_round retries self population w) as Hall.
  assert (Hrun : (exists children w',
                    get_mutants_round retries self population w = Ok children w') \/
                 (get_mutants_round retries self population w = Timeout /\
                  select_parents retries self population first first w = Timeout)).
  { unfold get_mutants_round.
    assert (Hget : getindex population 0 w = Ok first w)
      by (unfold getindex; now rewrite Hfirst).
    rewrite (bind_step _ _ _ _ _ Hget).
    pose proof (select_parents_progress self population retries first first w Hwf)
      as Hsel.
    destruct (select_parents retries self population first first w)
      as [[p1 p2] w1 | e w1 |] eqn:Esel; [| destruct Hsel |].
    2: { right. split; [| reflexivity]. unfold bind. now rewrite Esel. }
    left. rewrite (bind_step _ _ _ _ _ Esel). cbn [fst snd].
    pose proof (select_parents_spec _ _ _ _ _ _ _ _ Esel) as [_ Hin].
    destruct Hin as [Hin | [Hin1 Hin2]]; [now destruct Hin |]. cbn [fst snd] in *.
    assert (Hwf1 : well_formed self population w1)
      by now apply (well_formed_later self population w).
    destruct (well_formed_member _ _ _ _ Hwf1 Hin1) as (s1 & Hs1 & Hp1).
    destruct (transform_solution_progress self population w1 p1 s1 Hwf1 Hs1)
      as (g1 & Ht1).
    rewrite (bind_step _ _ _ _ _ Ht1).
    set (st1 := mkSolution g1 (sol_y s1) (sol_data s1)) in *.
    set (w2 := add_sol w1 st1) in *.
    assert (Hwf2 : well_formed self population w2)
      by (apply (well_formed_later self population w1);
          [apply only_allocates_sol | exact Hwf1]).
    destruct (well_formed_member _ _ _ _ Hwf2 Hin2) as (s2 & Hs2 & Hp2).
    destruct (transform_solution_progress self population w2 p2 s2 Hwf2 Hs2)
      as (g2 & Ht2).
    rewrite (bind_step _ _ _ _ _ Ht2).
    set (st2 := mkSolution g2 (sol_y s2) (sol_data s2)) in *.
    set (w3 := add_sol w2 st2) in *.
    unfold bind at 1. unfold draw at 1.
    destruct (rng_random (rng w3)) as [u g].
    set (w4 := mkWorld (sols w3) (vals w3) (arrays w3) g (log w3)).
    assert (H1 : sols w4 !! length (sols w1) = Some st1).
    { cbn [w4 w3 w2 add_sol sols]. apply lookup_app_l_Some, lookup_snoc. }
    assert (H2 : sols w4 !! length (sols w2) = Some st2).
    { cbn [w4 w3 add_sol sols]. apply lookup_snoc. }
    assert (Hp1' : payload_in_order self w4 st1) by exact Hp1.
    assert (Hp2' : payload_in_order self w4 st2) by exact Hp2.
    destruct (Qleb u (_crossover_rate self)).
    - destruct Hwf as ((raw & cached & _ & Hc & _) & _).
      apply (crossover_children_progress self _ _ st1 st2); auto.
      exists cached. destruct Hsel as (_ & _ & Ha & _).
      cbn [w4 w3 w2 add_sol arrays]. now rewrite Ha.
    - now apply (clone_children_progress self _ _ st1 st2). }
  destruct Hrun as [(children & w' & Hrun) | [Hrun Hsel]]; rewrite Hrun in *.
  - split; [exact Hall |].
    destruct (get_mutants_round_branches _ _ _ _ _ _ Hrun)
      as (p1 & p2 & u & w1 & Hl1 & Hl2 & _ & Hbranch).
    destruct (Qleb u (_crossover_rate self)).
    + apply crossover_children_spec in Hbranch.
      destruct Hbranch as (s1 & s2 & st & c1 & c2 & _ & _ & _ & _ & Hch).
      apply List.Forall_forall. intros child Hchild.
      destruct (Hch child Hchild) as (_ & sc & Hsc & _). now exists sc.
    + apply clone_children_spec in Hbranch; [| exact Hl2].
      destruct Hbranch as (c1 & c2 & -> & _ & (_ & ? & sc1 & _ & _ & H1 & _)
                           & (_ & ? & sc2 & _ & _ & H2 & _)).
      repeat constructor; eexists; eassumption.
  - exact Hsel.
Qed.

Lemma get_mutants_loop_progress fuel retries self population size first w0 :
  population !! 0%nat = Some first ->
  forall population_new pairs w,
    well_formed self population w ->
    rounds retries self population w0 pairs population_new w ->
    Forall (live w) population_new ->
    (size <= length population_new + 2 * fuel)%nat ->
    match get_mutants_loop fuel retries self population size population_new w with
    | Ok r w' => only_allocates w w' /\ Forall (live w') r
    | Raise _ _ => False
    | Timeout =>
        exists pairs' bred w1,
          rounds retries self population w0 pairs' bred w1 /\
          (length bred < size)%nat /\
          select_parents retries self population first first w1 = Timeout
    end.
Proof.
  intros Hfirst.
  induction fuel as [| fuel IH]; intros acc pairs w Hwf Hrounds Hlive Hfuel;
    cbn [get_mutants_loop]; destruct (length acc <? size)%nat eqn:E;
    try (split; [apply only_allocates_refl | exact Hlive]).
  - apply Nat.ltb_lt in E. lia.
  - apply Nat.ltb_lt in E.
    pose proof (get_mutants_round_progress retries self population first w Hwf Hfirst)
      as Hround.
    destruct (get_mutants_round retries self population w)
      as [children w1 | e w1 |] eqn:Erun; [| destruct Hround |].
    + rewrite (bind_step _ _ _ _ _ Erun). destruct Hround as [Hall Hch].
      pose proof (get_mutants_round_length _ _ _ _ _ _ Erun) as Hlen.
      pose proof (get_mutants_round_spec _ _ _ _ _ _ Erun)
        as (p1 & p2 & t1 & t2 & Hr & _).
      specialize (IH (acc ++ children) (pairs ++ [(p1, p2)]) w1).
      assert (Hwf1 : well_formed self population w1)
        by now apply (well_formed_later self population w).
      assert (Hlive1 : Forall (live w1) (acc ++ children)).
      { apply Forall_app. split; [| exact Hch].
        eapply Forall_impl; [exact Hlive |]. intros l. now apply live_later. }
      specialize (IH Hwf1 ltac:(econstructor; eassumption) Hlive1
                     ltac:(rewrite length_app; lia)).
      destruct (get_mutants_loop fuel retries self population size (acc ++ children) w1)
        as [r w' | e w' |]; [| exact IH | exact IH].
      destruct IH as [Hall' Hr']. split; [| exact Hr'].
      now apply (only_allocates_trans w w1).
    + unfold bind. rewrite Erun. exists pairs, acc, w. auto.
Qed.

Lemma mapM_live (G : world -> Prop) (f : loc -> M loc) l :
  (forall w w', G w -> only_allocates w w' -> G w') ->
  (forall a w, G w -> live w a ->
     exists b w', f a w = Ok b w' /\ only_allocates w w' /\ live w' b) ->
  forall w,
    G w -> Forall (live w) l ->
    exists bs w',
      mapM f l w = Ok bs w' /\ only_allocates w w' /\ Forall (live w') bs.
Proof.
  intros HG Hf. induction l as [| a l IH]; intros w Hw Hl; cbn [mapM].
  - exists [], w. split; [reflexivity |].
    split; [apply only_allocates_refl | constructor].
  - inversion Hl as [| ? ? Ha Hl']; subst.
    destruct (Hf a w Hw Ha) as (b & w1 & Hb & Hall & Hlb).
    rewrite (bind_step _ _ _ _ _ Hb).
    destruct (IH w1) as (bs & w' & Hbs & Hall' & Hlbs).
    { now apply (HG w). }
    { eapply Forall_impl; [exact Hl' |]. intros x. now apply live_later. }
    rewrite (bind_step _ _ _ _ _ Hbs).
    exists (b :: bs), w'. split; [reflexivity |].
    split; [now apply (only_allocates_trans w w1) |].
    constructor; [now apply (live_later w1) | exact Hlbs].
Qed.

Lemma mutate_population_transformed_progress self l w :
  is_Some (arrays w !! _bounds_transformed self) ->
  Forall (live w) l ->
  exists r w',
    _mutate_population_transformed self l w = Ok r w' /\
    only_allocates w w' /\ Forall (live w') r.
Proof.
  intros [cached Hc] Hl. unfold _mutate_population_transformed.
  rewrite (bind_step _ _ _ _ _ (read_array_live _ _ _ Hc)).
  unfold cauchy_mutation_population.
  apply (mapM_live (fun _ => True)); auto.
  intros a w1 _ [s Hs].
  rewrite (bind_step _ _ _ _ _ (read_sol_live _ _ _ Hs)).
  unfold bind, draw, new_sol.
  destruct (cauchy_mutation (sol_x s) cached (_gamma_default self)
              (_mutation_rate self) (rng w1)) as [genes g].
  eexists _, _. split; [reflexivity |]. cbn [sols vals arrays rng log].
  split.
  - split; [now eexists |]. split; [exists []; now rewrite app_nil_r |].
    split; reflexivity.
  - eexists. cbn [sols]. apply lookup_snoc.
Qed.

Lemma transform_population_back_progress self l w :
  is_Some (arrays w !! _bounds self) ->
  is_Some (arrays w !! _bounds_transformed self) ->
  Forall (live w) l ->
  exists r w', _transform_population_back self l w = Ok r w'.
Proof.
  intros Hraw Hc Hl. unfold _transform_population_back.
  destruct (mapM_live
              (fun w => is_Some (arrays w !! _bounds self) /\
                        is_Some (arrays w !! _bounds_transformed self))
              (_transform_solution_back self) l) with (w := w)
    as (r & w' & Hrun & _); eauto.
  - intros w1 w2 [H1 H2] (_ & _ & Ha & _). now rewrite Ha.
  - intros a w1 [H1 H2] [s Hs].
    destruct (transform_solution_back_progress self w1 a s H1 H2 Hs) as (genes & Hrun).
    eexists _, _. split; [exact Hrun |]. split; [apply only_allocates_sol |].
    eexists. cbn [add_sol sols]. apply lookup_snoc.
Qed.

(** What [get_mutants] does on a well-formed population. *)
Lemma get_mutants_progress retries self population k w :
  (3 <= length population)%nat ->
  0 <= k ->
  well_formed self population w ->
  match get_mutants retries self population (PyInt k) w with
  | Ok mutants w' => True
  | Raise _ _ => False
  | Timeout =>
      exists first pairs bred w1,
        population !! 0%nat = Some first /\
        rounds retries self population w pairs bred w1 /\
        (length bred < Z.to_nat k)%nat /\
        select_parents retries self population first first w1 = Timeout
  end.
Proof.
  intros Hlen Hk Hwf. unfold get_mutants.
  replace (length population <? 3)%nat with false
    by (symmetry; apply Nat.ltb_ge; lia).
  replace (k <? 0) with false by (symmetry; apply Z.ltb_ge; lia).
  destruct population as [| first rest] eqn:Epop; [cbn in Hlen; lia |].
  rewrite <- Epop in *.
  assert (Hfirst : population !! 0%nat = Some first) by now rewrite Epop.
  pose proof (get_mutants_loop_progress (Z.to_nat k) retries self population
                (Z.to_nat k) first w Hfirst [] [] w Hwf
                ltac:(constructor) ltac:(constructor) ltac:(cbn; lia)) as Hloop.
  destruct (get_mutants_loop (Z.to_nat k) retries self population (Z.to_nat k) [] w)
    as [bred w1 | e w1 |] eqn:Eloop; [| destruct Hloop |].
  - rewrite (bind_step _ _ _ _ _ Eloop). cbv zeta.
    destruct Hloop as [Hall Hlive].
    destruct Hwf as ((raw & cached & Hraw & Hc & _) & _).
    assert (Ha : arrays w1 = arrays w) by now destruct Hall as (_ & _ & Ha & _).
    destruct (mutate_population_transformed_progress self
                (firstn (Z.to_nat k) bred) w1)
      as (mutated & w2 & Hmut & Hall2 & Hlive2).
    { rewrite Ha. eauto. }
    { apply List.Forall_forall. intros x Hx.
      apply (sublist_In _ _ _ (sublist_take _ _)) in Hx.
      rewrite List.Forall_forall in Hlive. now apply Hlive. }
    rewrite (bind_step _ _ _ _ _ Hmut).
    assert (Ha2 : arrays w2 = arrays w1) by now destruct Hall2 as (_ & _ & Ha2 & _).
    destruct (transform_population_back_progress self mutated w2)
      as (mutants & w' & Hback); [rewrite Ha2, Ha; eauto .. | exact Hlive2 |].
    now rewrite Hback.
  - unfold bind. rewrite Eloop.
    destruct Hloop as (pairs & bred & w1 & Hr & Hlt & Hsel).
    exists first, pairs, bred, w1. auto.
Qed.

(** ** The retry budget *)

Lemma carries_over_refl {A} (m : M A) : carries_over m m.
Proof. intros w. now destruct (m w). Qed.

Lemma carries_over_bind {A B} (m m' : M A) (k k' : A -> M B) :
  carries_over m m' -> (forall a, carries_over (k a) (k' a)) ->
  carries_over (bind m k) (bind m' k').
Proof.
  intros Hm Hk w. unfold bind. specialize (Hm w).
  destruct (m w) as [a w1 | e w1 |]; [| now rewrite Hm | exact I].
  rewrite Hm. apply Hk.
Qed.

Lemma carries_over_Ok {A} (m m' : M A) w a w' :
  carries_over m m' -> m w = Ok a w' -> m' w = Ok a w'.
Proof. intros H E. specialize (H w). now rewrite E in H. Qed.

Lemma select_parents_budget self population retries :
  forall retries' p1 p2,
    (retries <= retries')%nat ->
    carries_over (select_parents retries self population p1 p2)
                 (select_parents retries' self population p1 p2).
Proof.
  induction retries as [| retries IH]; intros retries' p1 p2 Hle.
  - intros w. cbn [select_parents]. destruct (Nat.eqb p1 p2) eqn:E; [exact I |].
    destruct retries'; cbn [select_parents]; now rewrite E.
  - destruct retries' as [| retries']; [lia |]. cbn [select_parents].
    destruct (Nat.eqb p1 p2); [| apply carries_over_refl].
    apply carries_over_bind; [apply carries_over_refl |]. intros l1.
    apply carries_over_bind; [apply carries_over_refl |]. intros l2.
    apply IH. lia.
Qed.

Lemma get_mutants_round_budget self population retries retries' :
  (retries <= retries')%nat ->
  carries_over (get_mutants_round retries self population)
               (get_mutants_round retries' self population).
Proof.
  intros Hle. unfold get_mutants_round.
  apply carries_over_bind; [apply carries_over_refl |]. intros first.
  apply carries_over_bind; [now apply select_parents_budget |]. intros parents.
  apply carries_over_refl.
Qed.

Lemma get_mutants_loop_budget self population size retries retries' fuel :
  (retries <= retries')%nat ->
  forall population_new,
    carries_over (get_mutants_loop fuel retries self population size population_new)
                 (get_mutants_loop fuel retries' self population size population_new).
Proof.
  intros Hle. induction fuel as [| fuel IH]; intros acc; cbn [get_mutants_loop];
    destruct (_ <? _)%nat; try apply carries_over_refl.
  apply carries_over_bind; [now apply get_mutants_round_budget |].
  intros children. apply IH.
Qed.

Lemma get_mutants_budget self population size retries retries' :
  (retries <= retries')%nat ->
  carries_over (get_mutants retries self population size)
               (get_mutants retries' self population size).
Proof.
  intros Hle. unfold get_mutants.
  destruct (_ <? 3)%nat; [apply carries_over_refl |].
  destruct size; try apply carries_over_refl.
  destruct (_ <? 0); [apply carries_over_refl |].
  apply carries_over_bind; [now apply get_mutants_loop_budget |].
  intros bred. apply carries_over_refl.
Qed.

Lemma round_of_budget self population retries retries' w p1 p2 t1 t2 children w' :
  (retries <= retries')%nat ->
  round_of retries self population w p1 p2 t1 t2 children w' ->
  round_of retries' self population w p1 p2 t1 t2 children w'.
Proof.
  intros Hle (first & w1 & w2 & w3 & u & w4 & Hf & Hsel & Hrest).
  exists first, w1, w2, w3, u, w4. split; [exact Hf |]. split; [| exact Hrest].
  eapply carries_over_Ok; [| exact Hsel]. now apply select_parents_budget.
Qed.

Lemma rounds_budget self population retries retries' w pairs bred w' :
  (retries <= retries')%nat ->
  rounds retries self population w pairs bred w' ->
  rounds retries' self population w pairs bred w'.
Proof.
  intros Hle. induction 1 as [| pairs bred w1 p1 p2 t1 t2 children w2 _ IH Hr].
  - constructor.
  - econstructor; [exact IH |]. eapply round_of_budget; eassumption.
Qed.

(** A round is a pass of [get_mutants_round] that returned. *)
Lemma round_of_run retries self population w p1 p2 t1 t2 children w' :
  round_of retries self population w p1 p2 t1 t2 children w' ->
  get_mutants_round retries self population w = Ok children w'.
Proof.
  intros (first & w1 & w2 & w3 & u & w4 & Hf & Hsel & Ht1 & Ht2 & Hu & Hrest).
  unfold get_mutants_round.
  assert (Hget : getindex population 0 w = Ok first w)
    by (unfold getindex; now rewrite Hf).
  rewrite (bind_step _ _ _ _ _ Hget), (bind_step _ _ _ _ _ Hsel).
  cbn [fst snd].
  rewrite (bind_step _ _ _ _ _ Ht1), (bind_step _ _ _ _ _ Ht2),
    (bind_step _ _ _ _ _ Hu).
  destruct (Qleb u _); exact Hrest.
Qed.

(** Rounds only add objects. *)
Lemma rounds_only_allocates retries self population w pairs bred w' :
  rounds retries self population w pairs bred w' -> only_allocates w w'.
Proof.
  induction 1 as [| pairs bred w1 p1 p2 t1 t2 children w2 _ IH Hr].
  - apply only_allocates_refl.
  - apply (only_allocates_trans w w1 w2); [exact IH |].
    apply round_of_run in Hr.
    pose proof (allocates_get_mutants_round retries self population w1) as Hall.
    now rewrite Hr in Hall.
Qed.

(** The loop out of budget, whatever the population: it is stuck in a
    retry loop, in a world it has reached by whole rounds. *)
Lemma get_mutants_loop_stuck fuel retries self population size first w0 :
  population !! 0%nat = Some first ->
  forall population_new pairs w,
    rounds retries self population w0 pairs population_new w ->
    Forall (distinct_members population) pairs ->
    (size <= length population_new + 2 * fuel)%nat ->
    get_mutants_loop fuel retries self population size population_new w = Timeout ->
    exists pairs' bred w1,
      rounds retries self population w0 pairs' bred w1 /\
      Forall (distinct_members population) pairs' /\
      (length bred < size)%nat /\
      select_parents retries self population first first w1 = Timeout.
Proof.
  intros Hfirst.
  induction fuel as [| fuel IH]; intros acc pairs w Hrounds Hpairs Hfuel H;
    cbn [get_mutants_loop] in H; destruct (length acc <? size)%nat eqn:E;
    try discriminate.
  - apply Nat.ltb_lt in E. lia.
  - apply Nat.ltb_lt in E. apply bind_Timeout in H.
    destruct H as [H | (children & w1 & Hround & H)].
    + apply (get_mutants_round_Timeout _ _ _ first) in H; [| exact Hfirst].
      exists pairs, acc, w. auto.
    + pose proof (get_mutants_round_length _ _ _ _ _ _ Hround) as Hlen.
      apply get_mutants_round_spec in Hround.
      destruct Hround as (p1 & p2 & t1 & t2 & Hr & Hd & _).
      apply (IH (acc ++ children) (pairs ++ [(p1, p2)]) w1); auto.
      * econstructor; eassumption.
      * apply Forall_app. split; [exact Hpairs | now constructor].
      * rewrite length_app. lia.
Qed.

(** With retry loops that end, the loop returns for every budget that is
    large enough. *)
Lemma get_mutants_loop_returns fuel self population size first w0 :
  population !! 0%nat = Some first ->
  (forall budget pairs bred w1,
     rounds budget self population w0 pairs bred w1 ->
     exists r, select_parents r self population first first w1 <> Timeout) ->
  forall population_new budget pairs w,
    well_formed self population w ->
    rounds budget self population w0 pairs population_new w ->
    Forall (live w) population_new ->
    (size <= length population_new + 2 * fuel)%nat ->
    exists r,
      forall r', (r <= r')%nat ->
        exists bred w',
          get_mutants_loop fuel r' self population size population_new w
          = Ok bred w' /\
          only_allocates w w' /\ Forall (live w') bred.
Proof.
  intros Hfirst Hends.
  induction fuel as [| fuel IH]; intros acc budget pairs w Hwf Hrounds Hlive Hfuel;
    cbn [get_mutants_loop]; destruct (length acc <? size)%nat eqn:E.
  - apply Nat.ltb_lt in E. lia.
  - exists 0%nat. intros r' _. exists acc, w.
    split; [reflexivity |]. split; [apply only_allocates_refl | exact Hlive].
  - apply Nat.ltb_lt in E.
    destruct (Hends budget pairs acc w Hrounds) as [r0 Hr0].
    pose proof (get_mutants_round_progress r0 self population first w Hwf Hfirst)
      as Hround.
    destruct (get_mutants_round r0 self population w)
      as [children w1 | e w1 |] eqn:Erun; [| destruct Hround | now destruct Hr0].
    destruct Hround as [Hall Hch].
    pose proof (get_mutants_round_length _ _ _ _ _ _ Erun) as Hlen.
    pose proof (get_mutants_round_spec _ _ _ _ _ _ Erun)
      as (p1 & p2 & t1 & t2 & Hr & _).
    destruct (IH (acc ++ children) (Nat.max budget r0) (pairs ++ [(p1, p2)]) w1)
      as [r1 Hr1].
    + now apply (well_formed_later self population w).
    + econstructor.
      * eapply rounds_budget; [| exact Hrounds]. lia.
      * eapply round_of_budget; [| exact Hr]. lia.
    + apply Forall_app. split; [| exact Hch].
      eapply Forall_impl; [exact Hlive |]. intros l. now apply live_later.
    + rewrite length_app. lia.
    + exists (Nat.max r0 r1). intros r' Hle.
      assert (Erun' : get_mutants_round r' self population w = Ok children w1).
      { eapply carries_over_Ok; [| exact Erun].
        apply get_mutants_round_budget. lia. }
      rewrite (bind_step _ _ _ _ _ Erun').
      destruct (Hr1 r' ltac:(lia)) as (bred & w' & Hrun & Hall' & Hlive').
      exists bred, w'. split; [exact Hrun |]. split; [| exact Hlive'].
      now apply (only_allocates_trans w w1).
  - exists 0%nat. intros r' _. exists acc, w.
    split; [reflexivity |]. split; [apply only_allocates_refl | exact Hlive].
Qed.

(** C1 (as the code has it): on a population of at least three,
    [get_mutants(population, k)] with [k >= 0] returns [k] mutants whenever
    it returns.  It raises only if the population or the engine is not well
    formed.  It runs out of retries only in a retry loop that it has reached
    by whole rounds, each bred from two different members of the population,
    with fewer than [k] children bred so far.  A larger budget changes
    nothing that a smaller one returned or raised.  For [k = 0] the empty list
    is returned at once.  And on a well-formed population on which every
    retry loop that is reached ends under some budget, every budget that is
    large enough returns [k] mutants. *)
Theorem get_mutants_size (retries : nat) (self : GA) (population : list loc)
    (k : Z) (w : world) :
  (3 <= length population)%nat ->
  0 <= k ->
  match get_mutants retries self population (PyInt k) w with
  | Ok mutants _ => length mutants = Z.to_nat k
  | Raise _ _ => ~ well_formed self population w
  | Timeout =>
      0 < k /\
      exists first pairs bred w1,
        population !! 0%nat = Some first /\
        rounds retries self population w pairs bred w1 /\
        Forall (distinct_members population) pairs /\
        (length bred < Z.to_nat k)%nat /\
        select_parents retries self population first first w1 = Timeout
  end /\
  (forall retries',
     (retries <= retries')%nat ->
     carries_over (get_mutants retries self population (PyInt k))
                  (get_mutants retries' self population (PyInt k))) /\
  (k = 0 ->
   is_Some (arrays w !! _bounds_transformed self) ->
   get_mutants retries self population (PyInt k) w = Ok [] w) /\
  (well_formed self population w ->
   (forall budget first pairs bred w1,
      population !! 0%nat = Some first ->
      rounds budget self population w pairs bred w1 ->
      exists r, select_parents r self population first first w1 <> Timeout) ->
   exists r,
     forall r', (r <= r')%nat ->
       exists mutants w',
         get_mutants r' self population (PyInt k) w = Ok mutants w' /\
         length mutants = Z.to_nat k).
Proof.
  intros Hlen Hk.
  destruct population as [| first rest] eqn:Epop; [cbn in Hlen; lia |].
  rewrite <- Epop in *.
  assert (Hfirst : population !! 0%nat = Some first) by now rewrite Epop.
  split; [| split; [| split]].
  - pose proof (get_mutants_progress retries self population k w Hlen Hk) as Hwf.
    destruct (get_mutants retries self population (PyInt k) w)
      as [mutants w' | e w' |] eqn:E.
    + now apply get_mutants_Ok in E.
    + exact Hwf.
    + unfold get_mutants in E.
      replace (length population <? 3)%nat with false in E
        by (symmetry; apply Nat.ltb_ge; lia).
      replace (k <? 0) with false in E by (symmetry; apply Z.ltb_ge; lia).
      apply bind_Timeout in E. destruct E as [E | (bred & w1 & Hloop & E)].
      * apply (get_mutants_loop_stuck _ _ _ _ _ first w Hfirst [] [] w) in E;
          [| constructor | constructor | cbn; lia].
        destruct E as (pairs & bred & w1 & Hr & Hp & Hlt & Hsel).
        split; [lia |]. exists first, pairs, bred, w1. auto.
      * exfalso. cbv zeta in E. apply bind_Timeout in E.
        destruct E as [E | (mutated & w2 & _ & E)].
        -- eapply (halts_not_Timeout _ w1); [| exact E].
           unfold halts. apply preserves_mutate_population_transformed; intros; exact I.
        -- eapply (halts_not_Timeout _ w2); [| exact E].
           unfold halts. apply preserves_transform_population_back; intros; exact I.
  - intros retries' Hle. now apply get_mutants_budget.
  - intros -> [cached Hcached]. unfold get_mutants.
    replace (length population <? 3)%nat with false
      by (symmetry; apply Nat.ltb_ge; lia).
    change (0 <? 0) with false. change (Z.to_nat 0) with 0%nat.
    cbn [get_mutants_loop length Nat.ltb Nat.leb firstn].
    unfold _mutate_population_transformed, bind, ret, read_array.
    now rewrite Hcached.
  - intros Hwf Hends.
    destruct (get_mutants_loop_returns (Z.to_nat k) self population (Z.to_nat k)
                first w Hfirst
                ltac:(intros budget pairs bred w1 Hr; now apply (Hends budget first pairs bred w1))
                [] 0%nat [] w Hwf ltac:(constructor) ltac:(constructor)
                ltac:(cbn; lia)) as [r Hr].
    exists r. intros r' Hle.
    destruct (Hr r' Hle) as (bred & w1 & Hloop & Hall & Hlive).
    pose proof (get_mutants_progress r' self population k w Hlen Hk Hwf) as Hrun.
    destruct (get_mutants r' self population (PyInt k) w)
      as [mutants w' | e w' |] eqn:E; [| destruct Hrun |].
    + exists mutants, w'. split; [reflexivity |]. now apply get_mutants_Ok in E.
    + exfalso. unfold get_mutants in E.
      replace (length population <? 3)%nat with false in E
        by (symmetry; apply Nat.ltb_ge; lia).
      replace (k <? 0) with false in E by (symmetry; apply Z.ltb_ge; lia).
      rewrite (bind_step _ _ _ _ _ Hloop) in E. cbv zeta in E.
      apply bind_Timeout in E. destruct E as [E | (mutated & w2 & _ & E)].
      * eapply (halts_not_Timeout _ w1); [| exact E].
        unfold halts. apply preserves_mutate_population_transformed; intros; exact I.
      * eapply (halts_not_Timeout _ w2); [| exact E].
        unfold halts. apply preserves_transform_population_back; intros; exact I.
Qed.

(** ** The generations of a run *)

Lemma update_population_evaluated previous w0 w1 :
  NoDup previous ->
  update_population previous w0 = Ok tt w1 ->
  evaluated previous w0 w1.
Proof.
  intros Hnd H. pose proof (update_population_frame _ _ _ H) as (Hlive & _).
  destruct (update_population_live previous w0 Hlive)
    as (ss & Hrun & Hlen & Hout & Hin).
  rewrite Hrun in H. inv_ok H. cbn [sols vals arrays rng log].
  split; [exact Hlive |]. split; [exact Hlen |]. split; [now apply Hin |].
  split; [exact Hout |]. repeat split.
Qed.

Lemma filter_step_needs_array self i sol acc w r w' :
  arrays w !! _bounds self = None ->
  filter_step self i sol acc w = Ok r w' ->
  r = acc /\ arrays w' = arrays w.
Proof.
  intros Hnone H. unfold filter_step in H.
  step_in H as s w0 Hs. apply read_sol_Ok in Hs. destruct Hs as [-> _].
  destruct (negb (is_updated s)).
  { unfold bind, emit, ret in H. inv_ok H. auto. }
  destruct (negb (is_valid s)).
  { unfold bind, emit, ret in H. inv_ok H. auto. }
  exfalso. unfold is_solution_inside_bounds in H.
  unfold bind at 1 2 in H. unfold read_array at 1 in H.
  rewrite Hnone in H. discriminate H.
Qed.

Lemma filter_loop_needs_array self population :
  forall i acc w r w',
    arrays w !! _bounds self = None ->
    filter_loop self i population acc w = Ok r w' ->
    r = acc.
Proof.
  induction population as [| sol rest IH]; intros i acc w r w' Hnone H;
    cbn [filter_loop] in H.
  - now inv_ok H.
  - step_in H as acc1 w1 Hstep.
    apply filter_step_needs_array in Hstep; [| exact Hnone].
    destruct Hstep as [-> Ha]. apply IH in H; [exact H |]. now rewrite Ha.
Qed.

Lemma filter_population_survivors self population w survivors w' :
  Forall (live w) population ->
  filter_population self population w = Ok survivors w' ->
  survivors = [] \/
  exists raw,
    arrays w !! _bounds self = Some raw /\
    survivors = List.filter (survives w raw) population.
Proof.
  intros Hlive H.
  destruct (arrays w !! _bounds self) as [raw |] eqn:Hraw.
  - right. exists raw. split; [reflexivity |].
    destruct (filter_population_live self population raw w Hraw Hlive) as (evs & Hrun).
    rewrite Hrun in H. now inv_ok H.
  - left. unfold filter_population in H.
    step_in H as t w1 H1. unfold emit in H1. inv_ok H1.
    step_in H as r w2 Hloop. step_in H as t' w3 H3. inv_ok H.
    now apply filter_loop_needs_array in Hloop.
Qed.

(** An epoch that returns is a generation. *)
Lemma epoch_generation retries self n_solutions n_elites previous w0 population w' :
  NoDup previous ->
  epoch retries self n_solutions n_elites previous w0 = Ok population w' ->
  exists mutants,
    generation retries self n_solutions n_elites previous w0 population w' mutants.
Proof.
  unfold epoch. intros Hnd H.
  step_in H as t w1 Hupd. destruct t.
  step_in H as survivors w2 Hfil. step_in H as elites w3 Heli.
  step_in H as mutants w4 Hmut. inv_ok H.
  pose proof (update_population_evaluated _ _ _ Hnd Hupd) as Hev.
  assert (Hlive1 : Forall (live w1) previous).
  { destruct Hev as (Hlive & Hlen & _). eapply Forall_impl; [exact Hlive |].
    intros l Hl. apply lookup_lt_is_Some. rewrite Hlen.
    now apply lookup_lt_is_Some. }
  pose proof (filter_population_survivors _ _ _ _ _ Hlive1 Hfil) as Hsur.
  pose proof (filter_population_Ok _ _ _ _ _ Hfil) as (evs & -> & Hu & Hf & Hlive).
  pose proof (get_elites_Ok _ _ _ _ _ Hlive Heli) as (-> & Hrange & Helites).
  destruct Hsur as [-> | (raw & Hraw & Hsur)].
  { unfold get_mutants in Hmut. cbn in Hmut. discriminate Hmut. }
  pose proof (get_mutants_Ok _ _ _ _ _ _ _ Hmut) as (Hk & Hlen & Hlog & Hfresh).
  pose proof (get_mutants_seq _ _ _ _ _ _ _ Hmut) as (n1 & Hseq & Hn1 & Hend).
  cbn [with_log log sols] in *.
  exists mutants, w1, raw, evs, survivors, elites.
  split; [exact Hnd |]. split; [exact Hev |]. split; [exact Hraw |].
  split; [exact Hsur |]. split; [exact Helites |].
  split.
  { rewrite Helites, length_firstn.
    rewrite <- (Permutation_length (sort_by_perm (lt_at (with_log w1 evs)) survivors)).
    lia. }
  split; [exact Hmut |]. split; [exact Hlen |].
  split.
  { rewrite Hseq. apply List.Forall_forall. intros m Hm. apply in_seq in Hm.
    unfold live. split.
    - apply lookup_lt_is_Some. lia.
    - intros Hl. apply lookup_lt_is_Some in Hl. lia. }
  repeat (split; [first [assumption | reflexivity] |]). assumption.
Qed.

Lemma generations_cons retries self n_solutions n_elites n :
  forall p0 w0 p1 w1 mutants p w',
    generation retries self n_solutions n_elites p0 w0 p1 w1 mutants ->
    generations retries self n_solutions n_elites n p1 w1 p w' ->
    generations retries self n_solutions n_elites (S n) p0 w0 p w'.
Proof.
  induction n as [| n IH]; intros p0 w0 p1 w1 mutants p w' Hgen Hrest.
  - destruct Hrest as [-> ->]. exists p0, w0, mutants. split; [now split | exact Hgen].
  - destruct Hrest as (p2 & w2 & m2 & Hrest & Hlast).
    exists p2, w2, m2. split; [| exact Hlast]. now apply (IH p0 w0 p1 w1 mutants).
Qed.

Lemma run_epochs_generations retries self n_solutions n_elites n0 n :
  forall population w population' w',
    run_epochs n retries self n_solutions n_elites population w
    = Ok population' w' ->
    own n0 w population ->
    generations retries self n_solutions n_elites n population w population' w'.
Proof.
  induction n as [| n IH]; intros population w population' w' H Hown;
    cbn [run_epochs] in H.
  - inv_ok H. now split.
  - step_in H as p1 w1 Hep.
    destruct (epoch_own _ _ _ _ _ _ _ _ _ Hep Hown) as [Hown1 _].
    destruct (epoch_generation _ _ _ _ _ _ _ _ (proj1 Hown) Hep) as [mutants Hgen].
    apply (generations_cons _ _ _ _ _ population w p1 w1 mutants); [exact Hgen |].
    now apply IH.
Qed.

Lemma generation_length retries self n_solutions n_elites previous w0 population w'
    mutants :
  generation retries self n_solutions n_elites previous w0 population w' mutants ->
  0 <= n_elites <= n_solutions ->
  length population = Z.to_nat n_solutions.
Proof.
  intros (w1 & raw & evs & survivors & elites & _ & _ & _ & _ & _ & He & _ & Hm
          & _ & -> & _) Hrange.
  rewrite length_app, He, Hm. lia.
Qed.

Lemma generation_log retries self n_solutions n_elites previous w1 population w'
    mutants :
  generation retries self n_solutions n_elites previous w1 population w' mutants ->
  (length (sols w1) <= length (sols w'))%nat /\
  Forall (fun l => (l < length (sols w1))%nat) previous /\
  Forall (fun m => (length (sols w1) <= m)%nat) mutants /\
  exists evs,
    log w' = log w1 ++ map Updated previous ++ evs /\
    count_updates evs = 0%nat /\ count_filters evs = 1%nat.
Proof.
  intros (w2 & raw & evs & survivors & elites & _ & Hev & _ & _ & _
          & _ & Hmut & _ & Hfresh & _ & Hlog & Hu & Hf).
  destruct Hev as (Hlive & Hl & _ & _ & _ & _ & _ & Hlog2).
  pose proof (get_mutants_quiet retries self survivors
                (PyInt (n_solutions - n_elites)) (with_log w2 evs)) as Hq.
  rewrite Hmut in Hq. destruct Hq as [_ Hs]. cbn [with_log sols] in Hs.
  split; [lia |]. split; [| split].
  - eapply Forall_impl; [exact Hlive |]. intros l. apply lookup_lt_is_Some.
  - eapply Forall_impl; [exact Hfresh |]. intros m [_ Hm].
    destruct (Nat.le_gt_cases (length (sols w1)) m) as [Hle | Hlt]; [exact Hle |].
    exfalso. apply Hm. apply lookup_lt_is_Some. lia.
  - exists evs. rewrite Hlog, Hlog2, <- app_assoc. auto.
Qed.

Lemma no_update_among evs l : count_updates evs = 0%nat -> ~ In (Updated l) evs.
Proof.
  intros Hu Hl. unfold count_updates in Hu.
  assert (Hin : In (Updated l) (List.filter is_update evs))
    by (apply filter_In; split; [exact Hl | reflexivity]).
  destruct (List.filter is_update evs); [destruct Hin | discriminate].
Qed.

(** The records of [n] generations: every member of every generation was
    evaluated once, when its generation began, and the filter ran once per
    generation. *)
Lemma generations_log retries self n_solutions n_elites n :
  0 <= n_elites <= n_solutions ->
  forall initial w0 population w',
    generations retries self n_solutions n_elites n initial w0 population w' ->
    length initial = Z.to_nat n_solutions ->
    length population = Z.to_nat n_solutions /\
    (length (sols w0) <= length (sols w'))%nat /\
    exists evs,
      log w' = log w0 ++ evs /\
      count_updates evs = (n * Z.to_nat n_solutions)%nat /\
      count_filters evs = n /\
      (forall l, In (Updated l) evs -> (l < length (sols w'))%nat) /\
      (n <> 0%nat ->
       exists previous w1 mutants,
         generations retries self n_solutions n_elites (pred n) initial w0
           previous w1 /\
         generation retries self n_solutions n_elites previous w1 population w'
           mutants /\
         forall m, In m mutants -> ~ In (Updated m) evs).
Proof.
  intros Hrange. induction n as [| n IH]; intros initial w0 population w' H Hlen;
    cbn [generations] in H.
  - destruct H as [-> ->]. split; [exact Hlen |]. split; [lia |].
    exists []. rewrite app_nil_r. repeat split; try reflexivity.
    + intros l [].
    + intros Hn. now destruct Hn.
  - destruct H as (previous & w1 & mutants & Hrest & Hgen).
    destruct (IH _ _ _ _ Hrest Hlen)
      as (Hlenp & Hgrow & evs1 & Hlog1 & Hu1 & Hf1 & Hold & _).
    pose proof (generation_length _ _ _ _ _ _ _ _ _ Hgen Hrange) as Hlen'.
    destruct (generation_log _ _ _ _ _ _ _ _ _ Hgen)
      as (Hgrow' & Hprev & Hfresh & evs2 & Hlog2 & Hu2 & Hf2).
    split; [exact Hlen' |]. split; [lia |].
    assert (Hupd : forall l, In (Updated l) (evs1 ++ map Updated previous ++ evs2) ->
                     (l < length (sols w1))%nat).
    { intros l Hl. apply in_app_or in Hl. destruct Hl as [Hl | Hl]; [now apply Hold |].
      apply in_app_or in Hl.
      destruct Hl as [Hl | Hl]; [| now destruct (no_update_among evs2 l Hu2)].
      apply in_map_iff in Hl. destruct Hl as (l' & [= ->] & Hl).
      rewrite List.Forall_forall in Hprev. now apply Hprev. }
    exists (evs1 ++ map Updated previous ++ evs2).
    split; [rewrite Hlog2, Hlog1; now rewrite <- !app_assoc |].
    split.
    { rewrite !count_updates_app, count_updates_map, Hu1, Hu2, Hlenp. lia. }
    split.
    { rewrite !count_filters_app, count_filters_map, Hf1, Hf2. lia. }
    split; [intros l Hl; apply Hupd in Hl; lia |].
    cbn [pred]. intros _. exists previous, w1, mutants.
    split; [exact Hrest |]. split; [exact Hgen |].
    intros m Hm Hin. apply Hupd in Hin.
    rewrite List.Forall_forall in Hfresh. apply Hfresh in Hm. lia.
Qed.

(** C2: a call of [run] that returns has bred [n_epochs] generations in a
    row, the first from the population it generated, each from the
    population and the world the one before it left, and returns the last.
    In a generation the population is evaluated, filtered by the three
    tests, and replaced by the [n_elites] least survivors followed by
    [n_solutions - n_elites] mutants bred from the survivors,
    [n_solutions] individuals in all.  Over the whole call the [update] hook
    ran [n_epochs * n_solutions] times and the filter [n_epochs] times;
    nothing is evaluated after the last recombination, and the mutants of
    the returned population were never evaluated. *)
Theorem run_breeds_generations (retries : nat) (self : GA)
    (solutions epochs elites : pyval) (w : world)
    (population : list loc) (w' : world) :
  run retries self solutions epochs elites w = Ok population w' ->
  exists n_solutions n_epochs n_elites initial w0,
    solutions = PyInt n_solutions /\ epochs = PyInt n_epochs /\
    elites = PyInt n_elites /\
    0 <= n_epochs /\ 0 <= n_elites <= n_solutions /\
    generate_population self (Z.to_nat n_solutions) w = Ok initial w0 /\
    initial = seq (length (sols w)) (Z.to_nat n_solutions) /\
    log w0 = log w /\
    generations retries self n_solutions n_elites (Z.to_nat n_epochs)
      initial w0 population w' /\
    length population = Z.to_nat n_solutions /\
    exists evs,
      log w' = log w ++ evs /\
      count_updates evs = (Z.to_nat n_epochs * Z.to_nat n_solutions)%nat /\
      count_filters evs = Z.to_nat n_epochs /\
      (0 < n_epochs ->
       exists previous w1 mutants,
         generations retries self n_solutions n_elites (pred (Z.to_nat n_epochs))
           initial w0 previous w1 /\
         generation retries self n_solutions n_elites previous w1 population w'
           mutants /\
         forall m, In m mutants -> ~ In (Updated m) evs).
Proof.
  unfold run. intros H.
  destruct solutions as [| n_solutions | | | | |]; try discriminate.
  destruct (n_solutions <? 0) eqn:E1; [discriminate |].
  destruct epochs as [| n_epochs | | | | |]; try discriminate.
  destruct (n_epochs <? 0) eqn:E2; [discriminate |].
  destruct elites as [| n_elites | | | | |]; try discriminate.
  destruct ((0 <=? n_elites) && (n_elites <=? n_solutions)) eqn:E3;
    cbn [negb] in H; [| discriminate].
  apply andb_true_iff in E3. apply Z.ltb_ge in E2.
  step_in H as initial w0 Hgen.
  pose proof (generate_population_quiet self (Z.to_nat n_solutions) w) as Hq.
  rewrite Hgen in Hq. destruct Hq as [Hlog _].
  pose proof (generate_population_seq _ _ _ _ _ Hgen) as [Hseq Hlen0].
  assert (Hown : own (length (sols w)) w0 initial).
  { rewrite Hseq. split; [apply NoDup_ListNoDup, seq_NoDup |].
    apply List.Forall_forall. intros l Hl. apply in_seq in Hl. lia. }
  pose proof (run_epochs_generations _ _ _ _ _ _ _ _ _ _ H Hown) as Hchain.
  assert (Hrange : 0 <= n_elites <= n_solutions) by lia.
  destruct (generations_log retries self n_solutions n_elites (Z.to_nat n_epochs)
              Hrange _ _ _ _ Hchain)
    as (Hlen & _ & evs & Hlog' & Hu & Hf & _ & Hlast).
  { rewrite Hseq. apply length_seq. }
  exists n_solutions, n_epochs, n_elites, initial, w0.
  do 3 (split; [reflexivity |]). split; [exact E2 |]. split; [exact Hrange |].
  split; [exact Hgen |]. split; [exact Hseq |]. split; [exact Hlog |].
  split; [exact Hchain |]. split; [exact Hlen |].
  exists evs. rewrite Hlog', Hlog.
  split; [reflexivity |]. split; [exact Hu |]. split; [exact Hf |].
  intros Hpos. apply Hlast. lia.
Qed.

End Facts.

(** * The engine at work on concrete inputs *)

Example init_args0 : __init__ args0 world0 = Ok ga0 w_init.
Proof. vm_compute. reflexivity. Qed.

(** The three solutions and the engine of [args0] are well formed. *)
Lemma w_three_well_formed : well_formed ga0 [0; 1; 2]%nat w_three.
Proof.
  split; [| split].
  - exists bounds0, bounds0. repeat split.
  - repeat constructor; eexists; (split; [reflexivity |]); split; constructor.
  - intros g.
    change (fst (tournament_draw (length [0; 1; 2]%nat) (_selection_force ga0) g))
      with [((g + 0) mod 3)%nat; ((g + 1) mod 3)%nat].
    split; [discriminate |].
    constructor; [apply Nat.mod_upper_bound; discriminate |].
    constructor; [apply Nat.mod_upper_bound; discriminate |]. constructor.
Qed.

(** A tournament on the three solutions, whatever was made since: the lesser
    of the two positions drawn. *)
Lemma selection_on_three (w : world) ss :
  sols w = sols w_three ++ ss ->
  _selection ga0 [0; 1; 2]%nat w
  = Ok (Nat.min ((rng w + 0) mod 3) ((rng w + 1) mod 3)) (skip_draws 2 w).
Proof.
  intros Hs. unfold _selection, tournament_selection.
  assert (Hdraw : draw (tournament_draw 3 2) w
                  = Ok [((rng w + 0) mod 3)%nat; ((rng w + 1) mod 3)%nat]
                       (skip_draws 2 w)) by reflexivity.
  cbn [length _selection_force ga0]. rewrite (bind_step _ _ _ _ _ Hdraw).
  pose proof (Nat.mod_upper_bound (rng w + 0) 3 ltac:(discriminate)) as Ha.
  pose proof (Nat.mod_upper_bound (rng w + 1) 3 ltac:(discriminate)) as Hb.
  set (a := ((rng w + 0) mod 3)%nat) in *. set (b := ((rng w + 1) mod 3)%nat) in *.
  clearbody a b. clear Hdraw.
  set (w1 := skip_draws 2 w).
  assert (Hs1 : sols w1 = sols w_three ++ ss) by exact Hs.
  assert (Hlive : forall i, (i < 3)%nat -> live w1 i).
  { intros i Hi. unfold live. rewrite Hs1.
    destruct i as [| [| [| i]]]; [eexists; reflexivity .. | lia]. }
  assert (Hget : forall i, (i < 3)%nat -> getindex [0; 1; 2]%nat i w1 = Ok i w1).
  { intros i Hi. destruct i as [| [| [| i]]]; [reflexivity .. | lia]. }
  assert (Hcand : mapM (getindex [0; 1; 2]%nat) [a; b] w1 = Ok [a; b] w1).
  { cbn [mapM]. unfold bind, ret. cbv beta. rewrite (Hget a Ha). cbv beta iota.
    rewrite (Hget b Hb). reflexivity. }
  rewrite (bind_step _ _ _ _ _ Hcand). cbn [py_min min_from].
  rewrite (bind_step _ _ _ _ _ (lt_sol_live w1 b a (Hlive b Hb) (Hlive a Ha))).
  unfold ret, lt_at. rewrite Hs1.
  destruct a as [| [| [| a]]]; [| | | lia];
    destruct b as [| [| [| b]]]; try lia; reflexivity.
Qed.

(** On the three solutions the retry loop has a pair after two rounds of
    draws at most, wherever the random source stands. *)
Lemma select_parents_on_three (w : world) ss :
  sols w = sols w_three ++ ss ->
  select_parents 2 ga0 [0; 1; 2]%nat 0%nat 0%nat w <> Timeout.
Proof.
  intros Hs. cbn [select_parents Nat.eqb].
  rewrite (bind_step _ _ _ _ _ (selection_on_three w ss Hs)).
  rewrite (bind_step _ _ _ _ _ (selection_on_three (skip_draws 2 w) ss Hs)).
  cbn [select_parents].
  match goal with |- context [Nat.eqb ?a ?b] => destruct (Nat.eqb a b) eqn:E end;
    [| discriminate].
  rewrite (bind_step _ _ _ _ _
             (selection_on_three (skip_draws 2 (skip_draws 2 w)) ss Hs)).
  rewrite (bind_step _ _ _ _ _
             (selection_on_three (skip_draws 2 (skip_draws 2 (skip_draws 2 w))) ss Hs)).
  cbn [select_parents].
  match goal with |- context [Nat.eqb ?a ?b] => destruct (Nat.eqb a b) eqn:E' end;
    [| discriminate].
  exfalso. cbn [skip_draws rng] in E, E'.
  repeat rewrite <- Nat.add_assoc in E. repeat rewrite <- Nat.add_assoc in E'.
  assert (Hmod : forall c, ((rng w + c) mod 3 = (rng w mod 3 + c) mod 3)%nat)
    by (intros c; now rewrite Nat.Div0.add_mod_idemp_l).
  repeat match goal with
         | H : context [((rng w + ?c) mod 3)%nat] |- _ => rewrite (Hmod c) in H
         end.
  pose proof (Nat.mod_upper_bound (rng w) 3 ltac:(discriminate)) as Hr.
  destruct (rng w mod 3)%nat as [| [| [| r]]]; [| | | lia];
    vm_compute in E, E'; congruence.
Qed.

(** C1, on three solutions and an odd size: under a budget of four, and
    under every budget from two on. *)
Lemma get_mutants_size_witness :
  well_formed ga0 [0; 1; 2]%nat w_three /\
  (exists mutants w',
     get_mutants 4 ga0 [0; 1; 2]%nat (PyInt 3) w_three = Ok mutants w' /\
     length mutants = 3%nat) /\
  exists r,
    forall r', (r <= r')%nat ->
      exists mutants w',
        get_mutants r' ga0 [0; 1; 2]%nat (PyInt 3) w_three = Ok mutants w' /\
        length mutants = 3%nat.
Proof.
  split; [exact w_three_well_formed |]. split.
  - pose proof (get_mutants_size 4 ga0 [0; 1; 2]%nat 3 w_three
                  ltac:(cbn; lia) ltac:(lia)) as [H _].
    destruct (get_mutants 4 ga0 [0; 1; 2]%nat (PyInt 3) w_three)
      as [mutants w' | e w' |] eqn:E.
    + exists mutants, w'. split; [reflexivity | exact H].
    + destruct (H w_three_well_formed).
    + vm_compute in E. discriminate E.
  - destruct (get_mutants_size 2 ga0 [0; 1; 2]%nat 3 w_three
                ltac:(cbn; lia) ltac:(lia)) as (_ & _ & _ & H).
    apply H; [exact w_three_well_formed |].
    intros budget first pairs bred w1 Hfirst Hrounds.
    assert (first = 0%nat) as -> by (cbn in Hfirst; congruence).
    exists 2%nat.
    destruct (rounds_only_allocates _ _ _ _ _ _ _ Hrounds) as [[ss Hs] _].
    exact (select_parents_on_three w1 ss Hs).
Defined.

Lemma selection_one_instance (w : world) s :
  sols w = [s] ->
  _selection ga0 [0; 0; 0]%nat w = Ok 0%nat (skip_draws 2 w).
Proof.
  intros Hs. unfold _selection, tournament_selection.
  assert (Hdraw : draw (tournament_draw 3 2) w
                  = Ok [((rng w + 0) mod 3)%nat; ((rng w + 1) mod 3)%nat]
                       (skip_draws 2 w)) by reflexivity.
  cbn [length _selection_force ga0]. rewrite (bind_step _ _ _ _ _ Hdraw).
  assert (Hat : forall i, (i < 3)%nat ->
                  getindex [0; 0; 0]%nat i (skip_draws 2 w)
                  = Ok 0%nat (skip_draws 2 w)).
  { intros i Hi. unfold getindex.
    destruct i as [| [| [| i]]]; try reflexivity. lia. }
  cbn [mapM]. unfold bind at 1 2 3.
  rewrite Hat by (apply Nat.mod_upper_bound; lia).
  unfold bind at 1. rewrite Hat by (apply Nat.mod_upper_bound; lia).
  change (py_min [0%nat; 0%nat] (skip_draws 2 w) = Ok 0%nat (skip_draws 2 w)).
  cbn [py_min min_from]. unfold bind, lt_sol, bind, read_sol, ret, skip_draws.
  cbn [sols]. rewrite Hs. cbn. now destruct (fitness_lt s s).
Qed.

Lemma select_parents_one_instance retries :
  forall (w : world) s,
    sols w = [s] ->
    select_parents retries ga0 [0; 0; 0]%nat 0%nat 0%nat w = Timeout.
Proof.
  induction retries as [| retries IH]; intros w s Hs; cbn [select_parents Nat.eqb].
  - reflexivity.
  - rewrite (bind_step _ _ _ _ _ (selection_one_instance w s Hs)).
    rewrite (bind_step _ _ _ _ _ (selection_one_instance (skip_draws 2 w) s Hs)).
    apply (IH _ s). exact Hs.
Qed.

(** C1 fails as stated: on a population of length 3 whose entries are one
    solution instance, no retry budget lets [get_mutants(population, 1)]
    return: the retry loop never finds two different parents. *)
Lemma get_mutants_one_instance_never_returns :
  (3 <= length [0; 0; 0]%nat)%nat /\
  0 <= 1 /\
  (forall retries,
     get_mutants retries ga0 [0; 0; 0]%nat (PyInt 1) w_one = Timeout).
Proof.
  split; [cbn; lia |]. split; [lia |].
  intros retries.
  assert (Hstuck : forall A (m : M A) B (k : A -> M B) (w : world),
             m w = Timeout -> bind m k w = Timeout)
    by (intros A m B k w Hm; unfold bind; now rewrite Hm).
  unfold get_mutants. cbn [length Nat.ltb Nat.leb].
  change (1 <? 0) with false. change (Z.to_nat 1) with 1%nat.
  apply Hstuck. cbn [get_mutants_loop length Nat.ltb Nat.leb].
  apply Hstuck. unfold get_mutants_round.
  rewrite (bind_step _ _ w_one 0%nat w_one) by reflexivity.
  apply Hstuck. now apply (select_parents_one_instance retries w_one _ eq_refl).
Qed.

(** C2, on five solutions, three epochs and one elite. *)
Lemma run_breeds_generations_witness :
  exists population w',
    run 5 ga0 (PyInt 5) (PyInt 3) (PyInt 1) w_init = Ok population w' /\
    length population = 5%nat /\
    count_updates (log w') = 15%nat.
Proof.
  destruct (run 5 ga0 (PyInt 5) (PyInt 3) (PyInt 1) w_init)
    as [population w' | e w' |] eqn:E.
  - exists population, w'. split; [reflexivity |].
    destruct (run_breeds_generations 5 ga0 _ _ _ w_init population w' E)
      as (n & e & l & initial & w0 & [= <-] & [= <-] & _ & _ & _ & _ & _ & _ & _
          & Hlen & evs & Hlog & Hu & _).
    split; [exact Hlen |]. rewrite Hlog. exact Hu.
  - vm_compute in E. discriminate E.
  - vm_compute in E. discriminate E.
Defined.

(** The comparison of [SumSolution] is a strict weak order. *)
Lemma Qltb_asym p q : Qltb p q = true -> Qltb q p = false.
Proof.
  unfold Qltb. intros H. apply negb_true_iff in H. apply negb_false_iff.
  apply Qle_bool_iff. apply Qlt_le_weak, Qnot_le_lt.
  intros Hle. apply Qle_bool_iff in Hle. congruence.
Qed.

Lemma Qltb_negtrans p q r :
  Qltb p q = false -> Qltb q r = false -> Qltb p r = false.
Proof.
  unfold Qltb. rewrite !negb_false_iff, !Qle_bool_iff.
  intros Hqp Hrq. eapply Qle_trans; eassumption.
Qed.

Lemma fitness_order : strict_weak_order.
Proof.
  split.
  - intros a b. cbn. unfold fitness_lt.
    destruct (sol_y a), (sol_y b); try discriminate; try reflexivity.
    apply Qltb_asym.
  - intros a b c. cbn. unfold fitness_lt.
    destruct (sol_y a), (sol_y b), (sol_y c);
      try discriminate; try reflexivity.
    apply Qltb_negtrans.
Qed.

(** C4, on three solutions listed out of order. *)
Lemma get_elites_correct_witness :
  get_elites [2; 0; 1]%nat (PyInt 2) w_three = Ok [0; 1]%nat w_three /\
  get_elites [2; 0; 1]%nat (PyInt 4) w_three = Raise ValueError w_three /\
  get_elites [2; 0; 1]%nat (PyFloat 2) w_three = Raise TypeError w_three.
Proof.
  destruct get_elites_correct as (Hok & Hrange & Htype).
  split; [| split].
  - destruct (Hok [2; 0; 1]%nat 2 w_three fitness_order)
      as (elites & rest & E & _).
    + repeat constructor; eexists; reflexivity.
    + cbn. lia.
    + rewrite E. vm_compute in E. injection E as <-. reflexivity.
  - apply Hrange. cbn. lia.
  - apply Htype. discriminate.
Defined.

(** C5, on the four solutions: only the first survives. *)
Lemma filter_population_correct_witness :
  exists evs,
    filter_population ga0 [0; 1; 2; 3]%nat w_mixed
    = Ok [0%nat] (with_log w_mixed evs).
Proof.
  destruct (filter_population_correct ga0 [0; 1; 2; 3]%nat bounds0 w_mixed)
    as [[evs E] _].
  - reflexivity.
  - repeat constructor; eexists; reflexivity.
  - exists evs. exact E.
Defined.

(** C6, on three solutions: one round. *)
Lemma parents_are_distinct_witness :
  exists children w' p1 p2 t1 t2,
    get_mutants_round 4 ga0 [0; 1; 2]%nat w_three = Ok children w' /\
    round_of 4 ga0 [0; 1; 2]%nat w_three p1 p2 t1 t2 children w' /\
    p1 <> p2.
Proof.
  destruct (get_mutants_round 4 ga0 [0; 1; 2]%nat w_three)
    as [children w' | e w' |] eqn:E.
  - destruct (proj1 (parents_are_distinct 4 ga0 [0; 1; 2]%nat) _ _ _ E)
      as (p1 & p2 & t1 & t2 & Hround & (Hne & _) & _).
    exists children, w', p1, p2, t1, t2. auto.
  - vm_compute in E. discriminate E.
  - vm_compute in E. discriminate E.
Defined.

(** C7, on the configuration [args0] with the crossover rate changed, and
    with the lower bound of the log-scaled gene set to zero. *)
Lemma init_rejects_bad_configuration_witness :
  rejected (mkArgs SubclassOfSolution [[1; 10]; [1 # 10; 100]]%Q None (Some 1%Q)
              (Some [false; true]) 1%Q (3 # 2)%Q (PyInt 2) None None) world0 /\
  exists w',
    __init__ (mkArgs SubclassOfSolution [[1; 10]; [0; 100]]%Q None (Some 1%Q)
                (Some [false; true]) 1%Q 1%Q (PyInt 2) None None) world0
    = Raise ValueError w'.
Proof.
  destruct init_rejects_bad_configuration as (Hrate & _ & Hmask & _).
  split; [apply Hrate; reflexivity |].
  apply (Hmask _ world0 [false; true] 1%nat 0%Q 100%Q); try reflexivity.
  apply Qle_refl.
Defined.

(** C8, on the two parents: both branches. *)
Lemma children_carry_copies_witness :
  (exists children w' sc,
     crossover_children ga_keys 0%nat 1%nat w_payload = Ok children w' /\
     sols w' !! 2%nat = Some sc /\
     dict_get (sol_data sc) "state" = Some 3%nat /\
     vals w' !! 3%nat = Some [1]%Q) /\
  (exists children w',
     clone_children 0%nat 1%nat w_payload = Ok children w' /\
     exists c1 c2,
       children = [c1; c2] /\ c1 <> c2 /\
       deep_copy_of w_payload w' 0%nat c1 /\ deep_copy_of w_payload w' 1%nat c2).
Proof.
  destruct children_carry_copies as (_ & Hcross & Hclone). split.
  - destruct (crossover_children ga_keys 0%nat 1%nat w_payload)
      as [children w' | e w' |] eqn:E.
    + destruct (Hcross _ _ _ _ _ _ E) as (s1 & s2 & st & c1 & c2 & _).
      exists children, w'. vm_compute in E. injection E as <- <-.
      eexists. split; [reflexivity |]. split; [reflexivity |].
      split; reflexivity.
    + vm_compute in E. discriminate E.
    + vm_compute in E. discriminate E.
  - destruct (clone_children 0%nat 1%nat w_payload)
      as [children w' | e w' |] eqn:E.
    + exists children, w'. split; [reflexivity |].
      apply (Hclone _ _ _ _ _ E). eexists. reflexivity.
    + vm_compute in E. discriminate E.
    + vm_compute in E. discriminate E.
Defined.

(** C9, on [None], on a tuple of solutions and on a plain integer. *)
Lemma mutate_population_type_check_witness :
  mutate_population ga0 PyNone w_three = Raise TypeError w_three /\
  mutate_population ga0 (PyTuple [PySol 0%nat]) w_three
  = Raise TypeError w_three /\
  mutate_population ga0 (PyInt 3) w_three = Raise TypeError w_three.
Proof.
  destruct (mutate_population_type_check ga0 w_three) as [Hcheck Hint].
  split; [apply Hcheck; reflexivity |].
  split; [apply Hcheck; reflexivity | apply Hint].
Defined.

(** C9 fails as stated: what passes the check is accepted whatever it
    holds.  A list that holds an object with the attributes of a solution,
    which is not one, is mutated like a population and no error is raised; a
    list that holds an integer ends in an [AttributeError], not a
    [TypeError]; and an instance of a subclass of [int] that can be iterated,
    which is no list at all, is mutated like a population. *)
Lemma mutate_population_accepts_any_list :
  is_population (PyList [PyObj 0%nat]) = false /\
  (exists mutated w',
     mutate_population ga0 (PyList [PyObj 0%nat]) w_three = Ok mutated w') /\
  is_population (PyList [PyInt 42]) = false /\
  mutate_population ga0 (PyList [PyInt 42]) w_three
  = Raise AttributeError w_three /\
  (exists mutated w',
     mutate_population ga0 (IterableInt 7 [PySol 0%nat]) w_three
     = Ok mutated w').
Proof.
  split; [reflexivity |]. split.
  - eexists. eexists. vm_compute. reflexivity.
  - split; [reflexivity |]. split.
    + apply mutate_population_unchecked_item. intros l. split; discriminate.
    + eexists. eexists. vm_compute. reflexivity.
Qed.

(** C10, on the engine of [args0]: a run of two epochs and the accessor. *)
Lemma bounds_are_immutable_witness :
  match perform 5 ga0 (CallRun (PyInt 5) (PyInt 2) (PyInt 1)) w_init with
  | Ok _ w' | Raise _ w' =>
      arrays w' !! _bounds ga0 = Some bounds0 /\
      arrays w' !! _bounds_transformed ga0 = Some bounds0
  | Timeout => True
  end /\
  exists copy w1,
    bounds ga0 w_init = Ok copy w1 /\ copy <> _bounds ga0 /\
    arrays w1 !! copy = Some bounds0.
Proof.
  destruct bounds_are_immutable as [Hkept Hcopy]. split.
  - apply (Hkept 5%nat ga0 _ w_init bounds0 bounds0); reflexivity.
  - destruct (Hcopy ga0 w_init bounds0 eq_refl)
      as (copy & w1 & E & Hne & Hrows & _).
    exists copy, w1. auto.
Defined.

(** ** The further properties on the same inputs *)

(** X1, on the configuration [args0]. *)
Lemma init_establishes_invariants_witness :
  (0 < _n_genes ga0)%nat /\ length (_gammas ga0) = _n_genes ga0 /\
  2 <= _selection_force ga0.
Proof.
  destruct (init_establishes_invariants args0 world0 ga0 w_init)
    as (Hn & _ & Hg & _ & _ & _ & _ & _ & Hf & _).
  - vm_compute. reflexivity.
  - auto.
Defined.

(** X16, on the configuration [args0]. *)
Lemma init_checks_values_witness :
  exists rows,
    asfarray_2d (arg_bounds args0) = Some rows /\
    Forall (fun b => (fst b < snd b)%Q) rows /\
    arrays w_init = [rows; rows].
Proof.
  destruct (init_checks_values args0 world0 ga0 w_init)
    as (rows & Hrows & _ & Hord & _ & _ & Ha & _).
  - vm_compute. reflexivity.
  - exists rows. split; [exact Hrows |]. split; [exact Hord |].
    vm_compute in Hrows. injection Hrows as <-. reflexivity.
Defined.

(** X2, on [args0] with the class and with the mutation rate replaced. *)
Lemma init_rejects_one_bad_argument_witness :
  __init__ (with_class args0 NotSubclassOfSolution) world0
  = Raise TypeError world0 /\
  exists w1, __init__ (with_mutation_rate args0 2) world0 = Raise ValueError w1.
Proof.
  destruct (init_rejects_one_bad_argument args0 world0 ga0 w_init)
    as (Hclass & Hrate & _).
  - vm_compute. reflexivity.
  - split; [exact Hclass |]. apply Hrate.
    intros [_ H]. unfold Qle in H. cbn in H. lia.
Defined.

(** X3, on the engine of [args0]: three solutions. *)
Lemma generate_population_fresh_witness :
  exists ss g,
    generate_population ga0 3 w_init
    = Ok [0; 1; 2]%nat (mkWorld ss [] [bounds0; bounds0] g []) /\
    length ss = 3%nat.
Proof.
  destruct (generate_population_fresh ga0 3 w_init) as (ss & g & H & Hlen & _).
  - exists bounds0, bounds0. repeat split. cbn. lia.
  - exists ss, g. split; [exact H | exact Hlen].
Defined.

(** X6, on the three solutions. *)
Lemma update_population_evaluates_witness :
  exists ss,
    update_population [0; 1; 2]%nat w_three
    = Ok tt (mkWorld ss [] [bounds0; bounds0] 0%nat
                     [Updated 0%nat; Updated 1%nat; Updated 2%nat]) /\
    length ss = 3%nat.
Proof.
  destruct (update_population_evaluates [0; 1; 2]%nat w_three)
    as (ss & H & Hlen & _).
  - apply NoDup_ListNoDup, (seq_NoDup 3 0).
  - repeat constructor; eexists; reflexivity.
  - exists ss. split; [exact H | exact Hlen].
Defined.

(** X7, on the four solutions. *)
Lemma filter_population_idempotent_witness :
  exists survivors evs evs',
    filter_population ga0 [0; 1; 2; 3]%nat w_mixed
    = Ok survivors (with_log w_mixed evs) /\
    filter_population ga0 survivors (with_log w_mixed evs)
    = Ok survivors (with_log (with_log w_mixed evs) evs').
Proof.
  destruct (filter_population_idempotent ga0 [0; 1; 2; 3]%nat bounds0 w_mixed)
    as (survivors & evs & evs' & H1 & H2 & _).
  - reflexivity.
  - repeat constructor; eexists; reflexivity.
  - exists survivors, evs, evs'. split; [exact H1 | exact H2].
Defined.

(** X8, on three solutions listed out of order: one elite out of two. *)
Lemma get_elites_nested_witness :
  get_elites [2; 0; 1]%nat (PyInt 1) w_three = Ok [0%nat] w_three.
Proof.
  apply (get_elites_nested [2; 0; 1]%nat 1 2 w_three [0; 1]%nat w_three).
  - lia.
  - vm_compute. reflexivity.
Defined.

(** X9, on three solutions listed out of order. *)
Lemma get_elites_is_stable_witness :
  exists ordered,
    get_elites [2; 0; 1]%nat (PyInt 3) w_three = Ok ordered w_three /\
    get_elites ordered (PyInt (Z.of_nat (length ordered))) w_three
    = Ok ordered w_three.
Proof.
  destruct (get_elites_is_stable [2; 0; 1]%nat w_three fitness_order)
    as (ordered & H1 & _ & _ & _ & H2).
  - repeat constructor; eexists; reflexivity.
  - exists ordered. split; [exact H1 | exact H2].
Defined.

(** X12, on five solutions, two epochs and one elite. *)
Lemma run_returns_its_own_solutions_witness :
  exists population w',
    run 5 ga0 (PyInt 5) (PyInt 2) (PyInt 1) w_init = Ok population w' /\
    NoDup population.
Proof.
  destruct (run 5 ga0 (PyInt 5) (PyInt 2) (PyInt 1) w_init)
    as [population w' | e w' |] eqn:E.
  - exists population, w'. split; [reflexivity |].
    exact (proj1 (run_returns_its_own_solutions 5 ga0 _ _ _ w_init _ _ E)).
  - vm_compute in E. discriminate E.
  - vm_compute in E. discriminate E.
Defined.

(** X13, on three solutions and an odd size. *)
Lemma get_mutants_loop_pairs_witness :
  exists children w',
    get_mutants_loop 3 4 ga0 [0; 1; 2]%nat 3 [] w_three = Ok children w' /\
    length children = 4%nat.
Proof.
  destruct (get_mutants_loop 3 4 ga0 [0; 1; 2]%nat 3 [] w_three)
    as [children w' | e w' |] eqn:E.
  - exists children, w'. split; [reflexivity |].
    exact (proj1 (get_mutants_loop_pairs 3 4 ga0 _ 3 w_three _ _ E)).
  - vm_compute in E. discriminate E.
  - vm_compute in E. discriminate E.
Defined.

(** X14, on the first of the three solutions. *)
Lemma transform_round_trip_shares_payload_witness :
  exists t w1 u w2,
    _transform_solution ga0 0%nat w_three = Ok t w1 /\
    _transform_solution_back ga0 t w1 = Ok u w2 /\
    t = 3%nat /\ u = 4%nat.
Proof.
  destruct (_transform_solution ga0 0%nat w_three) as [t w1 | e w1 |] eqn:E1;
    [| vm_compute in E1; discriminate E1 | vm_compute in E1; discriminate E1].
  destruct (_transform_solution_back ga0 t w1) as [u w2 | e w2 |] eqn:E2.
  - exists t, w1, u, w2. split; [reflexivity |]. split; [exact E2 |].
    destruct (transform_round_trip_shares_payload ga0 0%nat w_three t w1 u w2
                E1 E2)
      as (s & raw & cached & _ & _ & _ & _ & Ht & Hu & _).
    split; [exact Ht | exact Hu].
  - vm_compute in E1. injection E1 as <- <-. vm_compute in E2. discriminate E2.
  - vm_compute in E1. injection E1 as <- <-. vm_compute in E2. discriminate E2.
Defined.

(** X5, on an object that has the attributes of a solution but is none. *)
Lemma mutate_solution_is_singleton_mutation_witness :
  mutate_solution ga0 (PyObj 0%nat) w_three = Raise TypeError w_three.
Proof.
  apply (proj1 (mutate_solution_is_singleton_mutation ga0 w_three)).
  intros l. discriminate.
Defined.

(** X11, on the engine of [args0]: two solutions and one epoch. *)
Lemma run_needs_three_survivors_witness :
  exists w',
    run 5 ga0 (PyInt 2) (PyInt 1) (PyInt 0) w_init = Raise ValueError w'.
Proof.
  apply (proj1 (proj2 (run_needs_three_survivors 5 ga0))); try lia.
  exists bounds0, bounds0. repeat split. cbn. lia.
Defined.
